(** * MSGFPlusAdapter: the TSV-to-idXML conversion of [src/topp/MSGFPlusAdapter.cpp]

    A shallow embedding of the part of the adapter that turns the rows of the
    MS-GF+ result table into peptide and protein identifications:

    - the four sequence rewriting methods [cutSequence], [fixDecimalSeparator],
      [modifyNTermAASpecificSequence] and [modifySequence];
    - [generateInputfileMapping], which builds the retention time / precursor
      m/z index;
    - the row loop of [main_] and the assembly of the two output vectors.

    [std::size_t] values are integers in [0, 2^64) with the wrap-around of
    unsigned arithmetic written out; [std::string] is a list of characters;
    [std::map] and [std::set] are association lists kept in key order; C++
    exceptions, early exits and undefined behaviour are the failures of a small
    error monad. *)

From Stdlib Require Import ZArith List Ascii String Bool Lia Sorted.
Import ListNotations.

Open Scope string_scope.
Open Scope list_scope.
Open Scope Z_scope.

(** ** Outcomes of an execution *)

(** The exceptions that the modelled code can raise. *)
Inductive exception : Type :=
| out_of_range       (* std::out_of_range, from substr / insert *)
| ElementNotFound    (* Exception::ElementNotFound, from String::suffix *)
| ConversionError    (* Exception::ConversionError, from toInt / toDouble *)
| ParseError.        (* Exception::ParseError, from AASequence::fromString *)

(** The exit codes that the conversion part of [main_] returns. *)
Inductive ExitCodes : Type :=
| EXECUTION_OK
| PARSE_ERROR.

Inductive failure : Type :=
| Throw (e : exception)   (* an exception leaves the function *)
| Undefined               (* an access outside a string or vector *)
| Exit (c : ExitCodes)    (* [return c;] out of the row loop *)
| OutOfFuel.              (* a bounded unrolling of a [while] ran out *)

Inductive outcome (A : Type) : Type :=
| Ok (a : A)
| Fail (f : failure).

Arguments Ok {A} a.
Arguments Fail {A} f.

Definition bind {A B : Type} (m : outcome A) (k : A -> outcome B) : outcome B :=
  match m with
  | Ok a => k a
  | Fail f => Fail f
  end.

Notation "x <- m ;; k" := (bind m (fun x => k))
  (at level 61, m at next level, right associativity).

(** ** [std::size_t] and [std::string] *)

Definition size_t : Type := Z.

(** Unsigned 64-bit wrap-around. *)
Definition wrap (z : Z) : size_t := z mod 2 ^ 64.

Definition npos : size_t := 2 ^ 64 - 1.

(** [OpenMS::String] derives from [std::string]. *)
Definition String : Type := list ascii.

Coercion list_ascii_of_string : string >-> list.

Definition size (s : String) : size_t := Z.of_nat (List.length s).

(** The longest string the library can hold; every position inside a string
    this short, and a few past it, are far from wrapping. *)
Definition max_size : Z := 2 ^ 62.

Definition mem (c : ascii) (chars : String) : bool :=
  existsb (Ascii.eqb c) chars.

(** Offset of the first character satisfying [p]. *)
Fixpoint index_where (p : ascii -> bool) (s : String) : option nat :=
  match s with
  | [] => None
  | c :: s' => if p c then Some O else option_map S (index_where p s')
  end.

(** [s.find_first_of(chars, pos)] *)
Definition find_first_of (s chars : String) (pos : size_t) : size_t :=
  if size s <=? pos then npos
  else match index_where (fun c => mem c chars) (skipn (Z.to_nat pos) s) with
       | Some i => pos + Z.of_nat i
       | None => npos
       end.

(** [s.find_last_of(chars)] *)
Definition find_last_of (s chars : String) : size_t :=
  match index_where (fun c => mem c chars) (rev s) with
  | Some i => size s - 1 - Z.of_nat i
  | None => npos
  end.

Fixpoint starts_with (pat s : String) : bool :=
  match pat, s with
  | [], _ => true
  | _ :: _, [] => false
  | p :: pat', c :: s' => Ascii.eqb p c && starts_with pat' s'
  end.

Fixpoint find_offset (pat s : String) : option nat :=
  if starts_with pat s then Some O
  else match s with
       | [] => None
       | _ :: s' => option_map S (find_offset pat s')
       end.

(** [s.find(pat)] *)
Definition find (s pat : String) : size_t :=
  match find_offset pat s with
  | Some i => Z.of_nat i
  | None => npos
  end.

(** [s.substr(pos, len)]: throws when [pos > size()], and stops at the end of
    the string when fewer than [len] characters are left. *)
Definition substr (s : String) (pos len : size_t) : outcome String :=
  if size s <? pos then Fail (Throw out_of_range)
  else Ok (firstn (Z.to_nat (Z.min len (size s - pos))) (skipn (Z.to_nat pos) s)).

(** [s.insert(pos, t)] *)
Definition insert (s : String) (pos : size_t) (t : String) : outcome String :=
  if size s <? pos then Fail (Throw out_of_range)
  else Ok (firstn (Z.to_nat pos) s ++ t ++ skipn (Z.to_nat pos) s).

(** [s[pos]] read: defined for positions inside the string only. *)
Definition at_ (s : String) (pos : size_t) : outcome ascii :=
  if pos <? size s
  then match nth_error s (Z.to_nat pos) with
       | Some c => Ok c
       | None => Fail Undefined
       end
  else Fail Undefined.

(** [s[pos] = c] *)
Definition set_at (s : String) (pos : size_t) (c : ascii) : outcome String :=
  if pos <? size s
  then Ok (firstn (Z.to_nat pos) s ++ c :: skipn (S (Z.to_nat pos)) s)
  else Fail Undefined.

(** [*s.rbegin()] *)
Definition rbegin (s : String) : outcome ascii :=
  match rev s with
  | c :: _ => Ok c
  | [] => Fail Undefined
  end.

(** ** The sequence rewriting methods *)

Definition uppercase : String := "ABCDEFGHIJKLMNOPQRSTUVWXYZ".

(** Lines 176-191. *)
Definition cutSequence (sequence : String) : outcome String :=
  let findFirst := find_first_of sequence "." 0 in
  let findLast := find_last_of sequence "." in
  if negb (findFirst =? npos) && negb (findLast =? npos)
     && negb (findFirst =? findLast)
  then substr sequence (wrap (findFirst + 1)) (wrap (findLast - 2))
  else Ok sequence.

(** Lines 195-204; [fuel] bounds the iterations of the [while]. *)
Fixpoint fixDecimalSeparator_while (fuel : nat) (seq : String) (found : size_t)
  : outcome String :=
  if found =? npos then Ok seq
  else match fuel with
       | O => Fail OutOfFuel
       | S fuel' =>
           seq' <- set_at seq found "." ;;
           fixDecimalSeparator_while fuel' seq'
             (find_first_of seq' ".," (wrap (found + 1)))
       end.

Definition fixDecimalSeparator (seq : String) : outcome String :=
  fixDecimalSeparator_while (List.length seq) seq (find_first_of seq ".," 0).

(** Lines 209-212. *)
Definition massShiftList : list (String * ascii) :=
  [ ("-18.011" : String, "E"%char); ("-17.027" : String, "Q"%char) ].

(** Lines 214-234: the [for] over [massShiftList]. *)
Fixpoint modifyNTermAASpecificSequence_for (iter : list (String * ascii))
  (modifiedSequence : String) : outcome String :=
  match iter with
  | [] => Ok modifiedSequence
  | (modMassShift, aa) :: iter' =>
      let found := find modifiedSequence modMassShift in
      if negb (found =? npos) then
        tmp <- substr modifiedSequence 0 (wrap (found + size modMassShift + 1)) ;;
        let foundAA := find_first_of tmp uppercase 0 in
        if found <? foundAA then
          c <- at_ tmp foundAA ;;
          if Ascii.eqb c aa then
            swap <- (if 0 <? found then substr modifiedSequence 0 found
                     else Ok []) ;;
            last <- rbegin tmp ;;
            rest <- substr modifiedSequence
                      (wrap (found + size modMassShift + 1)) npos ;;
            Ok (swap ++ [last] ++ modMassShift ++ rest)
          else modifyNTermAASpecificSequence_for iter' modifiedSequence
        else modifyNTermAASpecificSequence_for iter' modifiedSequence
      else modifyNTermAASpecificSequence_for iter' modifiedSequence
  end.

Definition modifyNTermAASpecificSequence (seq : String) : outcome String :=
  modifyNTermAASpecificSequence_for massShiftList seq.

(** Lines 240-260; [fuel] bounds the iterations of the [while]. *)
Fixpoint modifySequence_while (fuel : nat) (modifiedSequence : String)
  (found : size_t) : outcome String :=
  if found =? npos then Ok modifiedSequence
  else match fuel with
       | O => Fail OutOfFuel
       | S fuel' =>
           s1 <- insert modifiedSequence found "[" ;;
           let found1 := find_first_of s1 uppercase found in
           if negb (found1 =? npos) then
             s2 <- insert s1 found1 "]" ;;
             modifySequence_while fuel' s2
               (find_first_of s2 "+-" (wrap (found1 + 2)))
           else Ok (s1 ++ "]")
       end.

Definition modifySequence (seq : String) : outcome String :=
  modifySequence_while (List.length seq) seq (find_first_of seq "+-" 0).

(** Line 505, without the final [AASequence::fromString]. *)
Definition rewrite_sequence (raw : String) : outcome String :=
  s1 <- cutSequence raw ;;
  s2 <- fixDecimalSeparator s1 ;;
  s3 <- modifyNTermAASpecificSequence s2 ;;
  modifySequence s3.

(** ** [std::map] and [std::set]

    Both are search trees whose iteration visits the keys in the order of the
    comparison; they are association lists kept in that order. *)

Section StdMap.
Context {K V : Type}.
Variable cmp : K -> K -> comparison.

Definition Map : Type := list (K * V).

(** [m.find(k)], with [None] for [m.end()] *)
Fixpoint lookup (m : Map) (k : K) : option V :=
  match m with
  | [] => None
  | (k', v) :: m' =>
      match cmp k k' with
      | Eq => Some v
      | _ => lookup m' k
      end
  end.

(** Stores [v] under [k], at the place of [k] in the key order. *)
Fixpoint put (m : Map) (k : K) (v : V) : Map :=
  match m with
  | [] => [(k, v)]
  | (k', v') :: m' =>
      match cmp k k' with
      | Lt => (k, v) :: m
      | Eq => (k, v) :: m'
      | Gt => (k', v') :: put m' k v
      end
  end.

(** [m[k]] on a map that is not [const]: a missing key is first inserted
    with a default-constructed value. *)
Definition subscript (m : Map) (k : K) (dflt : V) : V * Map :=
  match lookup m k with
  | Some v => (v, m)
  | None => (dflt, put m k dflt)
  end.

(** [m[k].f(...)] for a mutating member [f]. *)
Definition update (m : Map) (k : K) (dflt : V) (f : V -> V) : Map :=
  let (v, m') := subscript m k dflt in put m' k (f v).

Definition keys (m : Map) : list K := map fst m.
Definition values (m : Map) : list V := map snd m.

(** The keys are in strictly ascending order. *)
Definition ordered (m : Map) : Prop :=
  StronglySorted (fun a b => cmp a b = Lt) (keys m).
End StdMap.

Arguments Map : clear implicits.

(** [operator<] of [std::string] compares the characters as unsigned bytes,
    the first difference or else the length deciding. *)
Definition String_compare : String -> String -> comparison :=
  list_compare Ascii.compare.

Definition String_eqb (a b : String) : bool :=
  if list_eq_dec ascii_dec a b then true else false.

(** [std::set<String>]: a map without values. *)
Definition StringSet : Type := Map String unit.

Definition set_contains (s : StringSet) (x : String) : bool :=
  match lookup String_compare s x with Some _ => true | None => false end.

Definition set_insert (s : StringSet) (x : String) : StringSet :=
  put String_compare s x tt.

(** [v[i]] on a [std::vector]. *)
Definition vector_at {A : Type} (v : list A) (i : nat) : outcome A :=
  match nth_error v i with
  | Some a => Ok a
  | None => Fail Undefined
  end.

(** Modelled from the spec: [String::suffix(char)] of the OpenMS library, whose
    definition is not among the sources; the part after the last occurrence
    of the delimiter, an error when the delimiter does not occur. *)
Definition suffix (s : String) (delim : ascii) : outcome String :=
  let pos := find_last_of s [delim] in
  if pos =? npos then Fail (Throw ElementNotFound)
  else substr s (wrap (pos + 1)) npos.

(** ** The conversion of the result table *)

Section Conversion.

(** Numbers with a fraction are only read, stored and compared. *)
Context {double float : Type}.
Variable to_float : double -> float.
Variable to_double : float -> double.

(** [AASequence], with its [operator==] and its parser [fromString], which
    throws on a string that is no sequence. *)
Context {AASequence : Type}.
Variable AASequence_eq_dec : forall a b : AASequence, {a = b} + {a <> b}.
Variable fromString : String -> option AASequence.

(** [String::toInt] and [String::toDouble] throw on a string that is no
    number. *)
Variable toInt : String -> option Z.
Variable toDouble : String -> option double.

(** [PeptideHit::ScoreLess] *)
Variable score_less : double -> double -> bool.

Definition AASequence_fromString (s : String) : outcome AASequence :=
  match fromString s with Some a => Ok a | None => Fail (Throw ParseError) end.

Definition String_toInt (s : String) : outcome Z :=
  match toInt s with Some z => Ok z | None => Fail (Throw ConversionError) end.

Definition String_toDouble (s : String) : outcome double :=
  match toDouble s with Some d => Ok d | None => Fail (Throw ConversionError) end.

Record PeptideHit : Type := mkPeptideHit {
  score : double;
  rank : Z;
  charge : Z;
  sequence : AASequence;
  protein_accessions : list String
}.

(** Modelled from the spec: [PeptideHit::addProteinAccession] of the OpenMS
    library, whose definition is not among the sources; the accessions of
    a hit are a set, and adding one that is present changes nothing. *)
Definition addProteinAccession (h : PeptideHit) (accession : String)
  : PeptideHit :=
  if in_dec (list_eq_dec ascii_dec) accession (protein_accessions h) then h
  else mkPeptideHit (score h) (rank h) (charge h) (sequence h)
         (protein_accessions h ++ [accession]).

Record PeptideIdentification : Type := mkPeptideIdentification {
  RT : option double;
  MZ : option double;
  ScanNumber : option Z;          (* the meta value "ScanNumber" *)
  score_type : String;
  higher_score_better : bool;
  identifier : String;
  hits : list PeptideHit
}.

(** A default-constructed [PeptideIdentification]. *)
Definition PeptideIdentification_default : PeptideIdentification :=
  mkPeptideIdentification None None None [] true [] [].

Definition setRT (x : double) (p : PeptideIdentification) :=
  mkPeptideIdentification (Some x) (MZ p) (ScanNumber p) (score_type p)
    (higher_score_better p) (identifier p) (hits p).
Definition setMZ (x : double) (p : PeptideIdentification) :=
  mkPeptideIdentification (RT p) (Some x) (ScanNumber p) (score_type p)
    (higher_score_better p) (identifier p) (hits p).
Definition setScanNumber (n : Z) (p : PeptideIdentification) :=
  mkPeptideIdentification (RT p) (MZ p) (Some n) (score_type p)
    (higher_score_better p) (identifier p) (hits p).
Definition setScoreType (t : String) (p : PeptideIdentification) :=
  mkPeptideIdentification (RT p) (MZ p) (ScanNumber p) t
    (higher_score_better p) (identifier p) (hits p).
Definition setHigherScoreBetter (b : bool) (p : PeptideIdentification) :=
  mkPeptideIdentification (RT p) (MZ p) (ScanNumber p) (score_type p)
    b (identifier p) (hits p).
Definition setIdentifier (i : String) (p : PeptideIdentification) :=
  mkPeptideIdentification (RT p) (MZ p) (ScanNumber p) (score_type p)
    (higher_score_better p) i (hits p).
Definition setHits (hs : list PeptideHit) (p : PeptideIdentification) :=
  mkPeptideIdentification (RT p) (MZ p) (ScanNumber p) (score_type p)
    (higher_score_better p) (identifier p) hs.

(** Modelled from the spec: [PeptideIdentification::sort] of the OpenMS
    library, whose definition is not among the sources; the hits are put in
    the order of their scores, the better score first, and hits of equal
    score keep their order. *)
Fixpoint insert_hit (before : PeptideHit -> PeptideHit -> bool)
  (h : PeptideHit) (hs : list PeptideHit) : list PeptideHit :=
  match hs with
  | [] => [h]
  | h' :: hs' =>
      if before h' h then h' :: insert_hit before h hs'
      else if before h h' then h :: hs
      else h' :: insert_hit before h hs'
  end.

Definition sort_hits (before : PeptideHit -> PeptideHit -> bool)
  (hs : list PeptideHit) : list PeptideHit :=
  fold_left (fun acc h => insert_hit before h acc) hs [].

Definition sort (p : PeptideIdentification) : PeptideIdentification :=
  let before :=
    if higher_score_better p
    then fun a b => score_less (score b) (score a)
    else fun a b => score_less (score a) (score b) in
  setHits (sort_hits before (hits p)) p.

Record ProteinHit : Type := mkProteinHit { accession : String }.

Record ProteinIdentification : Type := mkProteinIdentification {
  protein_identifier : String;
  search_engine : String;
  protein_score_type : String;
  protein_hits : list ProteinHit
}.

(** A spectrum of the loaded experiment: its native id, its retention time
    and the m/z of its precursors. *)
Record MSSpectrum : Type := mkMSSpectrum {
  getNativeID : String;
  getRT : double;
  getPrecursors : list double
}.

Definition RTMapping : Type := Map String (list float).

(** Lines 277-285: one spectrum of the loop of [generateInputfileMapping]. *)
Definition generateInputfileMapping_body (rt_mapping : RTMapping)
  (it : MSSpectrum) : outcome RTMapping :=
  let id := getNativeID it in
  if negb (String_eqb id []) then
    let rt_mapping :=
      update String_compare rt_mapping id []
        (fun v => v ++ [to_float (getRT it)]) in
    mz <- vector_at (getPrecursors it) 0 ;;
    Ok (update String_compare rt_mapping id [] (fun v => v ++ [to_float mz]))
  else Ok rt_mapping.

Fixpoint generateInputfileMapping_for (rt_mapping : RTMapping)
  (exp : list MSSpectrum) : outcome RTMapping :=
  match exp with
  | [] => Ok rt_mapping
  | it :: exp' =>
      rt_mapping' <- generateInputfileMapping_body rt_mapping it ;;
      generateInputfileMapping_for rt_mapping' exp'
  end.

(** Lines 265-287; [exp] is the experiment that the file [exp_name] holds,
    its spectra of MS level 2. *)
Definition generateInputfileMapping (exp_name : String)
  (exp : list MSSpectrum) (rt_mapping : RTMapping) : outcome RTMapping :=
  if negb (String_eqb exp_name []) then
    generateInputfileMapping_for rt_mapping exp
  else Ok rt_mapping.

(** The state that the row loop of [main_] changes. *)
Record state : Type := mkState {
  rt_mapping : RTMapping;
  peptide_identifications : Map Z PeptideIdentification;
  prot_accessions : StringSet
}.

(** [elements[i]] *)
Definition element (elements : list String) (i : nat) : outcome String :=
  vector_at elements i.

(** Lines 496-503. *)
Definition row_scanNumber (elements : list String) : outcome Z :=
  e2 <- element elements 2 ;;
  if String_eqb e2 [] || String_eqb e2 "-1" then
    e1 <- element elements 1 ;;
    sfx <- suffix e1 "="%char ;;
    String_toInt sfx
  else String_toInt e2.

(** Line 505. *)
Definition row_sequence (elements : list String) : outcome AASequence :=
  e8 <- element elements 8 ;;
  s <- rewrite_sequence e8 ;;
  AASequence_fromString s.

(** Lines 538-541: what the loop over the hits of a scan seen before does
    to one hit. *)
Definition merge_accession (sequence_ : AASequence)
  (prot_accession : String) (p_it : PeptideHit) : PeptideHit :=
  if AASequence_eq_dec (sequence p_it) sequence_
  then addProteinAccession p_it prot_accession
  else p_it.

(** Every scan number of the map has its own number as meta value and
    one hit, which names no protein twice. *)
Definition one_hit_each (m : Map Z PeptideIdentification) : Prop :=
  forall n pep,
    lookup Z.compare m n = Some pep ->
    ScanNumber pep = Some n /\
    exists h, hits pep = [h] /\ NoDup (protein_accessions h).

(** Lines 489-544: the body of the loop over the rows; a row that
    [getRow] cannot split is [None]. *)
Definition ingest_row (identifier_ : String) (st : state)
  (row : option (list String)) : outcome state :=
  match row with
  | None => Fail (Exit PARSE_ERROR)
  | Some elements =>
      scanNumber <- row_scanNumber elements ;;
      sequence_ <- row_sequence elements ;;
      prot_accession <- element elements 9 ;;
      let prot_accessions_ :=
        if negb (set_contains (prot_accessions st) prot_accession)
        then set_insert (prot_accessions st) prot_accession
        else prot_accessions st in
      match lookup Z.compare (peptide_identifications st) scanNumber with
      | None =>
          e12 <- element elements 12 ;;
          score_ <- String_toDouble e12 ;;
          e7 <- element elements 7 ;;
          charge_ <- String_toInt e7 ;;
          let p_hit :=
            addProteinAccession
              (mkPeptideHit score_ 0 charge_ sequence_ []) prot_accession in
          let p_hits := [p_hit] in
          spec_id <- element elements 1 ;;
          let (v0, rt0) :=
            subscript String_compare (rt_mapping st) spec_id [] in
          rt <- vector_at v0 0 ;;
          let ids :=
            update Z.compare (peptide_identifications st) scanNumber
              PeptideIdentification_default (setRT (to_double rt)) in
          let (v1, rt1) := subscript String_compare rt0 spec_id [] in
          mz <- vector_at v1 1 ;;
          let upd := fun f m =>
            update Z.compare m scanNumber PeptideIdentification_default f in
          let ids := upd (setMZ (to_double mz)) ids in
          let ids := upd (setScanNumber scanNumber) ids in
          let ids := upd (setScoreType "SpecEValue") ids in
          let ids := upd (setHigherScoreBetter false) ids in
          let ids := upd (setIdentifier identifier_) ids in
          let ids := upd (setHits p_hits) ids in
          Ok (mkState rt1 ids prot_accessions_)
      | Some pep =>
          let p_hits :=
            map (merge_accession sequence_ prot_accession) (hits pep) in
          let ids :=
            update Z.compare (peptide_identifications st) scanNumber
              PeptideIdentification_default (setHits p_hits) in
          Ok (mkState (rt_mapping st) ids prot_accessions_)
      end
  end.

(** Lines 487-545: the rows in file order. *)
Fixpoint ingest_rows (identifier_ : String) (st : state)
  (rows : list (option (list String))) : outcome state :=
  match rows with
  | [] => Ok st
  | row :: rows' =>
      st' <- ingest_row identifier_ st row ;;
      ingest_rows identifier_ st' rows'
  end.

(** The map of the scan numbers and the set of the accessions are in
    order, and every scan number has one hit. *)
Definition well_formed (st : state) : Prop :=
  ordered Z.compare (peptide_identifications st) /\
  ordered String_compare (prot_accessions st) /\
  one_hit_each (peptide_identifications st).

(** What [IdXMLFile().store] is given. *)
Record idXML : Type := mkIdXML {
  protein_ids : list ProteinIdentification;
  peptide_ids : list PeptideIdentification
}.

(** Lines 423-569 of [main_]: the index, the loop over the rows from row 1
    on (row 0 holds the column titles), and the two vectors that are
    stored.  [identifier_] is the date-derived identifier of the run. *)
Definition main_ (identifier_ : String) (exp_name : String)
  (exp : list MSSpectrum) (tsvfile : list (option (list String)))
  : outcome idXML :=
  rt_mapping_ <- generateInputfileMapping exp_name exp [] ;;
  st <- ingest_rows identifier_ (mkState rt_mapping_ [] []) (skipn 1 tsvfile) ;;
  let prot_hits := map mkProteinHit (keys (prot_accessions st)) in
  let protein_id :=
    mkProteinIdentification identifier_ "MS-GF+" "MS-GF+" prot_hits in
  let peptide_ids_ := map sort (values (peptide_identifications st)) in
  Ok (mkIdXML [protein_id] peptide_ids_).

End Conversion.

(** A string without any of the characters searched for. *)
Definition free_of (chars s : String) : Prop :=
  forallb (fun c => negb (mem c chars)) s = true.


(** The characters of [s] strictly between the positions [i] and [j]. *)
Definition between (s : String) (i j : size_t) : String :=
  firstn (Z.to_nat (j - i - 1)) (skipn (Z.to_nat (i + 1)) s).

(** Number of [.] in a string. *)
Definition dots (s : String) : nat := count_occ ascii_dec s "."%char.

(** The cut in the words of the specification: the characters strictly
    between the first and the last [.], without the last one of them. *)
Definition cut_one_short (s : String) : String :=
  removelast (between s (find_first_of s "." 0) (find_last_of s ".")).

(** The other reading of the specification: the positions from [first + 1]
    up to, and without, [last - 2]. *)
Definition cut_half_open (s : String) : String :=
  let first := find_first_of s "." 0 in
  let last := find_last_of s "." in
  firstn (Z.to_nat (last - 2 - (first + 1))) (skipn (Z.to_nat (first + 1)) s).

(** What [fixDecimalSeparator] makes of one character. *)
Definition decimal_point (c : ascii) : ascii :=
  if mem c ".," then "."%char else c.

Definition is_sign (c : ascii) : bool := mem c "+-".
Definition is_upper (c : ascii) : bool := mem c uppercase.




(** The loop of [modifySequence] read as one pass over the characters:
    outside of a segment a sign opens one, inside of a segment the next
    letter closes it, and the end of the string closes an open segment. *)
Fixpoint bracket (inside : bool) (s : String) : String :=
  match s with
  | [] => if inside then "]" else []
  | c :: s' =>
      if inside then
        if is_upper c then "]"%char :: c :: bracket false s'
        else c :: bracket true s'
      else
        if is_sign c then "["%char :: c :: bracket true s'
        else c :: bracket false s'
  end.

(** Number of segments that the pass opens. *)
Fixpoint segments (inside : bool) (s : String) : nat :=
  match s with
  | [] => O
  | c :: s' =>
      if inside then
        if is_upper c then segments false s' else segments true s'
      else
        if is_sign c then S (segments true s') else segments false s'
  end.

Definition count (c : ascii) (s : String) : nat := count_occ ascii_dec s c.

(** Number of signs in a string. *)
Definition signs (s : String) : nat := List.length (filter is_sign s).

(** A string without its brackets. *)
Definition unbracket (s : String) : String :=
  filter (fun c => negb (mem c "[]")) s.

(** Every [[] of [s] has a sign right after it. *)
Fixpoint opens_at_signs (s : String) : bool :=
  match s with
  | [] => true
  | c :: s' =>
      (if Ascii.eqb c "[" then
         match s' with
         | d :: _ => is_sign d
         | [] => false
         end
       else true) && opens_at_signs s'
  end.

(** ** The collaborators at their simplest, to run the conversion *)

(** Modelled from the spec: [String::toInt] of the OpenMS library, whose
    definition is not among the sources; a string that is an integer in
    decimal notation gives that integer, any other string is an error. *)
Definition digit (c : ascii) : option Z :=
  let n := Z.of_N (N_of_ascii c) in
  if (48 <=? n) && (n <=? 57) then Some (n - 48) else None.

Fixpoint digits (acc : Z) (s : String) : option Z :=
  match s with
  | [] => Some acc
  | c :: s' =>
      match digit c with
      | Some d => digits (10 * acc + d) s'
      | None => None
      end
  end.

Definition parse_int (s : String) : option Z :=
  match s with
  | [] => None
  | c :: s' =>
      if Ascii.eqb c "-"
      then match s' with
           | [] => None
           | _ :: _ => option_map Z.opp (digits 0 s')
           end
      else digits 0 s
  end.

(** Numbers with a fraction and sequences are kept as their text. *)
Definition text_less (a b : String) : bool :=
  match String_compare a b with Lt => true | _ => false end.

Definition sample_ingest_row :=
  @ingest_row String String (fun x => x) String (list_eq_dec ascii_dec)
    (@Some String) parse_int (@Some String).

Definition sample_main_ :=
  @main_ String String (fun x => x) (fun x => x) String
    (list_eq_dec ascii_dec) (@Some String) parse_int (@Some String) text_less.

(** A row of the table with the columns that the conversion reads. *)
Definition sample_elements (title scan charge_ seq acc score_ : string)
  : list String :=
  [ "in.mzML" : String; title : String; scan : String; "HCD" : String;
    "500.1" : String; "0" : String; "0.1" : String; charge_ : String;
    seq : String; acc : String; "50" : String; "60" : String;
    score_ : String; "0.01" : String; "0.01" : String ].

Definition sample_row (title scan charge_ seq acc score_ : string)
  : option (list String) :=
  Some (sample_elements title scan charge_ seq acc score_).

Definition sample_header : option (list String) :=
  Some [ "#SpecFile" : String; "SpecID" : String; "ScanNum" : String ].

Definition sample_spectrum (id rt mz : string) : @MSSpectrum String :=
  mkMSSpectrum (id : String) (rt : String) [mz : String].

Definition sample_exp : list (@MSSpectrum String) :=
  [ sample_spectrum "controllerType=0 controllerNumber=1 scan=1" "10.5" "500.1";
    sample_spectrum "controllerType=0 controllerNumber=1 scan=2" "11.5" "600.2";
    sample_spectrum "controllerType=0 controllerNumber=1 scan=3" "12.5" "700.3" ].

Definition title1 : string := "controllerType=0 controllerNumber=1 scan=1".
Definition title2 : string := "controllerType=0 controllerNumber=1 scan=2".
Definition title3 : string := "controllerType=0 controllerNumber=1 scan=3".

(** Scan 2 before scan 1, and two proteins for the peptide of scan 1. *)
Definition sample_table : list (option (list String)) :=
  [ sample_header;
    sample_row title2 "2" "2" "R.AAAK.L" "P3" "1e-7";
    sample_row title1 "" "2" "K.PEPTM+15.999IDE.R" "P2" "1e-5";
    sample_row title1 "-1" "2" "K.PEPTM+15.999IDE.R" "P1" "1e-5" ].

(** The first row of scan 1 carries another peptide than the two after it. *)
Definition dropped_table : list (option (list String)) :=
  [ sample_header;
    sample_row title1 "1" "2" "K.AAAK.R" "P0" "1e-9";
    sample_row title1 "1" "2" "K.PEPTIDE.R" "P1" "1e-5";
    sample_row title1 "1" "2" "K.PEPTIDE.R" "P2" "1e-5" ].

(** A row for a spectrum that the experiment does not hold. *)
Definition missing_table : list (option (list String)) :=
  [ sample_header;
    sample_row "controllerType=0 controllerNumber=1 scan=7" "7" "2"
      "K.PEPTIDE.R" "P1" "1e-5" ].

(** The numbers of a list in the order in which each is first met. *)
Fixpoint first_appearance (seen l : list Z) : list Z :=
  match l with
  | [] => []
  | n :: l' =>
      if existsb (Z.eqb n) seen then first_appearance seen l'
      else n :: first_appearance (n :: seen) l'
  end.

(** The scan numbers of the rows of a table, row after row. *)
Definition scan_numbers (toInt : String -> option Z)
  (rows : list (option (list String))) : list Z :=
  flat_map (fun row =>
              match row with
              | Some elements =>
                  match row_scanNumber toInt elements with
                  | Ok n => [n]
                  | Fail _ => []
                  end
              | None => []
              end) rows.
From Stdlib Require Import Permutation.

(** ** Further notions for the properties of the conversion *)

(** A string of capital letters only: the residues of a peptide. *)
Definition residues (s : String) : Prop := forallb is_upper s = true.

Section IndexNotions.
Context {double float : Type}.
Variable to_float : double -> float.

(** A spectrum that [generateInputfileMapping] can take in: it has no native
    id, and is passed over, or it has a precursor. *)
Definition usable (it : @MSSpectrum double) : bool :=
  String_eqb (getNativeID it) [] ||
  match getPrecursors it with [] => false | _ :: _ => true end.

(** The retention times and precursor m/z of the spectra with the native id
    [id], spectrum after spectrum. *)
Definition index_entry (exp : list (@MSSpectrum double)) (id : String)
  : list float :=
  flat_map (fun it =>
              if String_eqb (getNativeID it) id
              then match getPrecursors it with
                   | mz :: _ => [to_float (getRT it); to_float mz]
                   | [] => []
                   end
              else []) exp.
End IndexNotions.

Section RowNotions.
Context {double float AASequence : Type}.

(** Every protein that a hit names is in the set of the accessions. *)
Definition accessions_known (st : @state double float AASequence) : Prop :=
  forall n pep h a,
    lookup Z.compare (peptide_identifications st) n = Some pep ->
    In h (hits pep) ->
    In a (protein_accessions h) -> In a (keys (prot_accessions st)).
End RowNotions.

(** Lines 335-347 of [main_]: the name of the file that MS-GF+ is told to
    write, and whether that file is to be renamed to the name asked for when
    all is done (lines 571-574). *)
Definition mzid_output_filename (temp_directory : String)
  (msgfplus_output_filename_ori : String) : outcome (String * bool) :=
  let msgfplus_output_filename := msgfplus_output_filename_ori in
  if String_eqb msgfplus_output_filename []
  then Ok (temp_directory ++ "msgfplus_output_file.mzid", false)
  else
    sfx <- suffix msgfplus_output_filename "."%char ;;
    if negb (String_eqb sfx "mzid")
    then Ok (msgfplus_output_filename ++ ".mzid", true)
    else Ok (msgfplus_output_filename, false).

(** ** More of the sample run *)

(** The index of the sample experiment. *)
Definition sample_index : @RTMapping String :=
  match generateInputfileMapping (fun x : String => x) "in.mzML" sample_exp [] with
  | Ok m => m
  | Fail _ => []
  end.

Definition sample_state : @state String String String :=
  mkState sample_index [] [].

(** The state after the first row of scan 1. *)
Definition sample_state_1 : @state String String String :=
  match sample_ingest_row "MS-GF+_2014" sample_state
          (sample_row title1 "" "2" "K.PEPTM+15.999IDE.R" "P2" "1e-5") with
  | Ok st => st
  | Fail _ => sample_state
  end.

(** What the sample table stores for scan 1. *)
Definition sample_hit_1 : @PeptideHit String String :=
  mkPeptideHit (list_ascii_of_string "1e-5") 0 2
    (list_ascii_of_string "PEPTM[+15.999]IDE")
    [list_ascii_of_string "P2"; list_ascii_of_string "P1"].

Definition sample_pep_1 : @PeptideIdentification String String :=
  mkPeptideIdentification (Some (list_ascii_of_string "10.5"))
    (Some (list_ascii_of_string "500.1")) (Some 1)
    (list_ascii_of_string "SpecEValue") false
    (list_ascii_of_string "MS-GF+_2014") [sample_hit_1].

(** The rows of the sample table in another order, one of them twice. *)
Definition shuffled_table : list (option (list String)) :=
  [ sample_header;
    sample_row title1 "" "2" "K.PEPTM+15.999IDE.R" "P2" "1e-5";
    sample_row title1 "-1" "2" "K.PEPTM+15.999IDE.R" "P1" "1e-5";
    sample_row title2 "2" "2" "R.AAAK.L" "P3" "1e-7";
    sample_row title1 "" "2" "K.PEPTM+15.999IDE.R" "P2" "1e-5" ].

(** A mass shift without its sign: digits with a decimal point or comma. *)
Definition numeral (s : String) : Prop :=
  forallb (fun c => mem c "0123456789.,") s = true.
(** * Properties *)

Lemma bind_Ok_inv {A B : Type} (m : outcome A) (k : A -> outcome B) (b : B) :
  bind m k = Ok b -> exists a, m = Ok a /\ k a = Ok b.
Proof.
  destruct m as [a|f]; simpl; intros H; [eauto | discriminate].
Qed.

(** ** Searching in a string *)

Lemma index_where_None (p : ascii -> bool) (s : String) :
  index_where p s = None <-> (forall c, In c s -> p c = false).
Proof.
  induction s as [|a s IH]; simpl.
  - split; [intros _ c [] | reflexivity].
  - destruct (p a) eqn:Ha.
    + split; [discriminate | intros H].
      rewrite (H a) in Ha by auto. discriminate.
    + destruct (index_where p s) as [i|]; simpl.
      * split; [discriminate | intros H].
        assert (Some i = None) by (apply IH; auto). discriminate.
      * split; [intros _ c [<-|Hc]; [assumption | now apply IH] | reflexivity].
Qed.

Lemma index_where_Some (p : ascii -> bool) (s : String) (i : nat) :
  index_where p s = Some i ->
  exists l1 c l2,
    s = l1 ++ c :: l2 /\ List.length l1 = i /\ p c = true /\
    (forall x, In x l1 -> p x = false).
Proof.
  revert i. induction s as [|a s IH]; simpl; intros i H; [discriminate|].
  destruct (p a) eqn:Ha.
  - injection H as <-. exists [], a, s. repeat split; auto. intros x [].
  - destruct (index_where p s) as [j|]; simpl in H; [|discriminate].
    injection H as <-.
    destruct (IH j eq_refl) as (l1 & c & l2 & -> & <- & Hc & Hl1).
    exists (a :: l1), c, l2. repeat split; auto.
    intros x [<-|Hx]; auto.
Qed.

Lemma index_where_app (p : ascii -> bool) (l1 l2 : String) :
  (forall x, In x l1 -> p x = false) ->
  index_where p (l1 ++ l2) =
  option_map (Nat.add (List.length l1)) (index_where p l2).
Proof.
  induction l1 as [|a l1 IH]; simpl; intros H.
  - destruct (index_where p l2); reflexivity.
  - rewrite (H a) by auto. rewrite IH by auto.
    destruct (index_where p l2); reflexivity.
Qed.

Lemma index_where_hit (p : ascii -> bool) (l1 l2 : String) (c : ascii) :
  (forall x, In x l1 -> p x = false) -> p c = true ->
  index_where p (l1 ++ c :: l2) = Some (List.length l1).
Proof.
  intros H Hc. rewrite index_where_app by assumption.
  simpl. rewrite Hc. simpl. f_equal. lia.
Qed.

Lemma size_app (a b : String) : size (a ++ b) = size a + size b.
Proof. unfold size. rewrite length_app. lia. Qed.

Lemma size_nonneg (s : String) : 0 <= size s.
Proof. unfold size. lia. Qed.

Lemma to_nat_size (s : String) : Z.to_nat (size s) = List.length s.
Proof. unfold size. lia. Qed.

Lemma skipn_size_app (pre suf : String) :
  skipn (Z.to_nat (size pre)) (pre ++ suf) = suf.
Proof.
  rewrite to_nat_size, skipn_app, skipn_all, Nat.sub_diag. reflexivity.
Qed.

Lemma firstn_size_app (pre suf : String) :
  firstn (Z.to_nat (size pre)) (pre ++ suf) = pre.
Proof.
  rewrite to_nat_size, firstn_app, firstn_all, Nat.sub_diag, app_nil_r.
  reflexivity.
Qed.

(** Searching from the end of a prefix looks at the rest only. *)
Lemma find_first_of_app (pre suf chars : String) :
  find_first_of (pre ++ suf) chars (size pre) =
  match index_where (fun c => mem c chars) suf with
  | Some i => size pre + Z.of_nat i
  | None => npos
  end.
Proof.
  unfold find_first_of. rewrite size_app.
  destruct (Z.leb_spec (size pre + size suf) (size pre)) as [H|H].
  - destruct suf; [reflexivity|].
    unfold size in H. simpl List.length in H. lia.
  - rewrite skipn_size_app. reflexivity.
Qed.

Lemma find_first_of_0 (s chars : String) :
  find_first_of s chars 0 =
  match index_where (fun c => mem c chars) s with
  | Some i => Z.of_nat i
  | None => npos
  end.
Proof.
  change s with ([] ++ s) at 1. change 0 with (size []) at 1.
  rewrite find_first_of_app.
  destruct (index_where _ s); reflexivity.
Qed.

Lemma mem_false (c : ascii) (chars : String) :
  mem c chars = false <-> ~ In c chars.
Proof.
  unfold mem. split.
  - intros H Hin.
    assert (existsb (Ascii.eqb c) chars = true).
    { apply existsb_exists. exists c. split; [assumption | apply Ascii.eqb_refl]. }
    congruence.
  - intros H. destruct (existsb (Ascii.eqb c) chars) eqn:E; [|reflexivity].
    apply existsb_exists in E as (x & Hx & Heq).
    apply Ascii.eqb_eq in Heq. subst x. contradiction.
Qed.

Lemma mem_true (c : ascii) (chars : String) :
  mem c chars = true <-> In c chars.
Proof.
  unfold mem. rewrite existsb_exists. split.
  - intros (x & Hx & Heq). apply Ascii.eqb_eq in Heq. now subst x.
  - intros H. exists c. split; [assumption | apply Ascii.eqb_refl].
Qed.

Lemma free_of_In (chars s : String) :
  free_of chars s <-> (forall c, In c s -> mem c chars = false).
Proof.
  unfold free_of. rewrite forallb_forall. split; intros H c Hc.
  - apply negb_true_iff. now apply H.
  - apply negb_true_iff. now apply H.
Qed.

Lemma free_of_app (chars a b : String) :
  free_of chars (a ++ b) <-> free_of chars a /\ free_of chars b.
Proof.
  unfold free_of. rewrite forallb_app. apply andb_true_iff.
Qed.

Lemma free_of_weaken (chars chars' s : String) :
  incl chars' chars -> free_of chars s -> free_of chars' s.
Proof.
  intros Hi H. apply free_of_In. intros c Hc. apply mem_false. intros Hin.
  apply Hi in Hin. apply mem_true in Hin.
  rewrite (proj1 (free_of_In chars s) H c Hc) in Hin. discriminate.
Qed.

Lemma free_of_index (chars s : String) :
  free_of chars s -> index_where (fun c => mem c chars) s = None.
Proof.
  intros H. apply index_where_None. now apply free_of_In.
Qed.

Lemma find_first_of_free (s chars : String) (pos : size_t) :
  free_of chars s -> find_first_of s chars pos = npos.
Proof.
  intros H. unfold find_first_of.
  destruct (size s <=? pos); [reflexivity|].
  replace (index_where _ _) with (@None nat); [reflexivity|].
  symmetry. apply index_where_None. intros c Hc.
  apply (proj1 (free_of_In chars s) H).
  rewrite <- (firstn_skipn (Z.to_nat pos) s). apply in_or_app. now right.
Qed.

Lemma find_last_of_free (s chars : String) :
  free_of chars s -> find_last_of s chars = npos.
Proof.
  intros H. unfold find_last_of.
  replace (index_where _ _) with (@None nat); [reflexivity|].
  symmetry. apply index_where_None. intros c Hc.
  apply (proj1 (free_of_In chars s) H). now apply in_rev.
Qed.

Lemma find_offset_absent (pat s : String) (p : ascii) (pat' : String) :
  pat = p :: pat' -> ~ In p s -> find_offset pat s = None.
Proof.
  intros -> H. induction s as [|a s IH]; [reflexivity|].
  simpl. destruct (Ascii.eqb_spec p a) as [->|_].
  - exfalso. apply H. now left.
  - simpl. rewrite IH; [reflexivity|]. intros Hin. apply H. now right.
Qed.

Lemma find_absent (s pat : String) (p : ascii) (pat' : String) :
  pat = p :: pat' -> ~ In p s -> find s pat = npos.
Proof.
  intros Hp H. unfold find. now rewrite (find_offset_absent pat s p pat' Hp H).
Qed.

Lemma free_of_not_In (chars s : String) (c : ascii) :
  free_of chars s -> In c chars -> ~ In c s.
Proof.
  intros H Hc Hs. apply mem_true in Hc.
  rewrite (proj1 (free_of_In chars s) H c Hs) in Hc. discriminate.
Qed.

(** ** The passes on a sequence without signs and separators *)

Lemma cutSequence_no_dot (s : String) :
  free_of "." s -> cutSequence s = Ok s.
Proof.
  intros H. unfold cutSequence.
  rewrite (find_first_of_free s "." 0 H). reflexivity.
Qed.

Lemma fixDecimalSeparator_no_separator (s : String) :
  free_of ".," s -> fixDecimalSeparator s = Ok s.
Proof.
  intros H. unfold fixDecimalSeparator.
  rewrite (find_first_of_free s ".," 0 H).
  destruct (List.length s); reflexivity.
Qed.

Lemma modifyNTermAASpecificSequence_no_minus (s : String) :
  ~ In "-"%char s -> modifyNTermAASpecificSequence s = Ok s.
Proof.
  intros H. unfold modifyNTermAASpecificSequence, massShiftList.
  cbn [modifyNTermAASpecificSequence_for].
  rewrite (find_absent s "-18.011" "-"%char "18.011" eq_refl H).
  rewrite (find_absent s "-17.027" "-"%char "17.027" eq_refl H).
  reflexivity.
Qed.

Lemma modifySequence_no_sign (s : String) :
  free_of "+-" s -> modifySequence s = Ok s.
Proof.
  intros H. unfold modifySequence.
  rewrite (find_first_of_free s "+-" 0 H).
  destruct (List.length s); reflexivity.
Qed.

(** C9 (as amended): a sequence without [+], [-], [.] and [,] goes through
    [cutSequence], [fixDecimalSeparator], [modifyNTermAASpecificSequence] and
    [modifySequence] unchanged. *)
Theorem rewrite_sequence_plain (s : String) :
  free_of "+-.," s -> rewrite_sequence s = Ok s.
Proof.
  intros H. unfold rewrite_sequence.
  assert (incl_of : forall chars, (forall c, In c chars -> In c (list_ascii_of_string "+-.,")) ->
                            free_of chars s).
  { intros chars Hi. exact (free_of_weaken _ chars s Hi H). }
  rewrite cutSequence_no_dot by (apply incl_of; simpl; tauto). simpl.
  rewrite fixDecimalSeparator_no_separator by (apply incl_of; simpl; tauto). simpl.
  rewrite modifyNTermAASpecificSequence_no_minus
    by (apply (free_of_not_In _ _ _ H); simpl; tauto). simpl.
  apply modifySequence_no_sign. apply incl_of; simpl; tauto.
Qed.

Lemma rewrite_sequence_plain_witness :
  rewrite_sequence "PEPTIDE" = Ok (list_ascii_of_string "PEPTIDE").
Proof.
  apply (rewrite_sequence_plain "PEPTIDE"). reflexivity.
Defined.

(** C9 (as stated) fails: a comma is neither a sign nor a [.], and
    [fixDecimalSeparator] turns it into a [.]. *)
Lemma rewrite_sequence_comma_changed :
  ~ (forall s : String, free_of "+-." s -> rewrite_sequence s = Ok s).
Proof.
  intros H. specialize (H "A,B" eq_refl). vm_compute in H. discriminate.
Qed.

(** ** [cutSequence] *)

Lemma mem_dot (c : ascii) : mem c "." = true <-> c = "."%char.
Proof.
  rewrite mem_true. simpl. split; [intros [H|[]]; now subst | intros ->; now left].
Qed.

Lemma dots_free (s : String) : free_of "." s <-> dots s = O.
Proof.
  unfold dots. rewrite free_of_In. split.
  - intros H. apply count_occ_not_In. intros Hin.
    specialize (H _ Hin). now rewrite (proj2 (mem_dot _) eq_refl) in H.
  - intros H c Hc. destruct (mem c ".") eqn:E; [|reflexivity].
    apply mem_dot in E. subst c.
    apply (count_occ_not_In ascii_dec) in H. contradiction.
Qed.

Lemma dots_app (a b : String) : dots (a ++ b) = (dots a + dots b)%nat.
Proof. apply count_occ_app. Qed.

Lemma dots_cons_dot (s : String) : dots ("."%char :: s) = S (dots s).
Proof. unfold dots. simpl. destruct (ascii_dec "." "."); congruence. Qed.

(** The last occurrence, seen from the front. *)
Lemma find_last_of_split (s chars : String) :
  (find_last_of s chars = npos /\ free_of chars s) \/
  (exists l1 c l2,
      s = l1 ++ c :: l2 /\ find_last_of s chars = size l1 /\
      mem c chars = true /\ free_of chars l2).
Proof.
  unfold find_last_of.
  destruct (index_where (fun c => mem c chars) (rev s)) as [i|] eqn:E.
  - right. apply index_where_Some in E as (r1 & c & r2 & Hrev & Hlen & Hc & Hr1).
    exists (rev r2), c, (rev r1).
    assert (Hs : s = rev r2 ++ c :: rev r1).
    { rewrite <- (rev_involutive s), Hrev, rev_app_distr. simpl.
      now rewrite <- app_assoc. }
    repeat split; auto.
    + rewrite Hs at 1. unfold size. rewrite length_app. simpl.
      rewrite !length_rev. lia.
    + apply free_of_In. intros x Hx. apply Hr1. now apply in_rev.
  - left. split; [reflexivity|]. apply free_of_In. intros c Hc.
    apply (proj1 (index_where_None _ _) E). now apply in_rev in Hc.
Qed.

Lemma find_first_of_split (s chars : String) :
  (find_first_of s chars 0 = npos /\ free_of chars s) \/
  (exists l1 c l2,
      s = l1 ++ c :: l2 /\ find_first_of s chars 0 = size l1 /\
      mem c chars = true /\ free_of chars l1).
Proof.
  rewrite find_first_of_0.
  destruct (index_where (fun c => mem c chars) s) as [i|] eqn:E.
  - right. apply index_where_Some in E as (l1 & c & l2 & Hs & Hlen & Hc & Hl1).
    exists l1, c, l2. repeat split; auto.
    + unfold size. now rewrite Hlen.
    + now apply free_of_In.
  - left. split; [reflexivity|]. apply free_of_In.
    now apply index_where_None.
Qed.

Lemma find_last_of_hit (l1 l2 chars : String) (c : ascii) :
  mem c chars = true -> free_of chars l2 ->
  find_last_of (l1 ++ c :: l2) chars = size l1.
Proof.
  intros Hc Hl2. unfold find_last_of.
  replace (rev (l1 ++ c :: l2)) with (rev l2 ++ c :: rev l1)
    by (rewrite rev_app_distr; simpl; now rewrite <- app_assoc).
  rewrite index_where_hit; auto.
  - unfold size. rewrite length_app, length_rev. simpl. lia.
  - intros x Hx. apply (proj1 (free_of_In _ _) Hl2). now apply in_rev.
Qed.

(** How the two searches of [cutSequence] come out, by the number of [.]. *)
Lemma cutSequence_searches (s : String) :
  (dots s = O /\ find_first_of s "." 0 = npos /\ find_last_of s "." = npos) \/
  (dots s = 1%nat /\ find_first_of s "." 0 = find_last_of s "." /\
   0 <= find_last_of s "." < size s) \/
  ((2 <= dots s)%nat /\
   0 <= find_first_of s "." 0 < find_last_of s "." /\
   find_last_of s "." < size s).
Proof.
  destruct (find_first_of_split s ".") as [[Hf Hfree]|(a1 & c & a2 & Hs & Hf & Hc & Ha1)].
  - left. repeat split; auto.
    + now apply dots_free.
    + now apply find_last_of_free.
  - right. apply mem_dot in Hc. subst c.
    destruct (find_last_of_split a2 ".") as [[_ Hfree]|(m & c & b2 & Ha2 & _ & Hc & Hb2)].
    + left. rewrite Hf. subst s.
      rewrite find_last_of_hit by (auto; now apply mem_dot).
      rewrite dots_app, dots_cons_dot.
      rewrite (proj1 (dots_free a1) Ha1), (proj1 (dots_free a2) Hfree).
      repeat split; auto using size_nonneg.
      rewrite size_app. unfold size at 3. simpl List.length. lia.
    + right. apply mem_dot in Hc. subst c. rewrite Hf. subst s a2.
      replace (a1 ++ "."%char :: m ++ "."%char :: b2)
        with ((a1 ++ "."%char :: m) ++ "."%char :: b2)
        by (rewrite <- app_assoc; reflexivity).
      rewrite find_last_of_hit by (auto; now apply mem_dot).
      rewrite !dots_app, !dots_cons_dot.
      rewrite !size_app. unfold size. simpl List.length.
      repeat split; lia.
Qed.

Lemma wrap_small (z : Z) : 0 <= z < 2 ^ 64 -> wrap z = z.
Proof. intros H. unfold wrap. now apply Z.mod_small. Qed.

Lemma max_size_npos : max_size < npos.
Proof. reflexivity. Qed.

(** C3 (as amended): on a string with two [.], [cutSequence] returns the
    characters after the first [.], as many as the position of the last [.]
    less two (all of them when that wraps around); with the first [.] at
    position 1, the form [K.AAAA.R], this is all that lies strictly between
    the first and the last [.], and with the first [.] at position 0 it is one
    character less; a string with fewer than two [.] is returned unchanged. *)
Theorem cutSequence_cut (sequence : String) :
  size sequence < max_size ->
  let findFirst := find_first_of sequence "." 0 in
  let findLast := find_last_of sequence "." in
  ((2 <= dots sequence)%nat ->
     cutSequence sequence =
       Ok (if findLast <? 2 then skipn (Z.to_nat (findFirst + 1)) sequence
           else firstn (Z.to_nat (findLast - 2))
                  (skipn (Z.to_nat (findFirst + 1)) sequence)) /\
     (findFirst = 1 ->
        cutSequence sequence = Ok (between sequence findFirst findLast)) /\
     (findFirst = 0 -> 2 <= findLast ->
        cutSequence sequence =
          Ok (removelast (between sequence findFirst findLast)))) /\
  ((dots sequence < 2)%nat -> cutSequence sequence = Ok sequence).
Proof.
  intros Hsize findFirst findLast.
  pose proof max_size_npos as Hmax.
  assert (Hnpos : npos = 2 ^ 64 - 1) by reflexivity.
  destruct (cutSequence_searches sequence)
    as [(Hd & Hf & Hl)|[(Hd & Hfl & Hl)|(Hd & Hf & Hl)]];
    fold findFirst in Hf || fold findFirst in Hfl; fold findLast in Hl;
    try fold findLast in Hf; try fold findLast in Hfl.
  - split; [lia|]. intros _. unfold cutSequence. fold findFirst.
    rewrite Hf. reflexivity.
  - split; [lia|]. intros _. unfold cutSequence. fold findFirst findLast.
    rewrite Hfl, Z.eqb_refl, !andb_false_r. reflexivity.
  - split; [|lia]. intros _.
    assert (Hcut : cutSequence sequence =
                   substr sequence (wrap (findFirst + 1)) (wrap (findLast - 2))).
    { unfold cutSequence. fold findFirst findLast.
      replace (findFirst =? npos) with false by (symmetry; apply Z.eqb_neq; lia).
      replace (findLast =? npos) with false by (symmetry; apply Z.eqb_neq; lia).
      replace (findFirst =? findLast) with false by (symmetry; apply Z.eqb_neq; lia).
      reflexivity. }
    rewrite Hcut. unfold substr.
    rewrite (wrap_small (findFirst + 1)) by lia.
    replace (size sequence <? findFirst + 1) with false
      by (symmetry; apply Z.ltb_ge; lia).
    assert (Hlen : List.length (skipn (Z.to_nat (findFirst + 1)) sequence)
                   = Z.to_nat (size sequence - (findFirst + 1))).
    { rewrite length_skipn. unfold size. lia. }
    destruct (Z.ltb_spec findLast 2) as [Hl2|Hl2].
    + (* the last [.] at position 1: [findLast - 2] wraps around *)
      assert (findLast = 1) by lia.
      replace (wrap (findLast - 2)) with npos by (subst findLast; now rewrite H).
      rewrite Z.min_r by lia.
      rewrite <- Hlen, firstn_all. split; [reflexivity|]. split; intros; lia.
    + rewrite (wrap_small (findLast - 2)) by lia.
      assert (Hmin : firstn (Z.to_nat (Z.min (findLast - 2)
                                         (size sequence - (findFirst + 1))))
                       (skipn (Z.to_nat (findFirst + 1)) sequence)
                     = firstn (Z.to_nat (findLast - 2))
                         (skipn (Z.to_nat (findFirst + 1)) sequence)).
      { destruct (Z.le_ge_cases (findLast - 2) (size sequence - (findFirst + 1))).
        - now rewrite Z.min_l.
        - rewrite Z.min_r by assumption.
          rewrite <- Hlen, firstn_all. symmetry. apply firstn_all2. lia. }
      rewrite Hmin. split; [reflexivity|]. split.
      * intros H1. unfold between. rewrite H1.
        replace (findLast - 1 - 1) with (findLast - 2) by lia. reflexivity.
      * intros H0 _. unfold between. rewrite H0. f_equal.
        replace (Z.to_nat (findLast - 0 - 1)) with (S (Z.to_nat (findLast - 2))) by lia.
        set (n := Z.to_nat (findLast - 2)).
        set (l := skipn (Z.to_nat (0 + 1)) sequence).
        assert (Hn : (S n <= List.length l)%nat).
        { unfold l, n. rewrite length_skipn. unfold size in *. lia. }
        clearbody n l. clear -Hn. revert l Hn.
        induction n as [|n IH]; intros [|a l] Hn; simpl in Hn; try lia.
        -- destruct l; reflexivity.
        -- change (firstn (S (S n)) (a :: l)) with (a :: firstn (S n) l).
           change (firstn (S n) (a :: l)) with (a :: firstn n l).
           rewrite (IH l) by lia.
           destruct l as [|b l]; [simpl in Hn; lia|]. reflexivity.
Qed.

Lemma cutSequence_cut_witness :
  cutSequence "K.AAAA.R" = Ok (between "K.AAAA.R" 1 6).
Proof.
  refine (proj1 (proj2 (proj1 (cutSequence_cut "K.AAAA.R" _) _)) _);
    vm_compute; (reflexivity || (intros H; discriminate H)).
Defined.

(** C3 (as stated) fails: for [K.AAAA.R] the method returns [AAAA], all four
    characters between the two [.], where the cut one character short is
    [AAA] and the positions from [first + 1] up to [last - 2] hold [AA]. *)
Lemma cutSequence_not_short :
  (2 <= dots "K.AAAA.R")%nat /\
  cutSequence "K.AAAA.R" = Ok (list_ascii_of_string "AAAA") /\
  cut_one_short "K.AAAA.R" = list_ascii_of_string "AAA" /\
  cut_half_open "K.AAAA.R" = list_ascii_of_string "AA" /\
  cutSequence "K.AAAA.R" <> Ok (cut_one_short "K.AAAA.R") /\
  cutSequence "K.AAAA.R" <> Ok (cut_half_open "K.AAAA.R").
Proof.
  repeat split; try (vm_compute; reflexivity); try (vm_compute; lia);
    vm_compute; discriminate.
Qed.

(** ** [fixDecimalSeparator] *)

Lemma set_at_middle (a b : String) (c x : ascii) :
  set_at (a ++ c :: b) (size a) x = Ok (a ++ x :: b).
Proof.
  unfold set_at. rewrite size_app. unfold size at 3. simpl List.length.
  replace (size a <? size a + Z.of_nat (S (List.length b))) with true
    by (symmetry; apply Z.ltb_lt; lia).
  rewrite firstn_size_app. f_equal. f_equal.
  change (S (Z.to_nat (size a))) with (1 + Z.to_nat (size a))%nat.
  rewrite <- skipn_skipn, skipn_size_app. reflexivity.
Qed.

Lemma decimal_point_plain (ns : String) :
  (forall x, In x ns -> mem x ".," = false) -> map decimal_point ns = ns.
Proof.
  induction ns as [|a ns IH]; intros H; [reflexivity|].
  cbn [map]. unfold decimal_point at 1. rewrite (H a) by now left.
  f_equal. apply IH. intros x Hx. apply H. now right.
Qed.

(** The loop, started behind a prefix that is done with, puts a [.] for
    every [.] and [,] of the rest. *)
Lemma fixDecimalSeparator_while_map (fuel : nat) : forall pre suf : String,
  (List.length suf <= fuel)%nat ->
  size pre + size suf < npos ->
  fixDecimalSeparator_while fuel (pre ++ suf)
    (find_first_of (pre ++ suf) ".," (size pre))
  = Ok (pre ++ map decimal_point suf).
Proof.
  induction fuel as [|fuel IH]; intros pre suf Hfuel Hbound.
  - destruct suf; [|simpl in Hfuel; lia].
    rewrite find_first_of_app. reflexivity.
  - rewrite find_first_of_app. pose proof (size_nonneg pre).
    destruct (index_where (fun c => mem c ".,") suf) as [i|] eqn:E.
    + apply index_where_Some in E as (ns & c & rest & -> & <- & Hc & Hns).
      assert (Hsz : size (ns ++ c :: rest) = size ns + 1 + size rest).
      { rewrite size_app. unfold size. simpl List.length. lia. }
      rewrite Hsz in Hbound.
      pose proof (size_nonneg ns). pose proof (size_nonneg rest).
      fold (size ns). rewrite <- size_app.
      cbn [fixDecimalSeparator_while].
      replace (size (pre ++ ns) =? npos) with false
        by (symmetry; apply Z.eqb_neq; rewrite size_app; lia).
      rewrite (app_assoc pre ns (c :: rest)), set_at_middle. cbn [bind].
      rewrite wrap_small by (rewrite size_app; unfold npos in *; lia).
      replace ((pre ++ ns) ++ "."%char :: rest)
        with (((pre ++ ns) ++ ["."%char]) ++ rest)
        by (now rewrite <- app_assoc).
      replace (size (pre ++ ns) + 1) with (size ((pre ++ ns) ++ ["."%char]))
        by (rewrite (size_app (pre ++ ns)); reflexivity).
      rewrite IH.
      * f_equal. rewrite map_app, (decimal_point_plain ns Hns). cbn [map].
        change (decimal_point c) with (if mem c ".," then "."%char else c).
        rewrite Hc.
        repeat (rewrite <- app_assoc; simpl). reflexivity.
      * rewrite length_app in Hfuel. simpl in Hfuel. lia.
      * rewrite !size_app. change (size ["."%char]) with 1. lia.
    + change (npos =? npos) with true.
      rewrite decimal_point_plain by now apply index_where_None.
      destruct fuel; reflexivity.
Qed.

(** [fixDecimalSeparator] never runs out of iterations and writes inside the
    string only. *)
Lemma fixDecimalSeparator_map (seq : String) :
  size seq < max_size -> fixDecimalSeparator seq = Ok (map decimal_point seq).
Proof.
  intros H. unfold fixDecimalSeparator.
  change seq with ([] ++ seq) at 2 3. change 0 with (size []).
  rewrite fixDecimalSeparator_while_map; [reflexivity|lia|].
  change (size []) with 0. unfold max_size, npos in *. lia.
Qed.

(** ** [modifyNTermAASpecificSequence] *)

Lemma starts_with_length (pat s : String) :
  starts_with pat s = true -> (List.length pat <= List.length s)%nat.
Proof.
  revert s. induction pat as [|p pat IH]; intros [|c s]; simpl;
    try lia; try discriminate.
  intros H. apply andb_true_iff in H as [_ H]. apply IH in H. lia.
Qed.

Lemma find_offset_bound (pat s : String) (i : nat) :
  find_offset pat s = Some i -> (i + List.length pat <= List.length s)%nat.
Proof.
  revert i. induction s as [|c s IH]; intros i.
  - cbn [find_offset]. destruct (starts_with pat []) eqn:E; [|discriminate].
    intros [= <-]. apply starts_with_length in E. simpl in *. lia.
  - cbn [find_offset]. destruct (starts_with pat (c :: s)) eqn:E.
    + intros [= <-]. apply starts_with_length in E. lia.
    + destruct (find_offset pat s) as [j|]; simpl; [|discriminate].
      intros [= <-]. specialize (IH j eq_refl). simpl. lia.
Qed.

Lemma find_bound (s pat : String) :
  find s pat = npos \/ (0 <= find s pat /\ find s pat + size pat <= size s).
Proof.
  unfold find. destruct (find_offset pat s) as [i|] eqn:E; [right|now left].
  apply find_offset_bound in E. unfold size. lia.
Qed.

Lemma index_where_firstn (p : ascii -> bool) (s : String) (j n : nat) :
  index_where p s = Some j -> (j < n)%nat ->
  index_where p (firstn n s) = Some j.
Proof.
  intros H Hj.
  apply index_where_Some in H as (l1 & c & l2 & -> & <- & Hc & Hl1).
  rewrite firstn_app.
  rewrite firstn_all2 by lia.
  replace (n - List.length l1)%nat with (S (n - List.length l1 - 1)) by lia.
  simpl. now apply index_where_hit.
Qed.

Lemma substr_prefix (a b : String) : substr (a ++ b) 0 (size a) = Ok a.
Proof.
  unfold substr. pose proof (size_nonneg (a ++ b)). pose proof (size_nonneg b).
  replace (size (a ++ b) <? 0) with false by (symmetry; apply Z.ltb_ge; lia).
  rewrite Z.min_l by (rewrite size_app; lia).
  cbn [Z.to_nat skipn]. now rewrite firstn_size_app.
Qed.

Lemma substr_suffix (a b : String) :
  size (a ++ b) < npos -> substr (a ++ b) (size a) npos = Ok b.
Proof.
  intros H. unfold substr. rewrite size_app in *.
  pose proof (size_nonneg a). pose proof (size_nonneg b).
  replace (size a + size b <? size a) with false by (symmetry; apply Z.ltb_ge; lia).
  rewrite skipn_size_app, Z.min_r by lia.
  replace (size a + size b - size a) with (size b) by lia.
  now rewrite to_nat_size, firstn_all.
Qed.

Lemma at_middle (a b : String) (c : ascii) : at_ (a ++ c :: b) (size a) = Ok c.
Proof.
  unfold at_. rewrite size_app. unfold size at 3. simpl List.length.
  replace (size a <? size a + Z.of_nat (S (List.length b))) with true
    by (symmetry; apply Z.ltb_lt; lia).
  rewrite to_nat_size, nth_error_app2, Nat.sub_diag by lia. reflexivity.
Qed.

Lemma rbegin_last (a : String) (c : ascii) : rbegin (a ++ [c]) = Ok c.
Proof. unfold rbegin. now rewrite rev_app_distr. Qed.

Section MassShift.
Variables (modMassShift : String) (aa : ascii) (iter : list (String * ascii)).
Variable seq : String.
Hypothesis seq_size : size seq < max_size.

(** A token that does not occur is passed over. *)
Lemma mass_shift_absent :
  find seq modMassShift = npos ->
  modifyNTermAASpecificSequence_for ((modMassShift, aa) :: iter) seq =
  modifyNTermAASpecificSequence_for iter seq.
Proof.
  intros H. cbn [modifyNTermAASpecificSequence_for]. now rewrite H.
Qed.

(** A token with a residue somewhere before it is passed over. *)
Lemma mass_shift_after_residue :
  find_first_of seq uppercase 0 < find seq modMassShift ->
  find seq modMassShift <> npos ->
  modifyNTermAASpecificSequence_for ((modMassShift, aa) :: iter) seq =
  modifyNTermAASpecificSequence_for iter seq.
Proof.
  intros Hlt Hfound. cbn [modifyNTermAASpecificSequence_for].
  pose proof max_size_npos as Hmax.
  assert (Hnpos : npos = 2 ^ 64 - 1) by reflexivity.
  assert (Hms : max_size = 2 ^ 62) by reflexivity.
  destruct (find_bound seq modMassShift) as [?|[Hf0 Hf1]]; [contradiction|].
  set (found := find seq modMassShift) in *.
  replace (found =? npos) with false by (symmetry; apply Z.eqb_neq; lia).
  cbn [negb]. unfold substr.
  pose proof (size_nonneg seq). pose proof (size_nonneg modMassShift).
  replace (size seq <? 0) with false by (symmetry; apply Z.ltb_ge; lia).
  rewrite wrap_small by lia. cbn [bind skipn Z.to_nat].
  rewrite find_first_of_0 in Hlt.
  destruct (index_where (fun c => mem c uppercase) seq) as [j|] eqn:Ej; [|lia].
  rewrite find_first_of_0.
  rewrite (index_where_firstn _ seq j) by (assumption || lia).
  replace (found <? Z.of_nat j) with false by (symmetry; apply Z.ltb_ge; lia).
  reflexivity.
Qed.

(** A token without a residue before it and with its residue right after
    it: the residue moves in front of the token. *)
Lemma mass_shift_moved (pre rest : String) :
  seq = pre ++ modMassShift ++ aa :: rest ->
  find seq modMassShift = size pre ->
  free_of uppercase pre -> free_of uppercase modMassShift ->
  mem aa uppercase = true -> modMassShift <> [] ->
  modifyNTermAASpecificSequence_for ((modMassShift, aa) :: iter) seq =
  Ok (pre ++ aa :: modMassShift ++ rest).
Proof.
  intros Hseq Hfound Hpre Hm Haa Hne. cbn [modifyNTermAASpecificSequence_for].
  pose proof max_size_npos as Hmax.
  assert (Hnpos : npos = 2 ^ 64 - 1) by reflexivity.
  assert (Hms : max_size = 2 ^ 62) by reflexivity.
  pose proof (size_nonneg pre). pose proof (size_nonneg modMassShift).
  pose proof (size_nonneg rest).
  assert (Hsz : size seq = size pre + size modMassShift + 1 + size rest).
  { rewrite Hseq, !size_app. unfold size at 3. simpl List.length.
    fold (size rest). unfold size. lia. }
  assert (0 < size modMassShift).
  { destruct modMassShift; [contradiction|]. unfold size. simpl. lia. }
  rewrite Hfound.
  replace (size pre =? npos) with false by (symmetry; apply Z.eqb_neq; lia).
  cbn [negb]. rewrite wrap_small by lia.
  assert (Htmp : seq = ((pre ++ modMassShift) ++ [aa]) ++ rest).
  { rewrite Hseq, <- !app_assoc. reflexivity. }
  assert (Hst : size ((pre ++ modMassShift) ++ [aa])
                = size pre + size modMassShift + 1).
  { rewrite !size_app. change (size [aa]) with 1. lia. }
  rewrite <- Hst. rewrite Htmp at 1. rewrite substr_prefix. cbn [bind].
  rewrite find_first_of_0, index_where_hit; auto.
  2:{ apply free_of_In. apply free_of_app. now split. }
  fold (size (pre ++ modMassShift)).
  replace (size pre <? size (pre ++ modMassShift)) with true
    by (symmetry; apply Z.ltb_lt; rewrite size_app; lia).
  rewrite at_middle. cbn [bind]. rewrite Ascii.eqb_refl.
  assert (Hswap : (if 0 <? size pre then substr seq 0 (size pre) else Ok [])
                  = Ok pre).
  { destruct (Z.ltb_spec 0 (size pre)).
    - rewrite Hseq. apply substr_prefix.
    - destruct pre; [reflexivity|]. unfold size in *. simpl in *. lia. }
  rewrite Hswap. cbn [bind].
  rewrite rbegin_last. cbn [bind].
  rewrite Htmp at 1. rewrite substr_suffix.
  2:{ rewrite <- Htmp. lia. }
  cbn [bind]. simpl. reflexivity.
Qed.
End MassShift.

(** Where the first occurrence of a token stands. *)
Lemma starts_with_split (pat s : String) :
  starts_with pat s = true -> exists post, s = pat ++ post.
Proof.
  revert s. induction pat as [|p pat IH]; intros s H.
  - now exists s.
  - destruct s as [|c s]; [discriminate|]. cbn [starts_with] in H.
    apply andb_true_iff in H as [Hc H]. apply Ascii.eqb_eq in Hc. subst c.
    destruct (IH s H) as (post & ->). now exists post.
Qed.

Lemma find_offset_split (pat s : String) (i : nat) :
  find_offset pat s = Some i ->
  exists pre post, s = pre ++ pat ++ post /\ List.length pre = i.
Proof.
  revert i. induction s as [|c s IH]; intros i; cbn [find_offset].
  - destruct (starts_with pat []) eqn:E; [|discriminate].
    intros [= <-]. apply starts_with_split in E as (post & E).
    exists [], post. now split.
  - destruct (starts_with pat (c :: s)) eqn:E.
    + intros [= <-]. apply starts_with_split in E as (post & E).
      exists [], post. now split.
    + destruct (find_offset pat s) as [j|]; [|discriminate].
      intros [= <-]. destruct (IH j eq_refl) as (pre & post & -> & <-).
      exists (c :: pre), post. now split.
Qed.

Lemma find_split (s pat : String) :
  find s pat <> npos ->
  exists pre post, s = pre ++ pat ++ post /\ find s pat = size pre.
Proof.
  unfold find. destruct (find_offset pat s) as [i|] eqn:E; [|congruence].
  intros _. apply find_offset_split in E as (pre & post & -> & <-).
  now exists pre, post.
Qed.

Lemma starts_with_refl (pat post : String) : starts_with pat (pat ++ post) = true.
Proof.
  induction pat as [|p pat IH]; [reflexivity|].
  cbn [app starts_with]. now rewrite Ascii.eqb_refl, IH.
Qed.

Lemma find_prefix (pat post : String) : find (pat ++ post) pat = 0.
Proof.
  unfold find. destruct pat as [|p pat]; [now destruct post|].
  cbn [app find_offset].
  change (p :: pat ++ post) with ((p :: pat) ++ post).
  now rewrite starts_with_refl.
Qed.

Lemma index_where_app_l (p : ascii -> bool) (l1 l2 : String) (j : nat) :
  index_where p l1 = Some j -> index_where p (l1 ++ l2) = Some j.
Proof.
  intros H. apply index_where_Some in H as (a & c & b & -> & <- & Hc & Ha).
  rewrite <- app_assoc. cbn [app]. now apply index_where_hit.
Qed.

(** The string [tmp] of line 221. *)
Lemma mass_shift_tmp (modMassShift seq pre post : String) :
  size seq < max_size ->
  seq = pre ++ modMassShift ++ post ->
  substr seq 0 (wrap (size pre + size modMassShift + 1))
  = Ok (pre ++ modMassShift ++ firstn 1 post).
Proof.
  intros seq_size seq_split.
  pose proof max_size_npos as Hmax.
  assert (Hnpos : npos = 2 ^ 64 - 1) by reflexivity.
  assert (Hms : max_size = 2 ^ 62) by reflexivity.
  pose proof (size_nonneg pre). pose proof (size_nonneg modMassShift).
  pose proof (size_nonneg post).
  assert (Hsz : size seq = size pre + size modMassShift + size post)
    by (rewrite seq_split, !size_app; lia).
  rewrite wrap_small by lia.
  destruct post as [|c rest].
  - cbn [firstn]. rewrite app_nil_r.
    unfold substr. pose proof (size_nonneg seq).
    replace (size seq <? 0) with false by (symmetry; apply Z.ltb_ge; lia).
    cbn [Z.to_nat skipn]. rewrite Z.min_r by (change (size []) with 0 in Hsz; lia).
    rewrite Z.sub_0_r, to_nat_size, firstn_all, seq_split. now rewrite app_nil_r.
  - cbn [firstn].
    replace seq with ((pre ++ modMassShift ++ [c]) ++ rest)
      by (rewrite seq_split, <- !app_assoc; reflexivity).
    replace (size pre + size modMassShift + 1)
      with (size (pre ++ modMassShift ++ [c]))
      by (rewrite !size_app; change (size [c]) with 1; lia).
    apply substr_prefix.
Qed.

(** A token without a residue before it: what stands right after it
    decides. *)
Lemma mass_shift_bare (modMassShift : String) (aa : ascii)
  (iter : list (String * ascii)) (seq pre post : String) :
  size seq < max_size ->
  seq = pre ++ modMassShift ++ post ->
  find seq modMassShift = size pre ->
  free_of uppercase pre -> free_of uppercase modMassShift ->
  modMassShift <> [] ->
  modifyNTermAASpecificSequence_for ((modMassShift, aa) :: iter) seq =
  match post with
  | c :: rest =>
      if is_upper c
      then if Ascii.eqb c aa
           then Ok (pre ++ aa :: modMassShift ++ rest)
           else modifyNTermAASpecificSequence_for iter seq
      else Fail Undefined
  | [] => Fail Undefined
  end.
Proof.
  intros seq_size seq_split found_pre pre_bare shift_bare shift_nonempty.
  pose proof max_size_npos as Hmax.
  assert (Hnpos : npos = 2 ^ 64 - 1) by reflexivity.
  assert (Hms : max_size = 2 ^ 62) by reflexivity.
  pose proof (size_nonneg pre). pose proof (size_nonneg modMassShift).
  pose proof (size_nonneg post).
  assert (Hsz : size seq = size pre + size modMassShift + size post)
    by (rewrite seq_split, !size_app; lia).
  assert (0 < size modMassShift).
  { destruct modMassShift; [contradiction|]. unfold size. simpl. lia. }
  assert (Hbare : forall x, In x (pre ++ modMassShift) -> mem x uppercase = false).
  { apply free_of_In, free_of_app. now split. }
  pose proof (mass_shift_tmp modMassShift seq pre post seq_size seq_split) as Htmp.
  destruct post as [|c rest].
  - cbn [modifyNTermAASpecificSequence_for]. rewrite found_pre.
    replace (size pre =? npos) with false by (symmetry; apply Z.eqb_neq; lia).
    cbn [negb]. rewrite Htmp. cbn [bind firstn].
    rewrite app_nil_r, find_first_of_0.
    rewrite (proj2 (index_where_None _ _) Hbare).
    replace (size pre <? npos) with true by (symmetry; apply Z.ltb_lt; lia).
    unfold at_.
    replace (npos <? size (pre ++ modMassShift)) with false
      by (symmetry; apply Z.ltb_ge; rewrite size_app; lia).
    reflexivity.
  - destruct (is_upper c) eqn:Eup.
    + destruct (Ascii.eqb_spec c aa) as [->|Hne].
      * apply mass_shift_moved; auto.
      * cbn [modifyNTermAASpecificSequence_for]. rewrite found_pre.
        replace (size pre =? npos) with false by (symmetry; apply Z.eqb_neq; lia).
        cbn [negb]. rewrite Htmp. cbn [bind firstn].
        rewrite app_assoc, find_first_of_0, index_where_hit by auto.
        fold (size (pre ++ modMassShift)).
        replace (size pre <? size (pre ++ modMassShift)) with true
          by (symmetry; apply Z.ltb_lt; rewrite size_app; lia).
        rewrite at_middle. cbn [bind].
        destruct (Ascii.eqb_spec c aa); [contradiction|reflexivity].
    + cbn [modifyNTermAASpecificSequence_for]. rewrite found_pre.
      replace (size pre =? npos) with false by (symmetry; apply Z.eqb_neq; lia).
      cbn [negb]. rewrite Htmp. cbn [bind firstn].
      rewrite find_first_of_0.
      assert (Hnone : index_where (fun x => mem x uppercase)
                        (pre ++ modMassShift ++ [c]) = None).
      { apply index_where_None. intros x Hx. rewrite app_assoc in Hx.
        apply in_app_iff in Hx as [Hx|[<-|[]]]; auto. }
      rewrite Hnone.
      replace (size pre <? npos) with true by (symmetry; apply Z.ltb_lt; lia).
      unfold at_.
      replace (npos <? size (pre ++ modMassShift ++ [c])) with false
        by (symmetry; apply Z.ltb_ge; rewrite !size_app;
            change (size [c]) with 1; lia).
      reflexivity.
Qed.

Lemma massShiftList_bare (m : String) (aa : ascii) :
  In (m, aa) massShiftList -> free_of uppercase m /\ m <> [].
Proof.
  intros [[= <- <-]|[[= <- <-]|[]]]; split; (reflexivity || discriminate).
Qed.






(** ** [modifySequence] *)

Lemma insert_app (pre suf t : String) :
  insert (pre ++ suf) (size pre) t = Ok (pre ++ t ++ suf).
Proof.
  unfold insert. rewrite size_app. pose proof (size_nonneg suf).
  replace (size pre + size suf <? size pre) with false
    by (symmetry; apply Z.ltb_ge; lia).
  now rewrite firstn_size_app, skipn_size_app.
Qed.

Lemma sign_not_upper (c : ascii) : is_sign c = true -> is_upper c = false.
Proof.
  unfold is_sign. rewrite mem_true. simpl.
  intros [<-|[<-|[]]]; reflexivity.
Qed.

Lemma bracket_plain (ns l : String) :
  (forall x, In x ns -> is_sign x = false) ->
  bracket false (ns ++ l) = ns ++ bracket false l.
Proof.
  induction ns as [|a ns IH]; intros H; [reflexivity|].
  simpl. rewrite (H a) by now left. f_equal. apply IH. intros x Hx. apply H. now right.
Qed.

Lemma bracket_open (mid l : String) :
  (forall x, In x mid -> is_upper x = false) ->
  bracket true (mid ++ l) = mid ++ bracket true l.
Proof.
  induction mid as [|a mid IH]; intros H; [reflexivity|].
  simpl. rewrite (H a) by now left. f_equal. apply IH. intros x Hx. apply H. now right.
Qed.

(** The loop, started behind a prefix that is done with, brackets the rest. *)
Lemma modifySequence_while_bracket (fuel : nat) : forall pre suf : String,
  (List.length suf <= fuel)%nat ->
  size pre + 3 * size suf + 2 < npos ->
  modifySequence_while fuel (pre ++ suf)
    (find_first_of (pre ++ suf) "+-" (size pre))
  = Ok (pre ++ bracket false suf).
Proof.
  induction fuel as [|fuel IH]; intros pre suf Hfuel Hbound.
  - destruct suf; [|simpl in Hfuel; lia].
    rewrite find_first_of_app. simpl. reflexivity.
  - rewrite find_first_of_app.
    pose proof (size_nonneg pre) as Hpre0.
    destruct (index_where (fun c => mem c "+-") suf) as [i|] eqn:E.
    + apply index_where_Some in E as (ns & c & rest & -> & <- & Hc & Hns).
      fold (is_sign c) in Hc.
      assert (Hsz : size (ns ++ c :: rest) = size ns + 1 + size rest).
      { rewrite size_app. unfold size. simpl List.length. lia. }
      rewrite Hsz in Hbound.
      pose proof (size_nonneg ns). pose proof (size_nonneg rest).
      fold (size ns). rewrite <- size_app.
      cbn [modifySequence_while].
      replace (size (pre ++ ns) =? npos) with false
        by (symmetry; apply Z.eqb_neq; rewrite size_app; lia).
      rewrite (app_assoc pre ns (c :: rest)), insert_app. cbn [bind].
      rewrite find_first_of_app.
      rewrite (bracket_plain ns (c :: rest)) by exact Hns.
      cbn [bracket]. rewrite Hc.
      change (list_ascii_of_string "[" ++ c :: rest) with ("["%char :: c :: rest).
      cbn [index_where].
      change (mem "["%char uppercase) with false. cbv iota.
      fold (is_upper c). rewrite (sign_not_upper c Hc). cbv iota.
      destruct (index_where (fun c0 => mem c0 uppercase) rest) as [k|] eqn:Ek.
      * apply index_where_Some in Ek as (mid & u & rest' & -> & <- & Hu & Hmid).
        fold (is_upper u) in Hu.
        assert (Hsz' : size (mid ++ u :: rest') = size mid + 1 + size rest').
        { rewrite size_app. unfold size. simpl List.length. lia. }
        rewrite Hsz' in *.
        pose proof (size_nonneg mid). pose proof (size_nonneg rest').
        cbn [option_map].
        set (P := (pre ++ ns) ++ "["%char :: c :: mid).
        assert (HP : size P = size (pre ++ ns) + 2 + size mid).
        { unfold P. rewrite !size_app. unfold size. simpl List.length. lia. }
        replace (size (pre ++ ns) + Z.of_nat (S (S (List.length mid))))
          with (size P) by (rewrite HP; unfold size; lia).
        replace (size P =? npos) with false
          by (symmetry; apply Z.eqb_neq; rewrite HP, size_app; lia).
        cbn [negb].
        replace ((pre ++ ns) ++ "["%char :: c :: mid ++ u :: rest')
          with (P ++ u :: rest')
          by (unfold P; rewrite <- !app_assoc; reflexivity).
        rewrite insert_app. cbn [bind].
        rewrite wrap_small by (rewrite HP, size_app; unfold npos in *; lia).
        set (pre' := P ++ ["]"%char; u]).
        assert (Hpre' : size pre' = size P + 2).
        { unfold pre'. rewrite size_app. reflexivity. }
        rewrite <- Hpre'.
        replace (P ++ list_ascii_of_string "]" ++ u :: rest') with (pre' ++ rest')
          by (unfold pre'; rewrite <- app_assoc; reflexivity).
        rewrite IH.
        -- f_equal. rewrite (bracket_open mid (u :: rest')) by exact Hmid.
           cbn [bracket]. rewrite Hu. unfold pre', P.
           repeat (rewrite <- app_assoc; simpl). reflexivity.
        -- rewrite length_app in Hfuel. simpl in Hfuel.
           rewrite length_app in Hfuel. simpl in Hfuel. lia.
        -- rewrite Hpre', HP, size_app. lia.
      * cbn [option_map]. change (npos =? npos) with true. cbn [negb].
        f_equal.
        assert (Hrest : bracket true rest = rest ++ "]").
        { rewrite <- (app_nil_r rest) at 1. rewrite bracket_open; [reflexivity|].
          now apply index_where_None. }
        rewrite Hrest. rewrite <- !app_assoc. reflexivity.
    + change (npos =? npos) with true.
      assert (Hb : bracket false suf = suf).
      { rewrite <- (app_nil_r suf) at 1. rewrite bracket_plain.
        - simpl. apply app_nil_r.
        - now apply index_where_None. }
      rewrite Hb. simpl. reflexivity.
Qed.

(** [modifySequence] never runs out of iterations, raises nothing, and is the
    one-pass bracketing. *)
Lemma modifySequence_one_pass (seq : String) :
  size seq < max_size -> modifySequence seq = Ok (bracket false seq).
Proof.
  intros H. unfold modifySequence.
  change seq with ([] ++ seq) at 2 3. change 0 with (size []).
  rewrite modifySequence_while_bracket; [reflexivity|lia|].
  change (size []) with 0. unfold max_size, npos in *. lia.
Qed.

Lemma count_cons (c a : ascii) (s : String) :
  count c (a :: s) = ((if Ascii.eqb a c then 1 else 0) + count c s)%nat.
Proof.
  unfold count. simpl. destruct (ascii_dec a c) as [->|Hne].
  - now rewrite Ascii.eqb_refl.
  - destruct (Ascii.eqb_spec a c); [contradiction | reflexivity].
Qed.

Lemma bracket_count_open (s : String) : forall inside,
  count "[" (bracket inside s) = (count "[" s + segments inside s)%nat.
Proof.
  induction s as [|c s IH]; intros [|]; cbn [bracket segments]; try reflexivity.
  - destruct (is_upper c); rewrite !count_cons, IH; simpl; lia.
  - destruct (is_sign c); rewrite !count_cons, IH; simpl; lia.
Qed.

Lemma bracket_count_close (s : String) : forall inside,
  count "]" (bracket inside s)
  = (count "]" s + segments inside s + if inside then 1 else 0)%nat.
Proof.
  induction s as [|c s IH]; intros [|]; cbn [bracket segments]; try reflexivity.
  - destruct (is_upper c) eqn:E; rewrite !count_cons, IH; simpl; lia.
  - destruct (is_sign c); rewrite !count_cons, IH; simpl; lia.
Qed.

Lemma free_of_count (c : ascii) (chars s : String) :
  free_of chars s -> In c chars -> count c s = O.
Proof.
  intros H Hc. apply count_occ_not_In. now apply (free_of_not_In chars).
Qed.

Lemma unbracket_bracket (s : String) : forall inside,
  unbracket (bracket inside s) = unbracket s.
Proof.
  induction s as [|c s IH]; intros [|]; cbn [bracket]; try reflexivity.
  - destruct (is_upper c); cbn [unbracket filter];
      fold (unbracket (bracket false s)); fold (unbracket (bracket true s));
      fold (unbracket s); rewrite IH; reflexivity.
  - destruct (is_sign c); cbn [unbracket filter];
      fold (unbracket (bracket false s)); fold (unbracket (bracket true s));
      fold (unbracket s); rewrite IH; reflexivity.
Qed.

Lemma unbracket_free (s : String) : free_of "[]" s -> unbracket s = s.
Proof.
  unfold free_of, unbracket. induction s as [|c s IH]; [reflexivity|].
  cbn [forallb filter]. intros H. apply andb_true_iff in H as [Hc Hs].
  rewrite Hc. f_equal. now apply IH.
Qed.

Lemma opens_at_signs_bracket (s : String) : forall inside,
  free_of "[]" s -> opens_at_signs (bracket inside s) = true.
Proof.
  induction s as [|c s IH]; intros inside Hfree.
  - destruct inside; reflexivity.
  - assert (Hs : free_of "[]" s).
    { unfold free_of in *. simpl in Hfree. now apply andb_true_iff in Hfree. }
    assert (Hc : Ascii.eqb c "[" = false).
    { unfold free_of in Hfree. simpl in Hfree. apply andb_true_iff in Hfree as [Hc _].
      unfold mem in Hc. simpl in Hc. destruct (Ascii.eqb c "["); [discriminate|reflexivity]. }
    destruct inside; cbn [bracket].
    + destruct (is_upper c); cbn [opens_at_signs]; rewrite ?Hc, IH by assumption;
        reflexivity.
    + destruct (is_sign c) eqn:E; cbn [opens_at_signs]; rewrite ?Hc, ?E, IH by assumption;
        reflexivity.
Qed.

Lemma segments_le_signs (s : String) : forall inside,
  (segments inside s <= signs s)%nat.
Proof.
  unfold signs.
  induction s as [|c s IH]; intros inside; [destruct inside; simpl; lia|].
  pose proof (IH true) as IHt. pose proof (IH false) as IHf.
  destruct inside; cbn [segments filter];
    destruct (is_upper c), (is_sign c); simpl; lia.
Qed.

Lemma bracket_app (pre l : String) : forall inside,
  exists done inside', bracket inside (pre ++ l) = done ++ bracket inside' l.
Proof.
  induction pre as [|c pre IH]; intros inside.
  - exists [], inside. reflexivity.
  - destruct inside; cbn [app bracket].
    + destruct (is_upper c).
      * destruct (IH false) as (d & b & ->). now exists ("]"%char :: c :: d), b.
      * destruct (IH true) as (d & b & ->). now exists (c :: d), b.
    + destruct (is_sign c).
      * destruct (IH true) as (d & b & ->). now exists ("["%char :: c :: d), b.
      * destruct (IH false) as (d & b & ->). now exists (c :: d), b.
Qed.

(** The first segment: from the first sign to the next capital letter. *)
Lemma bracket_first_segment (ns : String) (c : ascii) (mid : String)
  (u : ascii) (rest : String) :
  free_of "+-" ns -> is_sign c = true -> free_of uppercase mid ->
  is_upper u = true ->
  bracket false (ns ++ c :: mid ++ u :: rest)
  = ns ++ "["%char :: c :: mid ++ "]"%char :: u :: bracket false rest.
Proof.
  intros Hns Hc Hmid Hu.
  rewrite bracket_plain by (now apply free_of_In).
  cbn [bracket]. rewrite Hc.
  rewrite bracket_open by (now apply free_of_In).
  cbn [bracket]. now rewrite Hu.
Qed.

(** The last segment: from a sign to the end, no capital letter behind. *)
Lemma bracket_last_segment (ns : String) (c : ascii) (mid : String) :
  free_of "+-" ns -> is_sign c = true -> free_of uppercase mid ->
  bracket false (ns ++ c :: mid) = ns ++ "["%char :: c :: mid ++ "]".
Proof.
  intros Hns Hc Hmid.
  rewrite bracket_plain by (now apply free_of_In).
  cbn [bracket]. rewrite Hc.
  rewrite <- (app_nil_r mid) at 1.
  rewrite bracket_open by (now apply free_of_In). reflexivity.
Qed.

(** C8 (as amended): on a string without brackets [modifySequence] returns
    a string with as many [[] as []], in which every [[] has a sign right
    after it and which is the input once the brackets are taken out again.
    The segments are these: a string without sign is returned as it is; the
    first sign opens a segment, which is closed right before the next
    capital letter behind that sign, and what stands behind that letter is
    treated in the same way; when no capital letter stands behind the sign,
    the segment is closed at the end of the string.  So a sign inside a
    segment that is open opens none, there are at most as many segments as
    signs, and when no capital letter follows some sign the result ends
    with []]. *)
Theorem modifySequence_brackets (seq : String) :
  size seq < max_size -> free_of "[]" seq ->
  exists out : String,
    modifySequence seq = Ok out /\
    count "[" out = count "]" out /\
    opens_at_signs out = true /\
    unbracket out = seq /\
    count "[" out = segments false seq /\
    (segments false seq <= signs seq)%nat /\
    (forall (pre : String) (c : ascii) (post : String),
        seq = pre ++ c :: post -> is_sign c = true -> free_of uppercase post ->
        exists out', out = out' ++ "]") /\
    (free_of "+-" seq -> out = seq) /\
    (forall (ns : String) (c : ascii) (mid : String) (u : ascii)
            (rest : String),
        seq = ns ++ c :: mid ++ u :: rest ->
        free_of "+-" ns -> is_sign c = true ->
        free_of uppercase mid -> is_upper u = true ->
        exists out' : String,
          modifySequence rest = Ok out' /\
          out = ns ++ "["%char :: c :: mid ++ "]"%char :: u :: out') /\
    (forall (ns : String) (c : ascii) (mid : String),
        seq = ns ++ c :: mid ->
        free_of "+-" ns -> is_sign c = true -> free_of uppercase mid ->
        out = ns ++ "["%char :: c :: mid ++ "]").
Proof.
  intros Hsize Hfree. exists (bracket false seq).
  assert (Ho : count "[" seq = O) by (apply (free_of_count _ "[]"); simpl; auto).
  assert (Hc : count "]" seq = O) by (apply (free_of_count _ "[]"); simpl; auto).
  split; [now apply modifySequence_one_pass|].
  split; [rewrite bracket_count_open, bracket_count_close, Ho, Hc; lia|].
  split; [now apply opens_at_signs_bracket|].
  split; [rewrite unbracket_bracket; now apply unbracket_free|].
  split; [rewrite bracket_count_open, Ho; reflexivity|].
  split; [apply segments_le_signs|].
  split; [|split; [|split]].
  - intros pre c post -> Hsign Hpost.
    destruct (bracket_app pre (c :: post) false) as (d & inside & ->).
    assert (Hrest : bracket true post = post ++ "]").
    { rewrite <- (app_nil_r post) at 1. rewrite bracket_open; [reflexivity|].
      now apply free_of_In. }
    destruct inside; cbn [bracket].
    + rewrite (sign_not_upper c Hsign), Hrest.
      exists (d ++ c :: post). now rewrite <- app_assoc.
    + rewrite Hsign, Hrest.
      exists (d ++ "["%char :: c :: post). now rewrite <- app_assoc.
  - intros Hplain. rewrite <- (app_nil_r seq) at 1.
    rewrite bracket_plain by (now apply free_of_In). apply app_nil_r.
  - intros ns c mid u rest Hseq Hns Hsign Hmid Hu.
    exists (bracket false rest). split.
    + apply modifySequence_one_pass.
      rewrite Hseq in Hsize. unfold size in *.
      rewrite length_app in Hsize. cbn [List.length] in Hsize.
      rewrite length_app in Hsize. cbn [List.length] in Hsize. lia.
    + rewrite Hseq. now apply bracket_first_segment.
  - intros ns c mid Hseq Hns Hsign Hmid.
    rewrite Hseq. now apply bracket_last_segment.
Qed.

Lemma modifySequence_brackets_witness :
  exists out : String,
    modifySequence "PEPTM+15.999IDE" = Ok out /\
    count "[" out = count "]" out /\
    opens_at_signs out = true /\
    unbracket out = list_ascii_of_string "PEPTM+15.999IDE" /\
    count "[" out = segments false "PEPTM+15.999IDE" /\
    (segments false "PEPTM+15.999IDE" <= signs "PEPTM+15.999IDE")%nat /\
    (forall (pre : String) (c : ascii) (post : String),
        list_ascii_of_string "PEPTM+15.999IDE" = pre ++ c :: post ->
        is_sign c = true -> free_of uppercase post ->
        exists out', out = out' ++ "]") /\
    (free_of "+-" "PEPTM+15.999IDE" ->
     out = list_ascii_of_string "PEPTM+15.999IDE") /\
    (forall (ns : String) (c : ascii) (mid : String) (u : ascii)
            (rest : String),
        list_ascii_of_string "PEPTM+15.999IDE" = ns ++ c :: mid ++ u :: rest ->
        free_of "+-" ns -> is_sign c = true ->
        free_of uppercase mid -> is_upper u = true ->
        exists out' : String,
          modifySequence rest = Ok out' /\
          out = ns ++ "["%char :: c :: mid ++ "]"%char :: u :: out') /\
    (forall (ns : String) (c : ascii) (mid : String),
        list_ascii_of_string "PEPTM+15.999IDE" = ns ++ c :: mid ->
        free_of "+-" ns -> is_sign c = true -> free_of uppercase mid ->
        out = ns ++ "["%char :: c :: mid ++ "]").
Proof.
  apply (modifySequence_brackets "PEPTM+15.999IDE"); reflexivity.
Defined.

(** C8 (as stated) fails: not every sign gives rise to a segment of its own;
    in [M+1-2K] the second sign stands in the segment that the first one
    opened, and the two signs are in one pair of brackets. *)
Lemma modifySequence_two_signs_one_segment :
  ~ (forall seq out : String,
        free_of "[]" seq -> modifySequence seq = Ok out ->
        count "[" out = signs seq).
Proof.
  intros H.
  specialize (H "M+1-2K" "M[+1-2]K" eq_refl eq_refl).
  vm_compute in H. discriminate.
Qed.

(** ** [std::map] *)

Section StdMapFacts.
Context {K V : Type}.
Variable cmp : K -> K -> comparison.
Hypothesis cmp_eq : forall a b, cmp a b = Eq <-> a = b.
Hypothesis cmp_antisym : forall a b, cmp b a = CompOpp (cmp a b).
Hypothesis cmp_trans :
  forall a b c, cmp a b = Lt -> cmp b c = Lt -> cmp a c = Lt.

Implicit Types (m : Map K V) (k : K) (v : V).

Lemma cmp_refl k : cmp k k = Eq.
Proof. now apply cmp_eq. Qed.

Lemma cmp_neq k k' : k <> k' -> cmp k k' <> Eq.
Proof. intros H E. now apply cmp_eq in E. Qed.

Lemma lookup_put_same m k v : lookup cmp (put cmp m k v) k = Some v.
Proof.
  induction m as [|[k' v'] m IH]; simpl.
  - now rewrite cmp_refl.
  - destruct (cmp k k') eqn:E; simpl; rewrite ?cmp_refl, ?E; auto.
Qed.

Lemma lookup_put_other m k v k' :
  k' <> k -> lookup cmp (put cmp m k v) k' = lookup cmp m k'.
Proof.
  intros Hne. assert (Hc : cmp k' k <> Eq) by now apply cmp_neq.
  induction m as [|[k0 v0] m IH]; simpl.
  - destruct (cmp k' k); congruence.
  - destruct (cmp k k0) eqn:E; simpl.
    + apply cmp_eq in E. subst k0. destruct (cmp k' k); congruence.
    + destruct (cmp k' k); congruence.
    + now rewrite IH.
Qed.

Lemma keys_put m k v x :
  In x (keys (put cmp m k v)) <-> x = k \/ In x (keys m).
Proof.
  unfold keys. induction m as [|[k0 v0] m IH]; simpl.
  - intuition.
  - destruct (cmp k k0) eqn:E; simpl.
    + apply cmp_eq in E. subst k0. intuition.
    + intuition.
    + rewrite IH. intuition.
Qed.

Lemma ordered_put m k v : ordered cmp m -> ordered cmp (put cmp m k v).
Proof.
  unfold ordered, keys. induction m as [|[k0 v0] m IH]; simpl; intros H.
  - repeat constructor.
  - inversion H as [|? ? Hs Hall]; subst.
    destruct (cmp k k0) eqn:E; simpl.
    + apply cmp_eq in E. subst k0. now constructor.
    + constructor; [assumption|]. constructor; [assumption|].
      eapply Forall_impl; [|exact Hall]. intros a Ha. simpl in Ha. eauto.
    + constructor; [now apply IH|].
      apply Forall_forall. intros x Hx.
      apply (keys_put m k v x) in Hx as [->|Hx].
      * rewrite cmp_antisym, E. reflexivity.
      * now apply (proj1 (Forall_forall _ _) Hall).
Qed.

Lemma lookup_keys m k : lookup cmp m k <> None <-> In k (keys m).
Proof.
  unfold keys. induction m as [|[k0 v0] m IH]; simpl.
  - intuition.
  - destruct (cmp k k0) eqn:E.
    + apply cmp_eq in E. subst. split; [auto | discriminate].
    + rewrite IH. split; [auto | intros [->|]; auto].
      rewrite cmp_refl in E. discriminate.
    + rewrite IH. split; [auto | intros [->|]; auto].
      rewrite cmp_refl in E. discriminate.
Qed.

Lemma lookup_In m k v : lookup cmp m k = Some v -> In (k, v) m.
Proof.
  induction m as [|[k0 v0] m IH]; simpl; [discriminate|].
  destruct (cmp k k0) eqn:E; auto.
  apply cmp_eq in E. subst. intros [= ->]. now left.
Qed.

Lemma cmp_irrefl k : cmp k k <> Lt.
Proof. rewrite cmp_refl. discriminate. Qed.

(** In an ordered map every entry is the one that its key finds. *)
Lemma In_lookup m k v : ordered cmp m -> In (k, v) m -> lookup cmp m k = Some v.
Proof.
  unfold ordered, keys. induction m as [|[k0 v0] m IH]; simpl; intros H Hin.
  - contradiction.
  - inversion H as [|? ? Hs Hall]; subst. destruct Hin as [[= -> ->]|Hin].
    + now rewrite cmp_refl.
    + destruct (cmp k k0) eqn:E; auto.
      apply cmp_eq in E. subst k0. exfalso.
      apply (cmp_irrefl k).
      apply (proj1 (Forall_forall _ _) Hall). now apply (in_map fst) in Hin.
Qed.

Lemma ordered_NoDup m : ordered cmp m -> NoDup (keys m).
Proof.
  unfold ordered. induction (keys m) as [|a l IH]; intros H; constructor;
    inversion H as [|? ? Hs Hall]; subst; auto.
  intros Hin. apply (cmp_irrefl a).
  now apply (proj1 (Forall_forall _ _) Hall).
Qed.

Lemma lookup_update_same m k (dflt : V) (f : V -> V) :
  lookup cmp (update cmp m k dflt f) k
  = Some (f (match lookup cmp m k with Some v => v | None => dflt end)).
Proof.
  unfold update, subscript. destruct (lookup cmp m k); apply lookup_put_same.
Qed.

Lemma lookup_update_other m k (dflt : V) (f : V -> V) k' :
  k' <> k -> lookup cmp (update cmp m k dflt f) k' = lookup cmp m k'.
Proof.
  intros H. unfold update, subscript.
  destruct (lookup cmp m k); rewrite !lookup_put_other; auto.
Qed.

Lemma keys_update m k (dflt : V) (f : V -> V) x :
  In x (keys (update cmp m k dflt f)) <-> x = k \/ In x (keys m).
Proof.
  unfold update, subscript.
  destruct (lookup cmp m k); rewrite !keys_put; intuition.
Qed.

Lemma ordered_update m k (dflt : V) (f : V -> V) :
  ordered cmp m -> ordered cmp (update cmp m k dflt f).
Proof.
  intros H. unfold update, subscript.
  destruct (lookup cmp m k); auto using ordered_put.
Qed.
End StdMapFacts.

Lemma Ascii_compare_eq (a b : ascii) : Ascii.compare a b = Eq <-> a = b.
Proof.
  split; [apply Ascii.compare_eq_iff|].
  intros ->. unfold Ascii.compare. apply N.compare_refl.
Qed.

Lemma Ascii_compare_antisym (a b : ascii) :
  Ascii.compare b a = CompOpp (Ascii.compare a b).
Proof. apply Ascii.compare_antisym. Qed.

Lemma Ascii_compare_trans (a b c : ascii) (r : comparison) :
  Ascii.compare a b = r -> Ascii.compare b c = r -> Ascii.compare a c = r.
Proof.
  unfold Ascii.compare. destruct r.
  - rewrite !N.compare_eq_iff. congruence.
  - rewrite !N.compare_lt_iff. lia.
  - rewrite !N.compare_gt_iff. lia.
Qed.

Lemma String_compare_eq (a b : String) : String_compare a b = Eq <-> a = b.
Proof. apply list_compare_refl, Ascii_compare_eq. Qed.

Lemma String_compare_antisym (a b : String) :
  String_compare b a = CompOpp (String_compare a b).
Proof.
  apply list_compare_antisym; [apply Ascii_compare_eq|].
  intros x y. apply Ascii_compare_antisym.
Qed.

Lemma String_compare_trans (a b c : String) :
  String_compare a b = Lt -> String_compare b c = Lt -> String_compare a c = Lt.
Proof.
  apply list_compare_trans.
  - apply Ascii_compare_eq.
  - intros x y z r. apply Ascii_compare_trans.
  - intros x y. apply Ascii_compare_antisym.
Qed.

Lemma Z_compare_eq (a b : Z) : Z.compare a b = Eq <-> a = b.
Proof. apply Z.compare_eq_iff. Qed.

Lemma Z_compare_antisym (a b : Z) : Z.compare b a = CompOpp (Z.compare a b).
Proof. apply Z.compare_antisym. Qed.

Lemma Z_compare_trans (a b c : Z) :
  Z.compare a b = Lt -> Z.compare b c = Lt -> Z.compare a c = Lt.
Proof. rewrite !Z.compare_lt_iff. lia. Qed.

(** The maps of the conversion: scan numbers and strings as keys. *)

Section ScanMap.
Context {V : Type}.
Implicit Types (m : Map Z V) (k : Z) (v : V).

Lemma scan_lookup_update_same m k (dflt : V) (f : V -> V) :
  lookup Z.compare (update Z.compare m k dflt f) k
  = Some (f (match lookup Z.compare m k with Some v => v | None => dflt end)).
Proof. apply lookup_update_same, Z_compare_eq. Qed.

Lemma scan_lookup_update_other m k (dflt : V) (f : V -> V) k' :
  k' <> k ->
  lookup Z.compare (update Z.compare m k dflt f) k' = lookup Z.compare m k'.
Proof. apply lookup_update_other, Z_compare_eq. Qed.

Lemma scan_keys_update m k (dflt : V) (f : V -> V) x :
  In x (keys (update Z.compare m k dflt f)) <-> x = k \/ In x (keys m).
Proof. apply keys_update, Z_compare_eq. Qed.

Lemma scan_ordered_update m k (dflt : V) (f : V -> V) :
  ordered Z.compare m -> ordered Z.compare (update Z.compare m k dflt f).
Proof.
  apply ordered_update;
    [apply Z_compare_eq | apply Z_compare_antisym | apply Z_compare_trans].
Qed.

Lemma scan_lookup_keys m k : lookup Z.compare m k <> None <-> In k (keys m).
Proof. apply lookup_keys, Z_compare_eq. Qed.

Lemma scan_lookup_In m k v : lookup Z.compare m k = Some v -> In (k, v) m.
Proof. apply lookup_In, Z_compare_eq. Qed.

Lemma scan_In_lookup m k v :
  ordered Z.compare m -> In (k, v) m -> lookup Z.compare m k = Some v.
Proof. apply In_lookup, Z_compare_eq. Qed.
End ScanMap.

(** ** The rows of the table *)

Section ConversionFacts.
Context {double float AASequence : Type}.
Variable to_float : double -> float.
Variable to_double : float -> double.
Variable AASequence_eq_dec : forall a b : AASequence, {a = b} + {a <> b}.
Variable fromString : String -> option AASequence.
Variable toInt : String -> option Z.
Variable toDouble : String -> option double.
Variable score_less : double -> double -> bool.
Variable identifier_ : String.

Local Abbreviation PeptideHit_ := (@PeptideHit double AASequence).
Local Abbreviation state_ := (@state double float AASequence).
Local Abbreviation scan_of := (row_scanNumber toInt).
Local Abbreviation sequence_of := (row_sequence fromString).
Local Abbreviation merge := (merge_accession AASequence_eq_dec).
Local Abbreviation ingest :=
  (ingest_row to_double AASequence_eq_dec fromString toInt toDouble identifier_).
Local Abbreviation ingest_all :=
  (ingest_rows to_double AASequence_eq_dec fromString toInt toDouble identifier_).
Local Abbreviation convert :=
  (main_ to_float to_double AASequence_eq_dec fromString toInt toDouble
     score_less identifier_).
Local Abbreviation ids := peptide_identifications.
Local Abbreviation zlookup := (lookup Z.compare).

Lemma vector_at_Ok {A : Type} (v : list A) (i : nat) (a : A) :
  vector_at v i = Ok a <-> nth_error v i = Some a.
Proof.
  unfold vector_at. destruct (nth_error v i); split; congruence.
Qed.

(** What a row that is taken in has done. *)
Lemma ingest_row_Ok (st : state_) (elements : list String) (st' : state_) :
  ingest st (Some elements) = Ok st' ->
  exists n q a,
    scan_of elements = Ok n /\
    sequence_of elements = Ok q /\
    nth_error elements 9 = Some a /\
    prot_accessions st' =
      (if negb (set_contains (prot_accessions st) a)
       then set_insert (prot_accessions st) a
       else prot_accessions st) /\
    (forall m, m <> n -> zlookup (ids st') m = zlookup (ids st) m) /\
    (forall x, In x (keys (ids st')) <-> x = n \/ In x (keys (ids st))) /\
    (ordered Z.compare (ids st) -> ordered Z.compare (ids st')) /\
    match zlookup (ids st) n with
    | None =>
        exists rt mz sc ch,
          zlookup (ids st') n =
          Some (mkPeptideIdentification (Some rt) (Some mz) (Some n)
                  "SpecEValue" false identifier_
                  [addProteinAccession (mkPeptideHit sc 0 ch q []) a])
    | Some pep =>
        zlookup (ids st') n =
        Some (setHits (map (merge q a) (hits pep)) pep)
    end.
Proof.
  unfold ingest_row.
  intros H.
  apply bind_Ok_inv in H as (n & Hn & H).
  apply bind_Ok_inv in H as (q & Hq & H).
  apply bind_Ok_inv in H as (a & Ha & H).
  exists n, q, a. apply vector_at_Ok in Ha.
  split; [assumption|]. split; [assumption|]. split; [assumption|].
  destruct (zlookup (ids st) n) as [pep|] eqn:Hlook.
  - injection H as <-. cbn [prot_accessions peptide_identifications].
    split; [reflexivity|].
    split; [intros m Hm; now apply scan_lookup_update_other|].
    split; [intros x; apply scan_keys_update|].
    split; [apply scan_ordered_update|].
    rewrite scan_lookup_update_same. now rewrite Hlook.
  - apply bind_Ok_inv in H as (e12 & _ & H).
    apply bind_Ok_inv in H as (sc & _ & H).
    apply bind_Ok_inv in H as (e7 & _ & H).
    apply bind_Ok_inv in H as (ch & _ & H).
    apply bind_Ok_inv in H as (spec_id & _ & H).
    destruct (subscript String_compare (rt_mapping st) spec_id []) as [v0 rt0].
    apply bind_Ok_inv in H as (rt & _ & H).
    destruct (subscript String_compare rt0 spec_id []) as [v1 rt1].
    apply bind_Ok_inv in H as (mz & _ & H).
    injection H as <-. cbn [prot_accessions peptide_identifications].
    split; [reflexivity|].
    split; [intros m Hm; now rewrite !scan_lookup_update_other|].
    split; [intros x; rewrite !scan_keys_update; tauto|].
    split; [intros Ho; now repeat apply scan_ordered_update|].
    exists (to_double rt), (to_double mz), sc, ch.
    rewrite !scan_lookup_update_same, Hlook. reflexivity.
Qed.

Lemma ingest_row_None (st st' : state_) : ingest st None <> Ok st'.
Proof. discriminate. Qed.

(** *** Hits and their accessions *)

Lemma addProteinAccession_sequence (h : PeptideHit_) (a : String) :
  sequence (addProteinAccession h a) = sequence h.
Proof.
  unfold addProteinAccession. now destruct (in_dec (list_eq_dec ascii_dec) a (protein_accessions h)).
Qed.

Lemma addProteinAccession_In (h : PeptideHit_) (a x : String) :
  In x (protein_accessions (addProteinAccession h a))
  <-> x = a \/ In x (protein_accessions h).
Proof.
  unfold addProteinAccession.
  destruct (in_dec (list_eq_dec ascii_dec) a (protein_accessions h)) as [Hin|Hout]; simpl.
  - split; [auto | intros [->|]; auto].
  - rewrite in_app_iff. simpl. intuition.
Qed.

Lemma addProteinAccession_NoDup (h : PeptideHit_) (a : String) :
  NoDup (protein_accessions h) ->
  NoDup (protein_accessions (addProteinAccession h a)).
Proof.
  intros H. unfold addProteinAccession.
  destruct (in_dec (list_eq_dec ascii_dec) a (protein_accessions h)) as [Hin|Hout]; simpl; auto.
  apply NoDup_app; auto.
  - repeat constructor. intros [].
  - intros x Hx [<-|[]]. contradiction.
Qed.

(** Adding an accession twice is adding it once. *)
Lemma addProteinAccession_idempotent (h : PeptideHit_) (a : String) :
  addProteinAccession (addProteinAccession h a) a = addProteinAccession h a.
Proof.
  unfold addProteinAccession at 1.
  destruct (in_dec (list_eq_dec ascii_dec) a
              (protein_accessions (addProteinAccession h a))) as [|Hout];
    [reflexivity|].
  exfalso. apply Hout. apply addProteinAccession_In. now left.
Qed.

Lemma merge_sequence (q : AASequence) (a : String) (h : PeptideHit_) :
  sequence (merge q a h) = sequence h.
Proof.
  unfold merge_accession. destruct (AASequence_eq_dec (sequence h) q); auto.
  apply addProteinAccession_sequence.
Qed.

Lemma merge_incl (q : AASequence) (a : String) (h : PeptideHit_) :
  incl (protein_accessions h) (protein_accessions (merge q a h)).
Proof.
  unfold merge_accession. destruct (AASequence_eq_dec (sequence h) q).
  - intros x Hx. apply addProteinAccession_In. now right.
  - apply incl_refl.
Qed.

Lemma merge_NoDup (q : AASequence) (a : String) (h : PeptideHit_) :
  NoDup (protein_accessions h) -> NoDup (protein_accessions (merge q a h)).
Proof.
  unfold merge_accession. destruct (AASequence_eq_dec (sequence h) q); auto.
  apply addProteinAccession_NoDup.
Qed.

Lemma merge_same_sequence (a : String) (h : PeptideHit_) :
  In a (protein_accessions (merge (sequence h) a h)).
Proof.
  unfold merge_accession.
  destruct (AASequence_eq_dec (sequence h) (sequence h)); [|contradiction].
  apply addProteinAccession_In. now left.
Qed.

Lemma merge_cases (q : AASequence) (a : String) (h : PeptideHit_) :
  (sequence h = q /\ merge q a h = addProteinAccession h a) \/
  (sequence h <> q /\ merge q a h = h).
Proof.
  unfold merge_accession. destruct (AASequence_eq_dec (sequence h) q); auto.
Qed.

(** *** What holds of the state after every row *)

Lemma ingest_all_app (rows1 rows2 : list (option (list String))) :
  forall st st' : state_,
    ingest_all st (rows1 ++ rows2) = Ok st' ->
    exists st1, ingest_all st rows1 = Ok st1 /\ ingest_all st1 rows2 = Ok st'.
Proof.
  induction rows1 as [|r rows1 IH]; intros st st' H.
  - exists st. split; [reflexivity | exact H].
  - cbn [app ingest_rows] in H. apply bind_Ok_inv in H as (st0 & Hr & H).
    destruct (IH _ _ H) as (st1 & H1 & H2).
    exists st1. split; [|exact H2]. cbn [ingest_rows]. rewrite Hr. exact H1.
Qed.

(** Proved for one row, a property that the steps pass on holds after all
    rows. *)
Lemma ingest_all_ind (P : state_ -> Prop) :
  (forall st elements st', P st -> ingest st (Some elements) = Ok st' -> P st') ->
  forall rows st st', P st -> ingest_all st rows = Ok st' -> P st'.
Proof.
  intros Hstep. induction rows as [|r rows IH]; intros st st' HP H.
  - injection H as <-. exact HP.
  - cbn [ingest_rows] in H. apply bind_Ok_inv in H as (st0 & Hr & H).
    destruct r as [elements|]; [|discriminate].
    eapply IH; [|exact H]. eapply Hstep; eauto.
Qed.

Lemma set_insert_ordered (s : StringSet) (a : String) :
  ordered String_compare s -> ordered String_compare (set_insert s a).
Proof.
  apply ordered_put;
    [apply String_compare_eq | apply String_compare_antisym
     | apply String_compare_trans].
Qed.

Lemma set_contains_keys (s : StringSet) (a : String) :
  set_contains s a = true <-> In a (keys s).
Proof.
  unfold set_contains.
  rewrite <- (lookup_keys String_compare String_compare_eq).
  destruct (lookup String_compare s a); split; congruence.
Qed.

(** Lines 509-512 make the accession of the row a member of the set. *)
Lemma insert_if_absent_keys (s : StringSet) (a x : String) :
  In x (keys (if negb (set_contains s a) then set_insert s a else s))
  <-> x = a \/ In x (keys s).
Proof.
  destruct (set_contains s a) eqn:E; cbn [negb].
  - apply set_contains_keys in E. split; [auto | intros [->|]; auto].
  - apply (keys_put String_compare String_compare_eq).
Qed.

Lemma ingest_well_formed (st : state_) (elements : list String) (st' : state_) :
  well_formed st -> ingest st (Some elements) = Ok st' -> well_formed st'.
Proof.
  intros (Hids & Hacc & Hone) H.
  apply ingest_row_Ok in H
    as (n & q & a & Hn & Hq & Ha & Hprot & Hother & Hkeys & Hord & Hnew).
  split; [now apply Hord|]. split.
  - rewrite Hprot. destruct (negb _); auto using set_insert_ordered.
  - intros m pep' Hm. destruct (Z.eq_dec m n) as [->|Hne].
    + destruct (zlookup (ids st) n) as [pep|] eqn:Hlook.
      * rewrite Hnew in Hm. injection Hm as <-.
        destruct (Hone n pep Hlook) as (Hscan & h & Hh & Hnd).
        split; [exact Hscan|]. exists (merge q a h). cbn [hits setHits].
        rewrite Hh. split; [reflexivity | now apply merge_NoDup].
      * destruct Hnew as (rt & mz & sc & ch & Hnew).
        rewrite Hnew in Hm. injection Hm as <-.
        split; [reflexivity|]. eexists. split; [reflexivity|].
        apply addProteinAccession_NoDup. constructor.
    + rewrite Hother in Hm by assumption. now apply Hone.
Qed.

Lemma ingest_all_well_formed (rows : list (option (list String)))
  (st st' : state_) :
  well_formed st -> ingest_all st rows = Ok st' -> well_formed st'.
Proof. apply ingest_all_ind. exact ingest_well_formed. Qed.

(** The scan numbers of the map are those of the rows taken in. *)
Lemma ingest_all_scans (rows : list (option (list String))) :
  forall (st st' : state_), ingest_all st rows = Ok st' ->
  forall n, In n (keys (ids st')) <->
            In n (keys (ids st)) \/
            exists e, In (Some e) rows /\ scan_of e = Ok n.
Proof.
  induction rows as [|r rows IH]; intros st st' H n.
  - injection H as <-. split; [auto | intros [|(e & [] & _)]; auto].
  - cbn [ingest_rows] in H. apply bind_Ok_inv in H as (st0 & Hr & H).
    destruct r as [elements|]; [|discriminate].
    rewrite (IH _ _ H n).
    apply ingest_row_Ok in Hr
      as (n0 & q & a & Hn & _ & _ & _ & _ & Hkeys & _ & _).
    rewrite Hkeys. split.
    + intros [[->|Hin]|(e & He & Hs)]; auto.
      * right. exists elements. split; [now left | assumption].
      * right. exists e. split; [now right | assumption].
    + intros [Hin|(e & [[= ->]|He] & Hs)]; auto.
      * left. left. congruence.
      * right. now exists e.
Qed.

(** The accessions of the set are those of the rows taken in. *)
Lemma ingest_all_accessions (rows : list (option (list String))) :
  forall (st st' : state_), ingest_all st rows = Ok st' ->
  forall a, In a (keys (prot_accessions st')) <->
            In a (keys (prot_accessions st)) \/
            exists e, In (Some e) rows /\ nth_error e 9 = Some a.
Proof.
  induction rows as [|r rows IH]; intros st st' H x.
  - injection H as <-. split; [auto | intros [|(e & [] & _)]; auto].
  - cbn [ingest_rows] in H. apply bind_Ok_inv in H as (st0 & Hr & H).
    destruct r as [elements|]; [|discriminate].
    rewrite (IH _ _ H x).
    apply ingest_row_Ok in Hr
      as (n0 & q & a & _ & _ & Ha & Hprot & _ & _ & _ & _).
    rewrite Hprot, insert_if_absent_keys. split.
    + intros [[->|Hin]|(e & He & Hs)]; auto.
      * right. exists elements. split; [now left | assumption].
      * right. exists e. split; [now right | assumption].
    + intros [Hin|(e & [[= ->]|He] & Hs)]; auto.
      * left. left. congruence.
      * right. now exists e.
Qed.

Lemma well_formed_initial (rt : @RTMapping float) :
  well_formed (mkState rt [] [] : state_).
Proof.
  split; [constructor|]. split; [constructor|]. intros n pep H. discriminate.
Qed.

(** What [main_] stores when it stores something. *)
Lemma main_Ok (exp_name : String) (exp : list MSSpectrum)
  (tsvfile : list (option (list String))) (out : idXML) :
  convert exp_name exp tsvfile = Ok out ->
  exists rt st,
    ingest_all (mkState rt [] []) (skipn 1 tsvfile) = Ok st /\
    well_formed st /\
    protein_ids out =
      [mkProteinIdentification identifier_ "MS-GF+" "MS-GF+"
         (map mkProteinHit (keys (prot_accessions st)))] /\
    peptide_ids out = map (sort score_less) (values (ids st)).
Proof.
  unfold main_. intros H.
  apply bind_Ok_inv in H as (rt & _ & H).
  apply bind_Ok_inv in H as (st & Hst & H).
  injection H as <-. exists rt, st. split; [exact Hst|].
  split; [|split; reflexivity].
  eapply ingest_all_well_formed; [apply well_formed_initial | exact Hst].
Qed.

Lemma sort_ScanNumber (pep : @PeptideIdentification double AASequence) :
  ScanNumber (sort score_less pep) = ScanNumber pep.
Proof. reflexivity. Qed.

Lemma sort_one_hit (pep : @PeptideIdentification double AASequence)
  (h : PeptideHit_) :
  hits pep = [h] -> hits (sort score_less pep) = [h].
Proof. intros H. unfold sort. cbn [hits setHits]. now rewrite H. Qed.

Lemma values_ScanNumber (m : Map Z (@PeptideIdentification double AASequence)) :
  (forall n pep, In (n, pep) m -> ScanNumber pep = Some n) ->
  map ScanNumber (map (sort score_less) (values m)) = map Some (keys m).
Proof.
  unfold values, keys. induction m as [|[n pep] m IH]; intros H; [reflexivity|].
  cbn [map fst snd]. rewrite sort_ScanNumber, (H n pep) by now left.
  f_equal. apply IH. intros n' pep' Hin. apply H. now right.
Qed.

(** C7: the protein list has one hit for each protein accession of the rows
    of the table (row 0 apart), none twice, in the ascending order of the
    accessions as strings. *)
Theorem protein_hits_of_accessions (exp_name : String) (exp : list MSSpectrum)
  (tsvfile : list (option (list String))) (out : idXML) :
  convert exp_name exp tsvfile = Ok out ->
  exists accessions : list String,
    map (fun p => map accession (protein_hits p)) (protein_ids out)
    = [accessions] /\
    StronglySorted (fun a b => String_compare a b = Lt) accessions /\
    NoDup accessions /\
    (forall a, In a accessions <->
               exists e, In (Some e) (skipn 1 tsvfile) /\
                         nth_error e 9 = Some a).
Proof.
  intros H. apply main_Ok in H as (rt & st & Hst & (_ & Hord & _) & Hprot & _).
  exists (keys (prot_accessions st)). repeat split.
  - rewrite Hprot. cbn [map protein_hits]. rewrite map_map. cbn [accession].
    now rewrite map_id.
  - exact Hord.
  - apply (ordered_NoDup String_compare String_compare_eq). exact Hord.
  - intros Hin. apply (ingest_all_accessions _ _ _ Hst) in Hin as [[]|Hin].
    exact Hin.
  - intros Hin. apply (ingest_all_accessions _ _ _ Hst). now right.
Qed.

(** C2 (as amended): the peptide identifications that are stored are one
    for each scan number of the rows of the table (row 0 apart), in the
    ascending order of the scan numbers. *)
Theorem peptide_ids_by_scan_number (exp_name : String) (exp : list MSSpectrum)
  (tsvfile : list (option (list String))) (out : idXML) :
  convert exp_name exp tsvfile = Ok out ->
  exists scans : list Z,
    map ScanNumber (peptide_ids out) = map Some scans /\
    StronglySorted Z.lt scans /\
    NoDup scans /\
    (forall n, In n scans <->
               exists e, In (Some e) (skipn 1 tsvfile) /\ scan_of e = Ok n).
Proof.
  intros H. apply main_Ok in H as (rt & st & Hst & (Hord & _ & Hone) & _ & Hpep).
  exists (keys (ids st)). repeat split.
  - rewrite Hpep. apply values_ScanNumber. intros n pep Hin.
    apply (scan_In_lookup _ _ _ Hord) in Hin. now apply Hone in Hin.
  - exact Hord.
  - apply (ordered_NoDup Z.compare Z_compare_eq). exact Hord.
  - intros Hin. apply (ingest_all_scans _ _ _ Hst) in Hin as [[]|Hin].
    exact Hin.
  - intros Hin. apply (ingest_all_scans _ _ _ Hst). now right.
Qed.

(** *** The scan number of a row *)

Lemma String_eqb_eq (a b : String) : String_eqb a b = true <-> a = b.
Proof.
  unfold String_eqb. destruct (list_eq_dec ascii_dec a b); split; congruence.
Qed.

Lemma suffix_after_last (title pre sfx : String) (delim : ascii) :
  title = pre ++ delim :: sfx -> ~ In delim sfx -> size title < max_size ->
  suffix title delim = Ok sfx.
Proof.
  intros -> Hsfx Hsize. unfold suffix.
  assert (Hfree : free_of [delim] sfx).
  { apply free_of_In. intros c Hc. apply mem_false. intros [<-|[]]. contradiction. }
  rewrite find_last_of_hit by (auto; apply mem_true; now left).
  pose proof max_size_npos. pose proof (size_nonneg pre).
  pose proof (size_nonneg sfx).
  assert (Hsz : size (pre ++ delim :: sfx) = size pre + 1 + size sfx).
  { rewrite size_app. unfold size. simpl List.length. lia. }
  rewrite Hsz in Hsize.
  replace (size pre =? npos) with false by (symmetry; apply Z.eqb_neq; lia).
  rewrite wrap_small by (unfold max_size in *; lia).
  replace (pre ++ delim :: sfx) with ((pre ++ [delim]) ++ sfx)
    by (now rewrite <- app_assoc).
  replace (size pre + 1) with (size (pre ++ [delim]))
    by (rewrite size_app; reflexivity).
  apply substr_suffix. rewrite size_app, size_app. change (size [delim]) with 1. lia.
Qed.

Lemma suffix_fails (title : String) (delim : ascii) :
  (exists sfx, suffix title delim = Ok sfx) \/
  (exists e, suffix title delim = Fail (Throw e)).
Proof.
  unfold suffix, substr. destruct (_ =? npos); [right; eauto|].
  destruct (_ <? _); [right|left]; eauto.
Qed.

(** C6: the scan number of a row is read from the title, behind its last
    [=], when the scan number field is empty or [-1], and from the scan
    number field otherwise; when neither the field nor what is behind the
    last [=] of the title is an integer, the row fails with an exception and
    gives no scan number. *)
Theorem scanNumber_of_row (elements : list String) (title field : String) :
  nth_error elements 1 = Some title ->
  nth_error elements 2 = Some field ->
  (field = [] \/ field = list_ascii_of_string "-1" ->
   scan_of elements
   = (sfx <- suffix title "="%char ;; String_toInt toInt sfx) /\
   forall pre sfx : String,
     title = pre ++ "="%char :: sfx -> ~ In "="%char sfx ->
     size title < max_size ->
     scan_of elements = String_toInt toInt sfx) /\
  (field <> [] -> field <> list_ascii_of_string "-1" ->
   scan_of elements = String_toInt toInt field) /\
  (toInt field = None ->
   (forall sfx, suffix title "="%char = Ok sfx -> toInt sfx = None) ->
   exists e,
     scan_of elements = Fail (Throw e) /\
     forall st : state_, ingest st (Some elements) = Fail (Throw e)).
Proof.
  intros H1 H2.
  assert (Hscan : scan_of elements =
                  if String_eqb field [] || String_eqb field "-1"
                  then sfx <- suffix title "="%char ;; String_toInt toInt sfx
                  else String_toInt toInt field).
  { unfold row_scanNumber, element, vector_at. rewrite H2. cbn [bind].
    destruct (_ || _); [|reflexivity]. now rewrite H1. }
  split; [|split].
  - intros Hfield.
    assert (Hb : String_eqb field [] || String_eqb field "-1" = true).
    { apply orb_true_iff. destruct Hfield; [left|right]; now apply String_eqb_eq. }
    rewrite Hb in Hscan. split; [exact Hscan|].
    intros pre sfx Ht Hsfx Hsize.
    now rewrite Hscan, (suffix_after_last title pre sfx "=" Ht Hsfx Hsize).
  - intros Hne Hne1.
    assert (Hb : String_eqb field [] || String_eqb field "-1" = false).
    { apply orb_false_iff. split.
      - destruct (String_eqb field []) eqn:E; [|reflexivity].
        now apply String_eqb_eq in E.
      - destruct (String_eqb field "-1") eqn:E; [|reflexivity].
        now apply String_eqb_eq in E. }
    now rewrite Hb in Hscan.
  - intros Hfield Htitle.
    assert (He : exists e, scan_of elements = Fail (Throw e)).
    { rewrite Hscan. destruct (_ || _).
      - destruct (suffix_fails title "=") as [(sfx & Hs)|(e & Hs)]; rewrite Hs.
        + exists ConversionError. cbn [bind]. unfold String_toInt.
          now rewrite (Htitle sfx Hs).
        + exists e. reflexivity.
      - exists ConversionError. unfold String_toInt. now rewrite Hfield. }
    destruct He as (e & He). exists e. split; [exact He|].
    intros st. unfold ingest_row. now rewrite He.
Qed.

(** *** A title that the index does not hold *)

(** C1: the first row of a scan number whose title is not in the index
    reads the first element of an empty vector; the claim denies that such an
    access happens. *)
Theorem index_miss_out_of_bounds (st : state_) (elements : list String)
  (n : Z) (q : AASequence) (a e12 e7 title : String) (sc : double) (ch : Z) :
  scan_of elements = Ok n ->
  sequence_of elements = Ok q ->
  nth_error elements 9 = Some a ->
  zlookup (ids st) n = None ->
  nth_error elements 12 = Some e12 -> toDouble e12 = Some sc ->
  nth_error elements 7 = Some e7 -> toInt e7 = Some ch ->
  nth_error elements 1 = Some title ->
  lookup String_compare (rt_mapping st) title = None ->
  ingest st (Some elements) = Fail Undefined.
Proof.
  intros Hn Hq Ha Hlook H12 Hsc H7 Hch H1 Hmiss.
  unfold ingest_row. rewrite Hn, Hq. cbn [bind].
  unfold element, vector_at. rewrite Ha, H12, H7, H1. cbn [bind].
  rewrite Hlook. unfold String_toDouble, String_toInt. rewrite Hsc, Hch.
  cbn [bind]. unfold subscript at 1. rewrite Hmiss. reflexivity.
Qed.

(** *** The first row of a scan number *)

Lemma String_toInt_Ok (s : String) (z : Z) :
  String_toInt toInt s = Ok z <-> toInt s = Some z.
Proof. unfold String_toInt. destruct (toInt s); split; congruence. Qed.

Lemma String_toDouble_Ok (s : String) (d : double) :
  String_toDouble toDouble s = Ok d <-> toDouble s = Some d.
Proof. unfold String_toDouble. destruct (toDouble s); split; congruence. Qed.

(** The first row of a scan number: what it needs and what it leaves. *)
Lemma ingest_row_first (st : state_) (elements : list String) (st' : state_)
  (n : Z) :
  ingest st (Some elements) = Ok st' ->
  scan_of elements = Ok n -> zlookup (ids st) n = None ->
  exists q a e12 sc e7 ch title r m v,
    sequence_of elements = Ok q /\ nth_error elements 9 = Some a /\
    nth_error elements 12 = Some e12 /\ toDouble e12 = Some sc /\
    nth_error elements 7 = Some e7 /\ toInt e7 = Some ch /\
    nth_error elements 1 = Some title /\
    lookup String_compare (rt_mapping st) title = Some (r :: m :: v) /\
    zlookup (ids st') n =
    Some (mkPeptideIdentification (Some (to_double r)) (Some (to_double m))
            (Some n) "SpecEValue" false identifier_
            [mkPeptideHit sc 0 ch q [a]]).
Proof.
  unfold ingest_row. intros H Hn Hlook. rewrite Hn in H. cbn [bind] in H.
  apply bind_Ok_inv in H as (q & Hq & H).
  apply bind_Ok_inv in H as (a & Ha & H).
  rewrite Hlook in H.
  apply bind_Ok_inv in H as (e12 & H12 & H).
  apply bind_Ok_inv in H as (sc & Hsc & H).
  apply bind_Ok_inv in H as (e7 & H7 & H).
  apply bind_Ok_inv in H as (ch & Hch & H).
  apply bind_Ok_inv in H as (title & H1 & H).
  unfold subscript in H at 1.
  destruct (lookup String_compare (rt_mapping st) title) as [v0|] eqn:Ert; [|discriminate].
  apply bind_Ok_inv in H as (r & Hr & H).
  unfold subscript in H. rewrite Ert in H.
  apply bind_Ok_inv in H as (m & Hm & H).
  injection H as <-. cbn [peptide_identifications].
  apply vector_at_Ok in Ha, H12, H7, H1, Hr, Hm.
  apply String_toDouble_Ok in Hsc. apply String_toInt_Ok in Hch.
  destruct v0 as [|r0 [|m0 v]]; try discriminate.
  injection Hr as ->. injection Hm as ->.
  exists q, a, e12, sc, e7, ch, title, r, m, v.
  repeat (split; [assumption|]).
  rewrite !scan_lookup_update_same, Hlook. reflexivity.
Qed.

(** *** One hit for every scan number *)

Lemma ingest_one_hit_each (st : state_) (elements : list String) (st' : state_) :
  one_hit_each (ids st) -> ingest st (Some elements) = Ok st' ->
  one_hit_each (ids st').
Proof.
  intros Hone H.
  apply ingest_row_Ok in H
    as (n & q & a & Hn & Hq & Ha & Hprot & Hother & Hkeys & Hord & Hnew).
  intros m pep' Hm. destruct (Z.eq_dec m n) as [->|Hne].
  - destruct (zlookup (ids st) n) as [pep|] eqn:Hlook.
    + rewrite Hnew in Hm. injection Hm as <-.
      destruct (Hone n pep Hlook) as (Hscan & h & Hh & Hnd).
      split; [exact Hscan|]. exists (merge q a h). cbn [hits setHits].
      rewrite Hh. split; [reflexivity | now apply merge_NoDup].
    + destruct Hnew as (rt & mz & sc & ch & Hnew).
      rewrite Hnew in Hm. injection Hm as <-.
      split; [reflexivity|]. eexists. split; [reflexivity|].
      apply addProteinAccession_NoDup. constructor.
  - rewrite Hother in Hm by assumption. now apply Hone.
Qed.

Lemma setHits_hits (pep : @PeptideIdentification double AASequence) :
  setHits (hits pep) pep = pep.
Proof. destruct pep. reflexivity. Qed.

(** What a row does to the entry of its scan number, and to no other. *)
Lemma ingest_hits (st : state_) (elements : list String) (st' : state_) :
  one_hit_each (ids st) -> ingest st (Some elements) = Ok st' ->
  exists n q a,
    scan_of elements = Ok n /\ sequence_of elements = Ok q /\
    nth_error elements 9 = Some a /\
    (forall m, m <> n -> zlookup (ids st') m = zlookup (ids st) m) /\
    match zlookup (ids st) n with
    | None =>
        exists pep' e12 sc e7 ch,
          nth_error elements 12 = Some e12 /\ toDouble e12 = Some sc /\
          nth_error elements 7 = Some e7 /\ toInt e7 = Some ch /\
          zlookup (ids st') n = Some pep' /\
          hits pep' = [mkPeptideHit sc 0 ch q [a]]
    | Some pep =>
        exists h,
          hits pep = [h] /\
          (sequence h = q ->
           zlookup (ids st') n
           = Some (setHits [addProteinAccession h a] pep)) /\
          (sequence h <> q -> zlookup (ids st') n = Some pep)
    end.
Proof.
  intros Hone H. pose proof H as H0.
  apply ingest_row_Ok in H
    as (n & q & a & Hn & Hq & Ha & _ & Hother & _ & _ & Hnew).
  exists n, q, a. do 4 (split; [assumption|]).
  destruct (zlookup (ids st) n) as [pep|] eqn:Hlook.
  - destruct (Hone n pep Hlook) as (_ & h & Hh & _).
    exists h. split; [exact Hh|]. rewrite Hnew, Hh. cbn [map].
    unfold merge_accession.
    destruct (AASequence_eq_dec (sequence h) q) as [Heq|Hne]; split; intros Hs;
      try contradiction; try reflexivity.
    now rewrite <- Hh, setHits_hits.
  - destruct (ingest_row_first st elements st' n H0 Hn Hlook)
      as (q' & a' & e12 & sc & e7 & ch & title & r & m & v
          & Hq' & Ha' & H12 & Hsc & H7 & Hch & _ & _ & Hst').
    rewrite Hq in Hq'. injection Hq' as <-.
    rewrite Ha in Ha'. injection Ha' as <-.
    eexists. exists e12, sc, e7, ch.
    do 4 (split; [assumption|]). split; [exact Hst'|reflexivity].
Qed.

Lemma values_In (m : Map Z (@PeptideIdentification double AASequence))
  (pep : @PeptideIdentification double AASequence) :
  In pep (values m) -> exists n, In (n, pep) m.
Proof.
  unfold values. intros H. apply in_map_iff in H as ([n v] & <- & Hin).
  now exists n.
Qed.

(** C10: every scan number of the map has one hit before the first row and
    after every row.  A row changes the entry of its own scan number only:
    the first row of a scan number gives it one hit, with the score, the
    charge, the sequence and the accession of that row; a later row adds its
    accession to the hit of the scan number when its sequence is that of
    the hit, and leaves the entry as it is when it is not.  So every
    peptide identification that is stored has one hit. *)
Theorem one_hit_per_scan_number :
  (forall rt : @RTMapping float, one_hit_each (ids (mkState rt [] [] : state_))) /\
  (forall (st : state_) (elements : list String) (st' : state_),
      one_hit_each (ids st) -> ingest st (Some elements) = Ok st' ->
      one_hit_each (ids st') /\
      exists n q a,
        scan_of elements = Ok n /\ sequence_of elements = Ok q /\
        nth_error elements 9 = Some a /\
        (forall m, m <> n -> zlookup (ids st') m = zlookup (ids st) m) /\
        match zlookup (ids st) n with
        | None =>
            exists pep' e12 sc e7 ch,
              nth_error elements 12 = Some e12 /\ toDouble e12 = Some sc /\
              nth_error elements 7 = Some e7 /\ toInt e7 = Some ch /\
              zlookup (ids st') n = Some pep' /\
              hits pep' = [mkPeptideHit sc 0 ch q [a]]
        | Some pep =>
            exists h,
              hits pep = [h] /\
              (sequence h = q ->
               zlookup (ids st') n
               = Some (setHits [addProteinAccession h a] pep)) /\
              (sequence h <> q -> zlookup (ids st') n = Some pep)
        end) /\
  (forall exp_name exp tsvfile out,
      convert exp_name exp tsvfile = Ok out ->
      Forall (fun pep => exists h, hits pep = [h]) (peptide_ids out)).
Proof.
  split; [|split].
  - intros rt n pep H. discriminate.
  - intros st elements st' Hone H. split.
    + eapply ingest_one_hit_each; eauto.
    + now apply ingest_hits.
  - intros exp_name exp tsvfile out H.
    apply main_Ok in H as (rt & st & Hst & (Hord & _ & Hone) & _ & Hpep).
    rewrite Hpep. apply Forall_forall. intros pep Hin.
    apply in_map_iff in Hin as (pep0 & <- & Hin).
    apply values_In in Hin as (n & Hin).
    apply (scan_In_lookup _ _ _ Hord) in Hin.
    destruct (Hone n pep0 Hin) as (_ & h & Hh & _).
    exists h. now apply sort_one_hit.
Qed.

(** *** Rows of one scan number with one sequence *)

(** From the first row of a scan number on, the accessions of the rows with
    the sequence of its hit gather in that hit. *)
Lemma ingest_all_merged (rows : list (option (list String))) :
  forall (st st' : state_) (n : Z) pep (h : PeptideHit_),
    ingest_all st rows = Ok st' ->
    zlookup (ids st) n = Some pep -> hits pep = [h] ->
    exists pep' h',
      zlookup (ids st') n = Some pep' /\ hits pep' = [h'] /\
      sequence h' = sequence h /\
      incl (protein_accessions h) (protein_accessions h') /\
      forall e a,
        In (Some e) rows -> scan_of e = Ok n ->
        sequence_of e = Ok (sequence h) -> nth_error e 9 = Some a ->
        In a (protein_accessions h').
Proof.
  induction rows as [|r rows IH]; intros st st' n pep h H Hlook Hh.
  - injection H as <-. exists pep, h. repeat split; auto using incl_refl.
    intros e a [].
  - cbn [ingest_rows] in H. apply bind_Ok_inv in H as (st0 & Hr & H).
    destruct r as [elements|]; [|discriminate].
    apply ingest_row_Ok in Hr
      as (n0 & q & a0 & Hn & Hq & Ha & _ & Hother & _ & _ & Hnew).
    destruct (Z.eq_dec n n0) as [<-|Hne].
    + rewrite Hlook in Hnew.
      assert (Hh0 : hits (setHits (map (merge q a0) (hits pep)) pep)
                    = [merge q a0 h])
        by (cbn [hits setHits]; now rewrite Hh).
      destruct (IH _ _ _ _ _ H Hnew Hh0)
        as (pep' & h' & Hl' & Hh' & Hseq & Hincl & Hrows).
      rewrite merge_sequence in Hseq, Hrows.
      exists pep', h'. repeat split; auto.
      * intros x Hx. apply Hincl. now apply merge_incl.
      * intros e a [[= ->]|Hin] Hs Hse Hea.
        -- rewrite Hq in Hse. injection Hse as ->.
           rewrite Ha in Hea. injection Hea as ->.
           apply Hincl. apply merge_same_sequence.
        -- eapply Hrows; eauto.
    + rewrite <- (Hother n Hne) in Hlook.
      destruct (IH _ _ _ _ _ H Hlook Hh)
        as (pep' & h' & Hl' & Hh' & Hseq & Hincl & Hrows).
      exists pep', h'. repeat split; auto.
      intros e a [[= ->]|Hin] Hs Hse Hea.
      * rewrite Hn in Hs. congruence.
      * eapply Hrows; eauto.
Qed.

(** The identification of a scan number stands once in what is stored. *)
Lemma stored_once (m : Map Z (@PeptideIdentification double AASequence))
  (n : Z) pep :
  ordered Z.compare m -> one_hit_each m -> zlookup m n = Some pep ->
  exists l1 l2,
    map (sort score_less) (values m) = l1 ++ sort score_less pep :: l2 /\
    forall p, In p (l1 ++ l2) -> ScanNumber p <> Some n.
Proof.
  intros Hord Hone Hlook.
  pose proof (scan_lookup_In _ _ _ Hlook) as Hin.
  apply in_split in Hin as (m1 & m2 & ->).
  exists (map (sort score_less) (values m1)), (map (sort score_less) (values m2)).
  split.
  - unfold values. now rewrite !map_app.
  - apply (ordered_NoDup Z.compare Z_compare_eq) in Hord as Hnd.
    unfold keys in Hnd. rewrite map_app in Hnd. cbn [map fst] in Hnd.
    apply NoDup_remove_2 in Hnd.
    intros p Hp. rewrite <- map_app in Hp.
    apply in_map_iff in Hp as (p0 & <- & Hp). rewrite sort_ScanNumber.
    unfold values in Hp. rewrite <- map_app in Hp.
    apply in_map_iff in Hp as ([k v] & <- & Hkv). cbn [snd].
    assert (Hk : In (k, v) (m1 ++ (n, pep) :: m2)).
    { apply in_app_iff in Hkv as [|]; apply in_app_iff; [left|right; right]; auto. }
    apply (scan_In_lookup _ _ _ Hord) in Hk.
    destruct (Hone k v Hk) as (-> & _).
    intros [= ->]. apply Hnd. rewrite <- map_app.
    now apply (in_map fst) in Hkv.
Qed.

(** C5 (as amended): when the first row of a scan number carries a
    sequence, two rows of that scan number with that sequence, whatever
    their protein accessions, end in the one hit of the one identification
    of that scan number, whose accessions hold those of both rows and hold
    none twice. *)
Theorem same_sequence_rows_merged (exp_name : String) (exp : list MSSpectrum)
  (tsvfile : list (option (list String))) (out : idXML)
  (n : Z) (q : AASequence)
  (before after : list (option (list String))) (first e1 e2 : list String)
  (a1 a2 : String) :
  convert exp_name exp tsvfile = Ok out ->
  skipn 1 tsvfile = before ++ Some first :: after ->
  (forall e, In (Some e) before -> scan_of e <> Ok n) ->
  scan_of first = Ok n -> sequence_of first = Ok q ->
  In (Some e1) (skipn 1 tsvfile) -> In (Some e2) (skipn 1 tsvfile) ->
  scan_of e1 = Ok n -> scan_of e2 = Ok n ->
  sequence_of e1 = Ok q -> sequence_of e2 = Ok q ->
  nth_error e1 9 = Some a1 -> nth_error e2 9 = Some a2 ->
  exists pep h l1 l2,
    peptide_ids out = l1 ++ pep :: l2 /\
    (forall p, In p (l1 ++ l2) -> ScanNumber p <> Some n) /\
    ScanNumber pep = Some n /\
    hits pep = [h] /\ sequence h = q /\
    In a1 (protein_accessions h) /\ In a2 (protein_accessions h) /\
    NoDup (protein_accessions h).
Proof.
  intros H Hrows Hbefore Hfn Hfq Hin1 Hin2 Hs1 Hs2 Hq1 Hq2 Ha1 Ha2.
  apply main_Ok in H as (rt & st & Hst & (Hord & _ & Hone) & _ & Hpep).
  rewrite Hrows in Hst, Hin1, Hin2.
  apply ingest_all_app in Hst as (st1 & Hst1 & Hst).
  cbn [ingest_rows] in Hst. apply bind_Ok_inv in Hst as (st2 & Hfirst & Hst).
  (* no row before [first] has the scan number *)
  assert (Hnone : zlookup (ids st1) n = None).
  { destruct (zlookup (ids st1) n) eqn:E; [|reflexivity]. exfalso.
    assert (Hk : In n (keys (ids st1)))
      by (apply scan_lookup_keys; congruence).
    apply (ingest_all_scans _ _ _ Hst1) in Hk as [[]|(e & He & Hs)].
    exact (Hbefore e He Hs). }
  apply ingest_row_Ok in Hfirst
    as (n0 & q0 & a0 & Hn & Hq & Ha & _ & _ & _ & _ & Hnew).
  rewrite Hfn in Hn. injection Hn as <-.
  rewrite Hfq in Hq. injection Hq as <-.
  rewrite Hnone in Hnew. destruct Hnew as (rtv & mzv & sc & ch & Hnew).
  destruct (ingest_all_merged _ _ _ _ _ _ Hst Hnew eq_refl)
    as (pep' & h' & Hl' & Hh' & Hseq & Hincl & Hafter).
  rewrite addProteinAccession_sequence in Hseq, Hafter. cbn [sequence] in Hseq, Hafter.
  assert (Hall : forall e a,
             In (Some e) (before ++ Some first :: after) ->
             scan_of e = Ok n -> sequence_of e = Ok q ->
             nth_error e 9 = Some a -> In a (protein_accessions h')).
  { intros e a Hin Hs Hse Hea. apply in_app_iff in Hin as [Hin|[[= ->]|Hin]].
    - exfalso. exact (Hbefore e Hin Hs).
    - rewrite Ha in Hea. injection Hea as ->.
      apply Hincl. apply addProteinAccession_In. now left.
    - eapply Hafter; eauto. }
  destruct (stored_once _ _ _ Hord Hone Hl') as (l1 & l2 & Hsplit & Hothers).
  destruct (Hone n pep' Hl') as (Hscan & h0 & Hh0 & Hnd).
  rewrite Hh' in Hh0. injection Hh0 as <-.
  exists (sort score_less pep'), h', l1, l2.
  rewrite Hpep. repeat split; eauto using sort_one_hit.
Qed.

End ConversionFacts.

(** *** The run of a table *)

Lemma sample_run :
  exists out,
    sample_main_ "MS-GF+_2014" "in.mzML" sample_exp sample_table = Ok out.
Proof. eexists. vm_compute. reflexivity. Qed.

Lemma protein_hits_of_accessions_witness :
  exists out,
    sample_main_ "MS-GF+_2014" "in.mzML" sample_exp sample_table = Ok out /\
    exists accessions : list String,
      map (fun p => map accession (protein_hits p)) (protein_ids out)
      = [accessions] /\
      StronglySorted (fun a b => String_compare a b = Lt) accessions /\
      NoDup accessions /\
      (forall a, In a accessions <->
                 exists e, In (Some e) (skipn 1 sample_table) /\
                           nth_error e 9 = Some a).
Proof.
  eexists. split; [vm_compute; reflexivity|].
  apply (protein_hits_of_accessions (fun x => x) (fun x => x)
           (list_eq_dec ascii_dec) (@Some String) parse_int (@Some String)
           text_less "MS-GF+_2014" "in.mzML" sample_exp sample_table).
  vm_compute. reflexivity.
Defined.

Lemma peptide_ids_by_scan_number_witness :
  exists out,
    sample_main_ "MS-GF+_2014" "in.mzML" sample_exp sample_table = Ok out /\
    exists scans : list Z,
      map ScanNumber (peptide_ids out) = map Some scans /\
      StronglySorted Z.lt scans /\
      NoDup scans /\
      (forall n, In n scans <->
                 exists e, In (Some e) (skipn 1 sample_table) /\
                           row_scanNumber parse_int e = Ok n).
Proof.
  eexists. split; [vm_compute; reflexivity|].
  apply (peptide_ids_by_scan_number (fun x => x) (fun x => x)
           (list_eq_dec ascii_dec) (@Some String) parse_int (@Some String)
           text_less "MS-GF+_2014" "in.mzML" sample_exp sample_table).
  vm_compute. reflexivity.
Defined.

(** C2 (as stated) fails: with scan 2 in the table before scan 1, the
    identification of scan 1 is stored before that of scan 2, and not in the
    order in which the scan numbers are first met. *)
Lemma peptide_ids_not_by_first_appearance :
  ~ (forall tsvfile out,
        sample_main_ "MS-GF+_2014" "in.mzML" sample_exp tsvfile = Ok out ->
        map ScanNumber (peptide_ids out)
        = map Some (first_appearance []
                      (scan_numbers parse_int (skipn 1 tsvfile)))).
Proof.
  intros H. destruct sample_run as (out & Hout).
  specialize (H sample_table out Hout).
  vm_compute in Hout. injection Hout as <-.
  vm_compute in H. discriminate.
Qed.

Lemma scanNumber_of_row_witness :
  row_scanNumber parse_int
    (sample_elements title1 "" "2" "K.PEPTM+15.999IDE.R" "P2" "1e-5")
  = String_toInt parse_int "1".
Proof.
  refine (proj2 (proj1 (scanNumber_of_row (fun x : String => x)
                          (list_eq_dec ascii_dec) (@Some String) parse_int
                          (@Some String) "MS-GF+_2014"
                          (sample_elements title1 "" "2" "K.PEPTM+15.999IDE.R"
                             "P2" "1e-5")
                          title1 "" _ _) _)
            "controllerType=0 controllerNumber=1 scan" "1" _ _ _).
  - reflexivity.
  - reflexivity.
  - left. reflexivity.
  - reflexivity.
  - simpl. intros [H|[]]. discriminate H.
  - reflexivity.
Defined.

Lemma index_miss_out_of_bounds_witness :
  sample_ingest_row "MS-GF+_2014" (mkState [] [] [])
    (sample_row "controllerType=0 controllerNumber=1 scan=7" "7" "2"
       "K.PEPTIDE.R" "P1" "1e-5")
  = Fail Undefined.
Proof.
  apply (index_miss_out_of_bounds (fun x : String => x) (list_eq_dec ascii_dec)
           (@Some String) parse_int (@Some String) "MS-GF+_2014"
           (mkState [] [] []) _ 7 (list_ascii_of_string "PEPTIDE")
           "P1" "1e-5" "2" "controllerType=0 controllerNumber=1 scan=7"
           (list_ascii_of_string "1e-5") 2);
    reflexivity.
Defined.

(** The whole conversion on a table with a row for a spectrum that the
    experiment does not hold. *)
Lemma index_miss_run :
  sample_main_ "MS-GF+_2014" "in.mzML" sample_exp missing_table
  = Fail Undefined.
Proof. vm_compute. reflexivity. Qed.

Lemma one_hit_per_scan_number_witness :
  exists out,
    sample_main_ "MS-GF+_2014" "in.mzML" sample_exp sample_table = Ok out /\
    Forall (fun pep => exists h, hits pep = [h]) (peptide_ids out).
Proof.
  eexists. split; [vm_compute; reflexivity|].
  apply (proj2 (proj2 (one_hit_per_scan_number (fun x : String => x)
                         (fun x : String => x) (list_eq_dec ascii_dec)
                         (@Some String) parse_int (@Some String) text_less
                         "MS-GF+_2014"))
           "in.mzML" sample_exp sample_table).
  vm_compute. reflexivity.
Defined.

Lemma same_sequence_rows_merged_witness :
  exists out,
    sample_main_ "MS-GF+_2014" "in.mzML" sample_exp sample_table = Ok out /\
    exists pep h l1 l2,
      peptide_ids out = l1 ++ pep :: l2 /\
      (forall p, In p (l1 ++ l2) -> ScanNumber p <> Some 1) /\
      ScanNumber pep = Some 1 /\
      hits pep = [h] /\
      sequence h = list_ascii_of_string "PEPTM[+15.999]IDE" /\
      In (list_ascii_of_string "P2") (protein_accessions h) /\
      In (list_ascii_of_string "P1") (protein_accessions h) /\
      NoDup (protein_accessions h).
Proof.
  eexists. split; [vm_compute; reflexivity|].
  apply (same_sequence_rows_merged (fun x : String => x) (fun x : String => x)
           (list_eq_dec ascii_dec) (@Some String) parse_int (@Some String)
           text_less "MS-GF+_2014" "in.mzML" sample_exp sample_table _
           1 (list_ascii_of_string "PEPTM[+15.999]IDE")
           [sample_row title2 "2" "2" "R.AAAK.L" "P3" "1e-7"]
           [sample_row title1 "-1" "2" "K.PEPTM+15.999IDE.R" "P1" "1e-5"]
           (sample_elements title1 "" "2" "K.PEPTM+15.999IDE.R" "P2" "1e-5")
           (sample_elements title1 "" "2" "K.PEPTM+15.999IDE.R" "P2" "1e-5")
           (sample_elements title1 "-1" "2" "K.PEPTM+15.999IDE.R" "P1" "1e-5")
           "P2" "P1").
  - vm_compute. reflexivity.
  - reflexivity.
  - intros e [H|[]]. injection H as <-. vm_compute. discriminate.
  - vm_compute. reflexivity.
  - vm_compute. reflexivity.
  - simpl. right. left. reflexivity.
  - simpl. right. right. left. reflexivity.
  - vm_compute. reflexivity.
  - vm_compute. reflexivity.
  - vm_compute. reflexivity.
  - vm_compute. reflexivity.
  - reflexivity.
  - reflexivity.
Defined.

(** C5 (as stated) fails: the second and the third row of scan 1 carry one
    sequence and the proteins [P1] and [P2], but the first row of scan 1
    carried another sequence; its hit is the one hit of scan 1, and it names
    neither [P1] nor [P2]. *)
Lemma unmatched_rows_not_merged :
  ~ (forall tsvfile out e1 e2 n q a1 a2,
        sample_main_ "MS-GF+_2014" "in.mzML" sample_exp tsvfile = Ok out ->
        In (Some e1) (skipn 1 tsvfile) -> In (Some e2) (skipn 1 tsvfile) ->
        row_scanNumber parse_int e1 = Ok n ->
        row_scanNumber parse_int e2 = Ok n ->
        row_sequence (@Some String) e1 = Ok q ->
        row_sequence (@Some String) e2 = Ok q ->
        nth_error e1 9 = Some a1 -> nth_error e2 9 = Some a2 -> a1 <> a2 ->
        exists pep h,
          In pep (peptide_ids out) /\ ScanNumber pep = Some n /\
          hits pep = [h] /\
          In a1 (protein_accessions h) /\ In a2 (protein_accessions h)).
Proof.
  intros H.
  assert (Hrun : exists out,
             sample_main_ "MS-GF+_2014" "in.mzML" sample_exp dropped_table
             = Ok out) by (eexists; vm_compute; reflexivity).
  destruct Hrun as (out & Hout).
  destruct (H dropped_table out
              (sample_elements title1 "1" "2" "K.PEPTIDE.R" "P1" "1e-5")
              (sample_elements title1 "1" "2" "K.PEPTIDE.R" "P2" "1e-5")
              1 (list_ascii_of_string "PEPTIDE")
              (list_ascii_of_string "P1") (list_ascii_of_string "P2"))
    as (pep & h & Hin & _ & Hh & H1 & _);
    try (vm_compute; reflexivity); try exact Hout.
  - simpl. right. left. reflexivity.
  - simpl. right. right. left. reflexivity.
  - discriminate.
  - vm_compute in Hout. injection Hout as <-.
    cbn [peptide_ids] in Hin. destruct Hin as [<-|[]].
    cbn [hits] in Hh. injection Hh as <-.
    cbn [protein_accessions] in H1. destruct H1 as [H1|[]]. discriminate H1.
Qed.

(** * Further properties *)

(** ** [fixDecimalSeparator] as a whole *)

Lemma decimal_point_In (seq : String) : ~ In ","%char (map decimal_point seq).
Proof.
  intros H. apply in_map_iff in H as (c & Hc & _).
  unfold decimal_point in Hc. destruct (mem c ".,") eqn:E; [discriminate|].
  subst c. discriminate.
Qed.

Lemma decimal_point_twice (c : ascii) :
  decimal_point (decimal_point c) = decimal_point c.
Proof.
  unfold decimal_point at 2 3. destruct (mem c ".,") eqn:E; [reflexivity|].
  unfold decimal_point. now rewrite E.
Qed.

(** X1: [fixDecimalSeparator] returns, for every string, a string of the same
    length in which every [,] and [.] of the input is a [.] and every other
    character stands where it stood; no [,] is left. *)
Theorem fixDecimalSeparator_points (seq : String) :
  size seq < max_size ->
  exists out : String,
    fixDecimalSeparator seq = Ok out /\
    List.length out = List.length seq /\
    ~ In ","%char out /\
    forall i c, nth_error seq i = Some c ->
                nth_error out i = Some (decimal_point c).
Proof.
  intros H. exists (map decimal_point seq). split; [|split; [|split]].
  - now apply fixDecimalSeparator_map.
  - apply length_map.
  - apply decimal_point_In.
  - intros i c Hc. rewrite nth_error_map, Hc. reflexivity.
Qed.

Lemma fixDecimalSeparator_points_witness :
  exists out : String,
    fixDecimalSeparator "PEPTM+15,999IDE" = Ok out /\
    List.length out = List.length (list_ascii_of_string "PEPTM+15,999IDE") /\
    ~ In ","%char out /\
    forall i c, nth_error (list_ascii_of_string "PEPTM+15,999IDE") i = Some c ->
                nth_error out i = Some (decimal_point c).
Proof.
  apply (fixDecimalSeparator_points "PEPTM+15,999IDE"). reflexivity.
Defined.

(** X2: [fixDecimalSeparator] changes nothing in its own result. *)
Theorem fixDecimalSeparator_idempotent (seq out : String) :
  size seq < max_size ->
  fixDecimalSeparator seq = Ok out -> fixDecimalSeparator out = Ok out.
Proof.
  intros Hsize H. rewrite fixDecimalSeparator_map in H by assumption.
  injection H as <-.
  rewrite fixDecimalSeparator_map.
  - rewrite map_map. apply f_equal. apply map_ext. exact decimal_point_twice.
  - unfold size in *. now rewrite length_map.
Qed.

Lemma fixDecimalSeparator_idempotent_witness :
  fixDecimalSeparator "M+15.999K" = Ok (list_ascii_of_string "M+15.999K").
Proof.
  apply (fixDecimalSeparator_idempotent "M+15,999K"); reflexivity.
Defined.

(** ** [cutSequence] as a whole *)

Lemma substr_middle (a b c : String) :
  substr (a ++ b ++ c) (size a) (size b) = Ok b.
Proof.
  unfold substr. rewrite !size_app.
  pose proof (size_nonneg a). pose proof (size_nonneg b). pose proof (size_nonneg c).
  replace (size a + (size b + size c) <? size a) with false
    by (symmetry; apply Z.ltb_ge; lia).
  rewrite skipn_size_app, Z.min_l by lia.
  now rewrite firstn_size_app.
Qed.

(** [substr] from a position inside the string returns a part of it. *)
Lemma substr_part (s : String) (pos len : size_t) :
  0 <= pos <= size s ->
  exists out, substr s pos len = Ok out /\
              s = firstn (Z.to_nat pos) s ++ out
                  ++ skipn (List.length out) (skipn (Z.to_nat pos) s).
Proof.
  intros H. unfold substr.
  replace (size s <? pos) with false by (symmetry; apply Z.ltb_ge; lia).
  eexists. split; [reflexivity|].
  set (l := skipn (Z.to_nat pos) s).
  set (k := Z.to_nat (Z.min len (size s - pos))).
  assert (Hk : List.length (firstn k l) = Nat.min k (List.length l))
    by apply length_firstn.
  rewrite <- (firstn_skipn (Z.to_nat pos) s) at 1. fold l. f_equal.
  rewrite <- (firstn_skipn k l) at 1. f_equal.
  rewrite Hk. destruct (Nat.le_ge_cases k (List.length l)).
  - now rewrite Nat.min_l.
  - rewrite Nat.min_r, !skipn_all2 by lia. reflexivity.
Qed.

Lemma cutSequence_inner (x : ascii) (inner y : String) :
  x <> "."%char -> free_of "." y ->
  size (x :: "."%char :: inner ++ "."%char :: y) < max_size ->
  cutSequence (x :: "."%char :: inner ++ "."%char :: y) = Ok inner.
Proof.
  intros Hx Hy Hsize.
  set (s := x :: "."%char :: inner ++ "."%char :: y) in *.
  pose proof max_size_npos as Hmax.
  assert (Hnpos : npos = 2 ^ 64 - 1) by reflexivity.
  pose proof (size_nonneg inner). pose proof (size_nonneg y).
  assert (Hsz : size s = 3 + size inner + size y).
  { unfold s, size. simpl List.length. rewrite length_app. simpl List.length. lia. }
  assert (Hfirst : find_first_of s "." 0 = 1).
  { rewrite find_first_of_0.
    change s with ([x] ++ "."%char :: (inner ++ "."%char :: y)).
    rewrite index_where_hit; [reflexivity| |reflexivity].
    intros c [<-|[]]. destruct (mem x ".") eqn:E; [|reflexivity].
    now apply mem_dot in E. }
  assert (Hlast : find_last_of s "." = 2 + size inner).
  { change s with ((x :: "."%char :: inner) ++ "."%char :: y).
    rewrite find_last_of_hit by (auto; reflexivity).
    unfold size. simpl List.length. lia. }
  unfold cutSequence. rewrite Hfirst, Hlast.
  replace (1 =? npos) with false by reflexivity.
  replace (2 + size inner =? npos) with false by (symmetry; apply Z.eqb_neq; lia).
  replace (1 =? 2 + size inner) with false by (symmetry; apply Z.eqb_neq; lia).
  cbn [negb andb]. rewrite !wrap_small by lia.
  replace (2 + size inner - 2) with (size inner) by lia.
  change s with ([x; "."%char] ++ inner ++ "."%char :: y).
  change (1 + 1) with (size [x; "."%char]).
  apply substr_middle.
Qed.

(** X3: of a string [x.INNER.y], with one character before the first [.]
    and no [.] behind the last, [cutSequence] returns [INNER], whatever it
    holds. *)
Theorem cutSequence_flanked (x : ascii) (inner y : String) :
  x <> "."%char -> free_of "." y ->
  size (x :: "."%char :: inner ++ "."%char :: y) < max_size ->
  cutSequence (x :: "."%char :: inner ++ "."%char :: y) = Ok inner.
Proof. exact (cutSequence_inner x inner y). Qed.

Lemma cutSequence_flanked_witness :
  cutSequence "K.PEPTM+15.999IDE.R" = Ok (list_ascii_of_string "PEPTM+15.999IDE").
Proof.
  apply (cutSequence_flanked "K" "PEPTM+15.999IDE" "R");
    [discriminate | reflexivity | reflexivity].
Defined.

(** X4: [cutSequence] raises nothing, and what it returns is one piece of
    its input. *)
Theorem cutSequence_piece (sequence : String) :
  size sequence < max_size ->
  exists out pre post : String,
    cutSequence sequence = Ok out /\ sequence = pre ++ out ++ post.
Proof.
  intros Hsize.
  pose proof max_size_npos as Hmax.
  assert (Hnpos : npos = 2 ^ 64 - 1) by reflexivity.
  set (findFirst := find_first_of sequence "." 0).
  set (findLast := find_last_of sequence ".").
  destruct (cutSequence_searches sequence)
    as [(Hd & Hf & Hl)|[(Hd & Hfl & Hl)|(Hd & Hf & Hl)]];
    fold findFirst in Hf || fold findFirst in Hfl; fold findLast in Hl;
    try fold findLast in Hf; try fold findLast in Hfl.
  - exists sequence, [], []. split; [|now rewrite app_nil_r].
    unfold cutSequence. fold findFirst. now rewrite Hf.
  - exists sequence, [], []. split; [|now rewrite app_nil_r].
    unfold cutSequence. fold findFirst findLast.
    now rewrite Hfl, Z.eqb_refl, !andb_false_r.
  - assert (Hcut : cutSequence sequence =
                   substr sequence (wrap (findFirst + 1)) (wrap (findLast - 2))).
    { unfold cutSequence. fold findFirst findLast.
      replace (findFirst =? npos) with false by (symmetry; apply Z.eqb_neq; lia).
      replace (findLast =? npos) with false by (symmetry; apply Z.eqb_neq; lia).
      replace (findFirst =? findLast) with false by (symmetry; apply Z.eqb_neq; lia).
      reflexivity. }
    rewrite Hcut, (wrap_small (findFirst + 1)) by lia.
    destruct (substr_part sequence (findFirst + 1) (wrap (findLast - 2)))
      as (out & Hout & Hs); [lia|].
    exists out. eexists. eexists. split; [exact Hout | exact Hs].
Qed.

Lemma cutSequence_piece_witness :
  exists out pre post : String,
    cutSequence "KK.AAAA.R" = Ok out /\
    list_ascii_of_string "KK.AAAA.R" = pre ++ out ++ post.
Proof. apply (cutSequence_piece "KK.AAAA.R"). reflexivity. Defined.

(** ** [modifySequence] on any string *)

Lemma bracket_length (s : String) : forall inside,
  List.length (bracket inside s)
  = (List.length s + 2 * segments inside s + if inside then 1 else 0)%nat.
Proof.
  induction s as [|c s IH]; intros [|]; cbn [bracket segments]; try reflexivity.
  - destruct (is_upper c); cbn [List.length]; rewrite IH; lia.
  - destruct (is_sign c); cbn [List.length]; rewrite IH; lia.
Qed.

(** X5: [modifySequence] returns for every string, brackets in it or not:
    it raises nothing and does not run out of iterations; it puts in one
    pair of brackets for every segment that it opens, and nothing else is
    added, taken away or moved. *)
Theorem modifySequence_adds_pairs (seq : String) :
  size seq < max_size ->
  exists out : String,
    modifySequence seq = Ok out /\
    List.length out = (List.length seq + 2 * segments false seq)%nat /\
    count "[" out = (count "[" seq + segments false seq)%nat /\
    count "]" out = (count "]" seq + segments false seq)%nat /\
    unbracket out = unbracket seq.
Proof.
  intros Hsize. exists (bracket false seq). split; [|split; [|split; [|split]]].
  - now apply modifySequence_one_pass.
  - rewrite bracket_length. lia.
  - apply bracket_count_open.
  - rewrite bracket_count_close. lia.
  - apply unbracket_bracket.
Qed.

Lemma modifySequence_adds_pairs_witness :
  exists out : String,
    modifySequence "M[+1]K-2" = Ok out /\
    List.length out
    = (List.length (list_ascii_of_string "M[+1]K-2")
       + 2 * segments false "M[+1]K-2")%nat /\
    count "[" out = (count "[" "M[+1]K-2" + segments false "M[+1]K-2")%nat /\
    count "]" out = (count "]" "M[+1]K-2" + segments false "M[+1]K-2")%nat /\
    unbracket out = unbracket "M[+1]K-2".
Proof. apply (modifySequence_adds_pairs "M[+1]K-2"). reflexivity. Defined.

(** ** [modifyNTermAASpecificSequence] as a whole *)

(** How the loop over the tokens can end. *)
Lemma mass_shift_outcomes (iter : list (String * ascii)) (seq : String) :
  size seq < max_size ->
  (forall m aa, In (m, aa) iter -> free_of uppercase m /\ m <> []) ->
  modifyNTermAASpecificSequence_for iter seq = Fail Undefined \/
  modifyNTermAASpecificSequence_for iter seq = Ok seq \/
  exists m aa pre rest,
    In (m, aa) iter /\ seq = pre ++ m ++ aa :: rest /\ free_of uppercase pre /\
    modifyNTermAASpecificSequence_for iter seq = Ok (pre ++ aa :: m ++ rest).
Proof.
  intros Hsize. induction iter as [|[m aa] iter IH]; intros Hbare.
  - right. left. reflexivity.
  - assert (IH' : modifyNTermAASpecificSequence_for iter seq = Fail Undefined \/
                  modifyNTermAASpecificSequence_for iter seq = Ok seq \/
                  exists m0 aa0 pre rest,
                    In (m0, aa0) ((m, aa) :: iter) /\
                    seq = pre ++ m0 ++ aa0 :: rest /\ free_of uppercase pre /\
                    modifyNTermAASpecificSequence_for iter seq
                    = Ok (pre ++ aa0 :: m0 ++ rest)).
    { destruct IH as [H|[H|(m0 & aa0 & p & r & Hin & Hs & Hp & H)]]; auto.
      - intros m0 aa0 Hin. apply (Hbare m0 aa0). now right.
      - right. right. exists m0, aa0, p, r. repeat split; auto. now right. }
    destruct (Hbare m aa (or_introl eq_refl)) as [Hm Hne].
    destruct (Z.eq_dec (find seq m) npos) as [Hnone|Hfound].
    { rewrite mass_shift_absent by assumption. exact IH'. }
    destruct (find_split seq m Hfound) as (pre & post & Hs & Hf).
    destruct (index_where (fun c => mem c uppercase) pre) as [j|] eqn:Ej.
    + rewrite mass_shift_after_residue; auto.
      rewrite find_first_of_0, Hs, (index_where_app_l _ pre _ j Ej), <- Hs, Hf.
      apply index_where_Some in Ej as (a & c & b & -> & <- & _ & _).
      unfold size. rewrite length_app. simpl List.length. lia.
    + assert (Hpre : free_of uppercase pre)
        by (apply free_of_In; now apply index_where_None).
      rewrite (mass_shift_bare m aa iter seq pre post) by assumption.
      destruct post as [|c rest]; [now left|].
      destruct (is_upper c); [|now left].
      destruct (Ascii.eqb_spec c aa) as [->|_]; [|exact IH'].
      right. right. exists m, aa, pre, rest. repeat split; auto. now left.
Qed.

(** X6: a mass-shift token that has no capital letter before it and none
    right after it (the end of the sequence, or another character) makes
    [modifyNTermAASpecificSequence] read outside of its string [tmp]; this
    holds for [-18.011], and for [-17.027] in a sequence without
    [-18.011]. *)
Theorem modifyNTermAASpecificSequence_undefined (seq pre post m : String)
  (aa : ascii) :
  size seq < max_size ->
  In (m, aa) massShiftList ->
  seq = pre ++ m ++ post -> find seq m = size pre ->
  free_of uppercase pre ->
  (forall c rest, post = c :: rest -> is_upper c = false) ->
  (m = list_ascii_of_string "-17.027" -> find seq "-18.011" = npos) ->
  modifyNTermAASpecificSequence seq = Fail Undefined.
Proof.
  intros Hsize Hin Hs Hf Hpre Hpost HE.
  assert (Hstep : forall iter,
             modifyNTermAASpecificSequence_for ((m, aa) :: iter) seq
             = Fail Undefined).
  { intros iter. destruct (massShiftList_bare m aa Hin) as [Hm Hne].
    rewrite (mass_shift_bare m aa iter seq pre post) by assumption.
    destruct post as [|c rest]; [reflexivity|].
    now rewrite (Hpost c rest eq_refl). }
  unfold modifyNTermAASpecificSequence, massShiftList.
  destruct Hin as [[= <- <-]|[[= <- <-]|[]]].
  - apply Hstep.
  - rewrite mass_shift_absent by (now apply HE). apply Hstep.
Qed.

Lemma modifyNTermAASpecificSequence_undefined_witness :
  modifyNTermAASpecificSequence "-17.027+57.021CK" = Fail Undefined.
Proof.
  apply (modifyNTermAASpecificSequence_undefined "-17.027+57.021CK" []
           "+57.021CK" "-17.027" "Q").
  - reflexivity.
  - right. left. reflexivity.
  - reflexivity.
  - reflexivity.
  - reflexivity.
  - intros c rest H. injection H as <- _. reflexivity.
  - intros _. reflexivity.
Defined.

(** X7: when [modifyNTermAASpecificSequence] returns, it returns its input
    or its input with the one residue after a token moved in front of that
    token; so it returns the characters of its input, as many as there
    were; and it never ends in an exception, only in the read outside of
    [tmp]. *)
Theorem modifyNTermAASpecificSequence_moves_one (seq : String) :
  size seq < max_size ->
  modifyNTermAASpecificSequence seq = Fail Undefined \/
  exists out : String,
    modifyNTermAASpecificSequence seq = Ok out /\
    List.length out = List.length seq /\
    Permutation seq out /\
    (out = seq \/
     exists m aa pre rest,
       In (m, aa) massShiftList /\ free_of uppercase pre /\
       seq = pre ++ m ++ aa :: rest /\ out = pre ++ aa :: m ++ rest).
Proof.
  intros Hsize.
  destruct (mass_shift_outcomes massShiftList seq Hsize massShiftList_bare)
    as [H|[H|(m & aa & pre & rest & Hin & Hs & Hpre & H)]].
  - now left.
  - right. exists seq. repeat split; auto.
  - right. exists (pre ++ aa :: m ++ rest).
    assert (Hperm : Permutation seq (pre ++ aa :: m ++ rest)).
    { rewrite Hs. apply Permutation_app_head.
      symmetry. apply Permutation_middle. }
    split; [exact H|]. split; [symmetry; now apply Permutation_length|].
    split; [exact Hperm|]. right. exists m, aa, pre, rest. auto.
Qed.

Lemma modifyNTermAASpecificSequence_moves_one_witness :
  modifyNTermAASpecificSequence "-18.011EPEPTIDE" = Fail Undefined \/
  exists out : String,
    modifyNTermAASpecificSequence "-18.011EPEPTIDE" = Ok out /\
    List.length out = List.length (list_ascii_of_string "-18.011EPEPTIDE") /\
    Permutation (list_ascii_of_string "-18.011EPEPTIDE") out /\
    (out = list_ascii_of_string "-18.011EPEPTIDE" \/
     exists m aa pre rest,
       In (m, aa) massShiftList /\ free_of uppercase pre /\
       list_ascii_of_string "-18.011EPEPTIDE" = pre ++ m ++ aa :: rest /\
       out = pre ++ aa :: m ++ rest).
Proof.
  apply (modifyNTermAASpecificSequence_moves_one "-18.011EPEPTIDE"). reflexivity.
Defined.

(** ** The four passes together *)

Lemma decimal_point_no_comma (s : String) :
  ~ In ","%char s -> map decimal_point s = s.
Proof.
  induction s as [|c s IH]; intros H; [reflexivity|].
  cbn [map]. rewrite IH by (intros Hin; apply H; now right). f_equal.
  unfold decimal_point. destruct (mem c ".,") eqn:E; [|reflexivity].
  apply mem_true in E. destruct E as [<-|[<-|[]]]; [reflexivity|].
  exfalso. apply H. now left.
Qed.

Lemma upper_not_sign (c : ascii) : is_upper c = true -> is_sign c = false.
Proof.
  intros H. destruct (is_sign c) eqn:E; [|reflexivity].
  apply sign_not_upper in E. congruence.
Qed.

Lemma residues_In (s : String) (c : ascii) :
  residues s -> In c s -> is_upper c = true.
Proof. unfold residues. rewrite forallb_forall. auto. Qed.

Lemma residues_free (chars s : String) :
  residues s -> free_of uppercase chars -> free_of chars s.
Proof.
  intros Hs Hc. apply free_of_In. intros c Hin. apply mem_false. intros Hcc.
  apply (residues_In s c Hs) in Hin.
  unfold is_upper in Hin.
  rewrite (proj1 (free_of_In uppercase chars) Hc c Hcc) in Hin. discriminate.
Qed.

Lemma bracket_residues (rest : String) :
  residues rest -> bracket false rest = rest.
Proof.
  intros H. rewrite <- (app_nil_r rest) at 1. rewrite bracket_plain.
  - apply app_nil_r.
  - intros x Hx. apply upper_not_sign. now apply (residues_In rest).
Qed.

Lemma bracket_close_residues (rest : String) :
  residues rest -> bracket true rest = "]"%char :: rest.
Proof.
  destruct rest as [|u rest]; [reflexivity|]. intros H.
  unfold residues in H. cbn [forallb] in H. apply andb_true_iff in H as [Hu H].
  cbn [bracket]. rewrite Hu. now rewrite bracket_residues.
Qed.

(** X8: a peptide without modification, given with its two flanking
    residues as [x.INNER.y], comes out of the four passes as [INNER]. *)
Theorem rewrite_sequence_unmodified (x : ascii) (inner y : String) :
  x <> "."%char -> free_of "." y -> free_of "+-.," inner ->
  size (x :: "."%char :: inner ++ "."%char :: y) < max_size ->
  rewrite_sequence (x :: "."%char :: inner ++ "."%char :: y) = Ok inner.
Proof.
  intros Hx Hy Hinner Hsize. unfold rewrite_sequence.
  rewrite cutSequence_inner by assumption. cbn [bind].
  assert (incl_of : forall chars,
             (forall c, In c chars -> In c (list_ascii_of_string "+-.,")) ->
             free_of chars inner).
  { intros chars Hi. exact (free_of_weaken _ chars inner Hi Hinner). }
  rewrite fixDecimalSeparator_no_separator by (apply incl_of; simpl; tauto).
  cbn [bind].
  rewrite modifyNTermAASpecificSequence_no_minus
    by (apply (free_of_not_In _ _ _ Hinner); simpl; tauto).
  cbn [bind]. apply modifySequence_no_sign. apply incl_of; simpl; tauto.
Qed.

Lemma rewrite_sequence_unmodified_witness :
  rewrite_sequence "K.PEPTIDEK.L" = Ok (list_ascii_of_string "PEPTIDEK").
Proof.
  apply (rewrite_sequence_unmodified "K" "PEPTIDEK" "L");
    [discriminate | reflexivity | reflexivity | reflexivity].
Defined.

Lemma no_first_token (rest : String) :
  residues rest ->
  find (list_ascii_of_string "-17.027" ++ "Q"%char :: rest) "-18.011" = npos.
Proof.
  intros H. unfold find.
  assert (Hrest : find_offset "-18.011" rest = None).
  { apply (find_offset_absent _ rest "-"%char "18.011" eq_refl).
    apply (free_of_not_In "-" rest); [|now left].
    apply residues_free; [assumption | reflexivity]. }
  cbn. cbn in Hrest. now rewrite Hrest.
Qed.

(** X9: a peptide that begins with a terminal loss, [-18.011] before [E] or
    [-17.027] before [Q], and goes on with residues only, given with its
    flanking residues as [x.-17.027QREST.y], comes out of the four passes
    with the loss in brackets behind its residue: [Q[-17.027]REST]. *)
Theorem rewrite_sequence_terminal_loss (x : ascii) (m : String) (aa : ascii)
  (rest y : String) :
  In (m, aa) massShiftList ->
  x <> "."%char -> free_of "." y -> residues rest ->
  size (x :: "."%char :: (m ++ aa :: rest) ++ "."%char :: y) < max_size ->
  rewrite_sequence (x :: "."%char :: (m ++ aa :: rest) ++ "."%char :: y)
  = Ok (aa :: "["%char :: m ++ "]"%char :: rest).
Proof.
  intros Hin Hx Hy Hrest Hsize. unfold rewrite_sequence.
  rewrite cutSequence_inner by assumption. cbn [bind].
  assert (Hinner : size (m ++ aa :: rest) < max_size).
  { unfold size in *. simpl List.length in Hsize.
    rewrite length_app in Hsize. lia. }
  assert (Hcomma : ~ In ","%char rest).
  { apply (free_of_not_In "," rest); [|now left].
    apply residues_free; [assumption | reflexivity]. }
  rewrite fixDecimalSeparator_map by assumption. cbn [bind].
  rewrite decimal_point_no_comma.
  2:{ intros Hc. apply in_app_iff in Hc as [Hc|[Hc|Hc]]; [| |contradiction].
      - destruct Hin as [[= <- <-]|[[= <- <-]|[]]]; simpl in Hc;
          repeat (destruct Hc as [Hc|Hc]; [discriminate Hc|]); contradiction.
      - destruct Hin as [[= <- <-]|[[= <- <-]|[]]]; discriminate Hc. }
  assert (Hmoved : modifyNTermAASpecificSequence (m ++ aa :: rest)
                   = Ok (aa :: m ++ rest)).
  { unfold modifyNTermAASpecificSequence, massShiftList.
    destruct (massShiftList_bare m aa Hin) as [Hm Hne].
    assert (Hstep : forall iter,
               modifyNTermAASpecificSequence_for ((m, aa) :: iter)
                 (m ++ aa :: rest) = Ok (aa :: m ++ rest)).
    { intros iter.
      apply (mass_shift_moved m aa iter (m ++ aa :: rest) Hinner [] rest);
        auto; try reflexivity.
      - apply find_prefix.
      - destruct Hin as [[= <- <-]|[[= <- <-]|[]]]; reflexivity. }
    destruct Hin as [[= <- <-]|[[= <- <-]|[]]].
    - apply Hstep.
    - rewrite mass_shift_absent by (now apply no_first_token). apply Hstep. }
  rewrite Hmoved. cbn [bind].
  rewrite modifySequence_one_pass.
  2:{ unfold size in *. simpl List.length. rewrite length_app in *.
      simpl List.length in *. lia. }
  f_equal.
  destruct Hin as [[= <- <-]|[[= <- <-]|[]]]; cbn;
    now rewrite bracket_close_residues.
Qed.

Lemma rewrite_sequence_terminal_loss_witness :
  rewrite_sequence "K.-17.027QPEPTIDER.A"
  = Ok (list_ascii_of_string "Q[-17.027]PEPTIDER").
Proof.
  apply (rewrite_sequence_terminal_loss "K" "-17.027" "Q" "PEPTIDER" "A").
  - right. left. reflexivity.
  - discriminate.
  - reflexivity.
  - reflexivity.
  - reflexivity.
Defined.

(** ** [generateInputfileMapping] *)

Section IndexFacts.
Context {double float : Type}.
Variable to_float : double -> float.

Local Abbreviation slookup := (lookup String_compare).
Local Abbreviation build := (generateInputfileMapping_for to_float).
Local Abbreviation entry := (index_entry to_float).

Lemma String_eqb_refl (a : String) : String_eqb a a = true.
Proof. now apply String_eqb_eq. Qed.

Lemma String_eqb_neq (a b : String) : a <> b -> String_eqb a b = false.
Proof.
  intros H. destruct (String_eqb a b) eqn:E; [|reflexivity].
  now apply String_eqb_eq in E.
Qed.

(** What one spectrum does to the index. *)
Lemma generateInputfileMapping_body_Ok (m0 m1 : @RTMapping float)
  (it : @MSSpectrum double) :
  generateInputfileMapping_body to_float m0 it = Ok m1 ->
  (ordered String_compare m0 -> ordered String_compare m1) /\
  forall id,
    slookup m1 id =
    if String_eqb id [] then slookup m0 id
    else match slookup m0 id with
         | Some v => Some (v ++ entry [it] id)
         | None => match entry [it] id with
                   | [] => None
                   | v => Some v
                   end
         end.
Proof.
  unfold generateInputfileMapping_body.
  destruct (String_eqb (getNativeID it) []) eqn:Eid; cbn [negb].
  - intros [= <-]. split; [auto|]. intros id.
    apply String_eqb_eq in Eid.
    destruct (String_eqb id []) eqn:E; [reflexivity|].
    unfold index_entry. cbn [flat_map]. rewrite Eid.
    rewrite String_eqb_neq.
    + destruct (slookup m0 id); [now rewrite !app_nil_r | reflexivity].
    + intros <-. now rewrite String_eqb_refl in E.
  - intros H. apply bind_Ok_inv in H as (mz & Hmz & H). injection H as <-.
    apply vector_at_Ok in Hmz.
    destruct (getPrecursors it) as [|mz0 others] eqn:Eprec; [discriminate|].
    injection Hmz as ->.
    split.
    { intros Ho.
      repeat apply (ordered_update String_compare String_compare_eq
                      String_compare_antisym String_compare_trans).
      exact Ho. }
    intros id. unfold index_entry. cbn [flat_map]. rewrite Eprec, app_nil_r.
    destruct (list_eq_dec ascii_dec id (getNativeID it)) as [->|Hne].
    + rewrite Eid, String_eqb_refl.
      rewrite !(lookup_update_same String_compare String_compare_eq).
      destruct (slookup m0 (getNativeID it)) as [v|].
      * now rewrite <- app_assoc.
      * reflexivity.
    + rewrite !(lookup_update_other String_compare String_compare_eq) by assumption.
      rewrite (String_eqb_neq (getNativeID it) id) by congruence.
      destruct (String_eqb id []); [reflexivity|].
      destruct (slookup m0 id); [now rewrite app_nil_r | reflexivity].
Qed.

Lemma index_entry_cons (it : @MSSpectrum double) (exp : list MSSpectrum)
  (id : String) :
  entry (it :: exp) id = entry [it] id ++ entry exp id.
Proof. unfold index_entry. cbn [flat_map]. now rewrite app_nil_r. Qed.

(** What the spectra of an experiment do to the index. *)
Lemma generateInputfileMapping_for_Ok (exp : list (@MSSpectrum double)) :
  forall m0 m : @RTMapping float,
    build m0 exp = Ok m ->
    (ordered String_compare m0 -> ordered String_compare m) /\
    forall id,
      slookup m id =
      if String_eqb id [] then slookup m0 id
      else match slookup m0 id with
           | Some v => Some (v ++ entry exp id)
           | None => match entry exp id with
                     | [] => None
                     | v => Some v
                     end
           end.
Proof.
  induction exp as [|it exp IH]; intros m0 m H.
  - injection H as <-. split; [auto|]. intros id.
    destruct (String_eqb id []); [reflexivity|].
    destruct (slookup m0 id); [now rewrite app_nil_r | reflexivity].
  - cbn [generateInputfileMapping_for] in H.
    apply bind_Ok_inv in H as (m1 & Hbody & H).
    apply generateInputfileMapping_body_Ok in Hbody as [Ho1 Hl1].
    apply IH in H as [Ho Hl]. split; [auto|]. intros id.
    rewrite Hl, (index_entry_cons it exp id), Hl1.
    destruct (String_eqb id []); [reflexivity|].
    destruct (slookup m0 id) as [v|].
    + now rewrite <- app_assoc.
    + destruct (entry [it] id) as [|a l]; [reflexivity|].
      reflexivity.
Qed.

(** X11: the index that [generateInputfileMapping] builds from nothing has,
    in the order of the strings, one entry for every native id that is not
    empty and that a spectrum of the experiment has; the entry holds, spectrum
    after spectrum with that id, the retention time and then the m/z of the
    first precursor. *)
Theorem generateInputfileMapping_entries (exp_name : String)
  (exp : list (@MSSpectrum double)) (m : @RTMapping float) :
  exp_name <> [] ->
  generateInputfileMapping to_float exp_name exp [] = Ok m ->
  ordered String_compare m /\
  forall id,
    slookup m id =
    if String_eqb id [] then None
    else match entry exp id with
         | [] => None
         | v => Some v
         end.
Proof.
  intros Hname H. unfold generateInputfileMapping in H.
  rewrite (String_eqb_neq exp_name [] Hname) in H. cbn [negb] in H.
  apply generateInputfileMapping_for_Ok in H as [Ho Hl].
  split; [apply Ho; constructor|]. intros id. rewrite Hl. reflexivity.
Qed.

(** Whether the loop over the spectra gets through. *)
Lemma generateInputfileMapping_for_usable (exp : list (@MSSpectrum double)) :
  forall m0 : @RTMapping float,
    if forallb usable exp
    then exists m, build m0 exp = Ok m
    else build m0 exp = Fail Undefined.
Proof.
  induction exp as [|it exp IH]; intros m0; cbn [forallb].
  - now exists m0.
  - cbn [generateInputfileMapping_for].
    unfold usable at 1, generateInputfileMapping_body.
    destruct (String_eqb (getNativeID it) []); cbn [negb orb bind].
    + apply IH.
    + destruct (getPrecursors it) as [|mz others]; cbn [vector_at nth_error bind];
        [reflexivity|].
      apply IH.
Qed.

(** X10: [generateInputfileMapping] gets through when every spectrum with a
    native id has a precursor; a spectrum with a native id and without
    precursor makes it read the first element of an empty vector. *)
Theorem generateInputfileMapping_needs_precursor (exp_name : String)
  (exp : list (@MSSpectrum double)) (m0 : @RTMapping float) :
  exp_name <> [] ->
  (forallb usable exp = true ->
   exists m, generateInputfileMapping to_float exp_name exp m0 = Ok m) /\
  (forallb usable exp = false ->
   generateInputfileMapping to_float exp_name exp m0 = Fail Undefined).
Proof.
  intros Hname. unfold generateInputfileMapping.
  rewrite (String_eqb_neq exp_name [] Hname). cbn [negb].
  pose proof (generateInputfileMapping_for_usable exp m0) as H.
  split; intros E; now rewrite E in H.
Qed.

End IndexFacts.

Lemma generateInputfileMapping_entries_witness :
  exists m : @RTMapping String,
    generateInputfileMapping (fun x : String => x) "in.mzML" sample_exp [] = Ok m /\
    ordered String_compare m /\
    forall id,
      lookup String_compare m id =
      if String_eqb id [] then None
      else match index_entry (fun x : String => x) sample_exp id with
           | [] => None
           | v => Some v
           end.
Proof.
  eexists. split; [vm_compute; reflexivity|].
  apply (generateInputfileMapping_entries (fun x : String => x) "in.mzML"
           sample_exp); [discriminate | vm_compute; reflexivity].
Defined.

Lemma generateInputfileMapping_needs_precursor_witness :
  generateInputfileMapping (fun x : String => x) "in.mzML"
    (sample_exp ++ [mkMSSpectrum (list_ascii_of_string "scan=4")
                      (list_ascii_of_string "13.5") []]) []
  = Fail Undefined.
Proof.
  refine (proj2 (generateInputfileMapping_needs_precursor
                   (fun x : String => x) "in.mzML" _ [] _) _);
    [discriminate | reflexivity].
Defined.

(** ** More on the rows of the table *)

(** Two lists in strictly ascending order with the same members are one
    list. *)
Lemma ordered_same_members {K : Type} (cmp : K -> K -> comparison)
  (cmp_eq : forall a b, cmp a b = Eq <-> a = b)
  (cmp_trans : forall a b c, cmp a b = Lt -> cmp b c = Lt -> cmp a c = Lt)
  (l1 : list K) : forall l2 : list K,
  StronglySorted (fun a b => cmp a b = Lt) l1 ->
  StronglySorted (fun a b => cmp a b = Lt) l2 ->
  (forall x, In x l1 <-> In x l2) -> l1 = l2.
Proof.
  assert (Hirr : forall a, cmp a a <> Lt).
  { intros a H. rewrite (proj2 (cmp_eq a a) eq_refl) in H. discriminate. }
  induction l1 as [|a l1 IH]; intros [|b l2] H1 H2 Hmem.
  - reflexivity.
  - exfalso. apply (proj2 (Hmem b)). now left.
  - exfalso. apply (proj1 (Hmem a)). now left.
  - inversion H1 as [|? ? Hs1 Hall1]; subst.
    inversion H2 as [|? ? Hs2 Hall2]; subst.
    rewrite Forall_forall in Hall1, Hall2.
    assert (Hab : a = b).
    { destruct (proj1 (Hmem a) (or_introl eq_refl)) as [Hba|Ha]; [now symmetry|].
      destruct (proj2 (Hmem b) (or_introl eq_refl)) as [Hba|Hb]; [assumption|].
      exfalso. apply (Hirr a). eapply cmp_trans; [apply Hall1 | apply Hall2]; eauto. }
    subst b. f_equal. apply IH; auto.
    intros x. split; intros Hx.
    + destruct (proj1 (Hmem x) (or_intror Hx)) as [<-|]; [|assumption].
      exfalso. apply (Hirr a). now apply Hall1.
    + destruct (proj2 (Hmem x) (or_intror Hx)) as [<-|]; [|assumption].
      exfalso. apply (Hirr a). now apply Hall2.
Qed.

Section RowFacts.
Context {double float AASequence : Type}.
Variable to_float : double -> float.
Variable to_double : float -> double.
Variable AASequence_eq_dec : forall a b : AASequence, {a = b} + {a <> b}.
Variable fromString : String -> option AASequence.
Variable toInt : String -> option Z.
Variable toDouble : String -> option double.
Variable score_less : double -> double -> bool.
Variable identifier_ : String.

Local Abbreviation PeptideHit_ := (@PeptideHit double AASequence).
Local Abbreviation state_ := (@state double float AASequence).
Local Abbreviation scan_of := (row_scanNumber toInt).
Local Abbreviation sequence_of := (row_sequence fromString).
Local Abbreviation merge := (merge_accession AASequence_eq_dec).
Local Abbreviation ingest :=
  (ingest_row to_double AASequence_eq_dec fromString toInt toDouble identifier_).
Local Abbreviation ingest_all :=
  (ingest_rows to_double AASequence_eq_dec fromString toInt toDouble identifier_).
Local Abbreviation convert :=
  (main_ to_float to_double AASequence_eq_dec fromString toInt toDouble
     score_less identifier_).
Local Abbreviation ids := peptide_identifications.
Local Abbreviation zlookup := (lookup Z.compare).
Local Abbreviation slookup := (lookup String_compare).
Local Abbreviation ingest_row_Ok_ :=
  (ingest_row_Ok to_float to_double AASequence_eq_dec fromString toInt toDouble
     score_less identifier_).
Local Abbreviation ingest_row_first_ :=
  (ingest_row_first to_double AASequence_eq_dec fromString toInt toDouble
     identifier_).

(** A row that is taken in leaves the index as it is. *)
Lemma ingest_row_index (st : state_) (elements : list String) (st' : state_) :
  ingest st (Some elements) = Ok st' -> rt_mapping st' = rt_mapping st.
Proof.
  unfold ingest_row. intros H.
  apply bind_Ok_inv in H as (n & Hn & H).
  apply bind_Ok_inv in H as (q & Hq & H).
  apply bind_Ok_inv in H as (a & Ha & H).
  destruct (zlookup (ids st) n) as [pep|].
  - now injection H as <-.
  - apply bind_Ok_inv in H as (e12 & H12 & H).
    apply bind_Ok_inv in H as (sc & Hsc & H).
    apply bind_Ok_inv in H as (e7 & H7 & H).
    apply bind_Ok_inv in H as (ch & Hch & H).
    apply bind_Ok_inv in H as (title & H1 & H).
    unfold subscript in H at 1.
    destruct (slookup (rt_mapping st) title) as [v0|] eqn:Ert; [|discriminate].
    apply bind_Ok_inv in H as (r & Hr & H).
    unfold subscript in H. rewrite Ert in H.
    apply bind_Ok_inv in H as (m & Hm & H).
    now injection H as <-.
Qed.

Lemma ingest_all_index (rows : list (option (list String))) (st st' : state_) :
  ingest_all st rows = Ok st' -> rt_mapping st' = rt_mapping st.
Proof.
  intros H.
  apply (ingest_all_ind to_double AASequence_eq_dec fromString toInt toDouble
           identifier_ (fun s => rt_mapping s = rt_mapping st)) in H; auto.
  intros s e s' Hs He. apply ingest_row_index in He. congruence.
Qed.

Lemma addProteinAccession_fields (h : PeptideHit_) (a : String) :
  score (addProteinAccession h a) = score h /\
  rank (addProteinAccession h a) = rank h /\
  charge (addProteinAccession h a) = charge h.
Proof.
  unfold addProteinAccession.
  destruct (in_dec (list_eq_dec ascii_dec) a (protein_accessions h)); auto.
Qed.

Lemma merge_fields (q : AASequence) (a : String) (h : PeptideHit_) :
  score (merge q a h) = score h /\ rank (merge q a h) = rank h /\
  charge (merge q a h) = charge h /\ sequence (merge q a h) = sequence h.
Proof.
  unfold merge_accession. destruct (AASequence_eq_dec (sequence h) q); auto.
  destruct (addProteinAccession_fields h a) as (H1 & H2 & H3).
  now rewrite H1, H2, H3, addProteinAccession_sequence.
Qed.

Lemma merge_In (q : AASequence) (a x : String) (h : PeptideHit_) :
  In x (protein_accessions (merge q a h))
  <-> In x (protein_accessions h) \/ (sequence h = q /\ x = a).
Proof.
  unfold merge_accession. destruct (AASequence_eq_dec (sequence h) q) as [E|E].
  - rewrite (addProteinAccession_In fromString toInt toDouble identifier_).
    intuition.
  - intuition.
Qed.

(** From its first row on, the identification of a scan number changes in
    the accessions of its hit only, and these are those of the rows of the
    scan number with the sequence of the hit. *)
Lemma ingest_all_entry (rows : list (option (list String))) :
  forall (st st' : state_) (n : Z) pep (h : PeptideHit_),
    ingest_all st rows = Ok st' ->
    zlookup (ids st) n = Some pep -> hits pep = [h] ->
    exists h',
      zlookup (ids st') n = Some (setHits [h'] pep) /\
      score h' = score h /\ rank h' = rank h /\ charge h' = charge h /\
      sequence h' = sequence h /\
      forall a,
        In a (protein_accessions h') <->
        In a (protein_accessions h) \/
        exists e, In (Some e) rows /\ scan_of e = Ok n /\
                  sequence_of e = Ok (sequence h) /\ nth_error e 9 = Some a.
Proof.
  induction rows as [|r rows IH]; intros st st' n pep h H Hlook Hh.
  - injection H as <-. exists h. repeat split; auto.
    + rewrite Hlook. f_equal. destruct pep. cbn in *. now rewrite Hh.
    + intros [?|(e & [] & _)]. assumption.
  - cbn [ingest_rows] in H. apply bind_Ok_inv in H as (st0 & Hr & H).
    destruct r as [elements|]; [|discriminate].
    apply ingest_row_Ok_ in Hr
      as (n0 & q & a0 & Hn & Hq & Ha & _ & Hother & _ & _ & Hnew).
    destruct (Z.eq_dec n n0) as [<-|Hne].
    + rewrite Hlook in Hnew.
      assert (Hh0 : hits (setHits (map (merge q a0) (hits pep)) pep)
                    = [merge q a0 h])
        by (cbn [hits setHits]; now rewrite Hh).
      destruct (IH _ _ _ _ _ H Hnew Hh0)
        as (h' & Hl' & Hsc & Hrk & Hch & Hseq & Hacc).
      destruct (merge_fields q a0 h) as (M1 & M2 & M3 & M4).
      exists h'. split; [exact Hl'|].
      repeat (split; [congruence|]).
      intros a. rewrite Hacc, merge_In, M4. split.
      * intros [[Hin|[Hs ->]]|(e & He & Hes & Heq & Hea)].
        -- now left.
        -- right. exists elements. split; [now left|]. split; [assumption|].
           split; [congruence | assumption].
        -- right. exists e. split; [now right | auto].
      * intros [Hin|(e & [[= ->]|He] & Hes & Heq & Hea)].
        -- left. now left.
        -- left. right. split; congruence.
        -- right. exists e. repeat split; auto.
    + rewrite <- (Hother n Hne) in Hlook.
      destruct (IH _ _ _ _ _ H Hlook Hh)
        as (h' & Hl' & Hsc & Hrk & Hch & Hseq & Hacc).
      exists h'. repeat (split; [assumption|]).
      intros a. rewrite Hacc. split.
      * intros [Hin|(e & He & Hes & Heq & Hea)]; [now left|].
        right. exists e. split; [now right | auto].
      * intros [Hin|(e & [[= ->]|He] & Hes & Heq & Hea)]; [now left| |].
        -- congruence.
        -- right. exists e. repeat split; auto.
Qed.

(** What [main_] stores when it stores something, and from which index. *)
Lemma main_Ok_index (exp_name : String) (exp : list MSSpectrum)
  (tsvfile : list (option (list String))) (out : idXML) :
  convert exp_name exp tsvfile = Ok out ->
  exists index st,
    generateInputfileMapping to_float exp_name exp [] = Ok index /\
    ingest_all (mkState index [] []) (skipn 1 tsvfile) = Ok st /\
    rt_mapping st = index /\
    well_formed st /\
    protein_ids out =
      [mkProteinIdentification identifier_ "MS-GF+" "MS-GF+"
         (map mkProteinHit (keys (prot_accessions st)))] /\
    peptide_ids out = map (sort score_less) (values (ids st)).
Proof.
  unfold main_. intros H.
  apply bind_Ok_inv in H as (index & Hindex & H).
  apply bind_Ok_inv in H as (st & Hst & H).
  injection H as <-. exists index, st.
  split; [exact Hindex|]. split; [exact Hst|].
  split; [exact (ingest_all_index _ _ _ Hst)|].
  split; [|split; reflexivity].
  eapply (ingest_all_well_formed to_float to_double AASequence_eq_dec fromString
            toInt toDouble score_less identifier_);
    [apply well_formed_initial | exact Hst].
Qed.

(** The identification of a scan number, as it is stored, read off the first
    row of the scan number and the rows that share its sequence. *)
Lemma first_row_entry (exp_name : String) (exp : list MSSpectrum)
  (tsvfile : list (option (list String))) (out : idXML) (n : Z)
  (before after : list (option (list String))) (first : list String) :
  convert exp_name exp tsvfile = Ok out ->
  skipn 1 tsvfile = before ++ Some first :: after ->
  (forall e, In (Some e) before -> scan_of e <> Ok n) ->
  scan_of first = Ok n ->
  exists index q a0 e12 sc e7 ch title r m v h l1 l2,
    generateInputfileMapping to_float exp_name exp [] = Ok index /\
    sequence_of first = Ok q /\ nth_error first 9 = Some a0 /\
    nth_error first 12 = Some e12 /\ toDouble e12 = Some sc /\
    nth_error first 7 = Some e7 /\ toInt e7 = Some ch /\
    nth_error first 1 = Some title /\
    slookup index title = Some (r :: m :: v) /\
    peptide_ids out =
      l1 ++ mkPeptideIdentification (Some (to_double r)) (Some (to_double m))
              (Some n) "SpecEValue" false identifier_ [h] :: l2 /\
    (forall p, In p (l1 ++ l2) -> ScanNumber p <> Some n) /\
    score h = sc /\ rank h = 0 /\ charge h = ch /\ sequence h = q /\
    forall a,
      In a (protein_accessions h) <->
      exists e, In (Some e) (skipn 1 tsvfile) /\ scan_of e = Ok n /\
                sequence_of e = Ok q /\ nth_error e 9 = Some a.
Proof.
  intros H Hrows Hbefore Hfn.
  apply main_Ok_index in H
    as (index & st & Hindex & Hst & _ & (Hord & _ & Hone) & _ & Hpep).
  rewrite Hrows in *.
  apply (ingest_all_app to_double AASequence_eq_dec fromString toInt toDouble
           identifier_) in Hst as (st1 & Hst1 & Hst).
  cbn [ingest_rows] in Hst. apply bind_Ok_inv in Hst as (st2 & Hfirst & Hst).
  assert (Hnone : zlookup (ids st1) n = None).
  { destruct (zlookup (ids st1) n) eqn:E; [|reflexivity]. exfalso.
    assert (Hk : In n (keys (ids st1)))
      by (apply scan_lookup_keys; congruence).
    apply (ingest_all_scans to_float to_double AASequence_eq_dec fromString
             toInt toDouble score_less identifier_ _ _ _ Hst1) in Hk
      as [[]|(e & He & Hs)].
    exact (Hbefore e He Hs). }
  pose proof (ingest_all_index _ _ _ Hst1) as Hrt. cbn [rt_mapping] in Hrt.
  destruct (ingest_row_first_ _ _ _ n Hfirst Hfn Hnone)
    as (q & a0 & e12 & sc & e7 & ch & title & r & m & v
        & Hq & Ha & H12 & Hsc & H7 & Hch & H1 & Hlook & Hnew).
  rewrite Hrt in Hlook.
  destruct (ingest_all_entry _ _ _ _ _ _ Hst Hnew eq_refl)
    as (h & Hl & Hs1 & Hs2 & Hs3 & Hs4 & Hacc).
  cbn [score rank charge sequence protein_accessions] in Hs1, Hs2, Hs3, Hs4, Hacc.
  destruct (stored_once score_less _ _ _ Hord Hone Hl) as (l1 & l2 & Hsplit & Hothers).
  exists index, q, a0, e12, sc, e7, ch, title, r, m, v, h, l1, l2.
  repeat (split; [assumption|]).
  split; [rewrite Hpep; exact Hsplit|].
  repeat (split; [assumption|]).
  intros a. rewrite Hacc. split.
  - intros [[<-|[]]|(e & He & Hes & Heq & Hea)].
    + exists first. split; [apply in_app_iff; right; now left | auto].
    + exists e. split; [apply in_app_iff; right; now right | auto].
  - intros (e & He & Hes & Heq & Hea).
    apply in_app_iff in He as [He|[[= ->]|He]].
    + exfalso. exact (Hbefore e He Hes).
    + left. left. congruence.
    + right. now exists e.
Qed.

Lemma index_entry_first (exp earlier later : list (@MSSpectrum double))
  (it : @MSSpectrum double) (title : String) (mz : double)
  (others : list double) :
  exp = earlier ++ it :: later ->
  (forall s, In s earlier -> getNativeID s <> title) ->
  getNativeID it = title -> getPrecursors it = mz :: others ->
  index_entry to_float exp title
  = to_float (getRT it) :: to_float mz :: index_entry to_float later title.
Proof.
  intros -> Hearlier Hid Hprec. unfold index_entry.
  rewrite flat_map_app. cbn [flat_map].
  rewrite Hid, String_eqb_refl, Hprec.
  replace (flat_map _ earlier) with (@nil float); [reflexivity|].
  symmetry. induction earlier as [|s earlier IH]; [reflexivity|].
  cbn [flat_map]. rewrite String_eqb_neq by (apply Hearlier; now left).
  apply IH. intros s' Hs'. apply Hearlier. now right.
Qed.

(** X12: what is stored for a scan number is decided by the first row of
    the scan number: retention time and m/z are those of the first spectrum
    of the experiment with the title of that row as native id, score, charge
    and sequence are read from that row, the rank is 0 and the score type
    [SpecEValue] with lower scores better, whatever rows of the scan number
    follow. *)
Theorem first_row_decides (exp_name : String) (exp : list MSSpectrum)
  (tsvfile : list (option (list String))) (out : idXML) (n : Z)
  (before after : list (option (list String))) (first : list String)
  (title : String) (earlier later : list MSSpectrum) (it : MSSpectrum) :
  exp_name <> [] ->
  convert exp_name exp tsvfile = Ok out ->
  skipn 1 tsvfile = before ++ Some first :: after ->
  (forall e, In (Some e) before -> scan_of e <> Ok n) ->
  scan_of first = Ok n ->
  nth_error first 1 = Some title ->
  exp = earlier ++ it :: later ->
  (forall s, In s earlier -> getNativeID s <> title) ->
  getNativeID it = title ->
  exists mz others q e12 sc e7 ch h l1 l2,
    getPrecursors it = mz :: others /\
    sequence_of first = Ok q /\
    nth_error first 12 = Some e12 /\ toDouble e12 = Some sc /\
    nth_error first 7 = Some e7 /\ toInt e7 = Some ch /\
    peptide_ids out =
      l1 ++ mkPeptideIdentification
              (Some (to_double (to_float (getRT it))))
              (Some (to_double (to_float mz)))
              (Some n) "SpecEValue" false identifier_ [h] :: l2 /\
    (forall p, In p (l1 ++ l2) -> ScanNumber p <> Some n) /\
    score h = sc /\ rank h = 0 /\ charge h = ch /\ sequence h = q.
Proof.
  intros Hname H Hrows Hbefore Hfn Htitle Hexp Hearlier Hid.
  destruct (first_row_entry _ _ _ _ _ _ _ _ H Hrows Hbefore Hfn)
    as (index & q & a0 & e12 & sc & e7 & ch & title' & r & m & v & h & l1 & l2
        & Hindex & Hq & Ha & H12 & Hsc & H7 & Hch & H1 & Hlook & Hpep & Hothers
        & Hs1 & Hs2 & Hs3 & Hs4 & _).
  rewrite Htitle in H1. injection H1 as <-.
  (* the spectrum has a precursor, or the index had not been built *)
  assert (Husable : forallb usable exp = true).
  { pose proof (generateInputfileMapping_for_usable to_float exp []) as Hu.
    unfold generateInputfileMapping in Hindex.
    rewrite (String_eqb_neq exp_name [] Hname) in Hindex. cbn [negb] in Hindex.
    destruct (forallb usable exp); [reflexivity|]. congruence. }
  destruct (generateInputfileMapping_entries to_float exp_name exp index
              Hname Hindex) as [_ Hentries].
  rewrite Hentries in Hlook.
  destruct (String_eqb title []) eqn:Et; [discriminate|].
  assert (Hit : usable it = true).
  { rewrite forallb_forall in Husable. apply Husable. rewrite Hexp.
    apply in_app_iff. right. now left. }
  unfold usable in Hit. rewrite Hid, Et in Hit. cbn [orb] in Hit.
  destruct (getPrecursors it) as [|mz others] eqn:Eprec; [discriminate|].
  rewrite (index_entry_first exp earlier later it title mz others) in Hlook
    by assumption.
  injection Hlook as <- <- _.
  exists mz, others, q, e12, sc, e7, ch, h, l1, l2.
  repeat (split; [assumption || reflexivity|]). assumption.
Qed.

(** X13: the one hit that is stored for a scan number names the proteins of
    those rows of the scan number that carry the sequence of its first row,
    and no other protein. *)
Theorem hit_accessions_exact (exp_name : String) (exp : list MSSpectrum)
  (tsvfile : list (option (list String))) (out : idXML) (n : Z)
  (q : AASequence)
  (before after : list (option (list String))) (first : list String) :
  convert exp_name exp tsvfile = Ok out ->
  skipn 1 tsvfile = before ++ Some first :: after ->
  (forall e, In (Some e) before -> scan_of e <> Ok n) ->
  scan_of first = Ok n -> sequence_of first = Ok q ->
  exists pep h l1 l2,
    peptide_ids out = l1 ++ pep :: l2 /\
    (forall p, In p (l1 ++ l2) -> ScanNumber p <> Some n) /\
    ScanNumber pep = Some n /\ hits pep = [h] /\ sequence h = q /\
    forall a,
      In a (protein_accessions h) <->
      exists e, In (Some e) (skipn 1 tsvfile) /\ scan_of e = Ok n /\
                sequence_of e = Ok q /\ nth_error e 9 = Some a.
Proof.
  intros H Hrows Hbefore Hfn Hfq.
  destruct (first_row_entry _ _ _ _ _ _ _ _ H Hrows Hbefore Hfn)
    as (index & q' & a0 & e12 & sc & e7 & ch & title' & r & m & v & h & l1 & l2
        & _ & Hq & _ & _ & _ & _ & _ & _ & _ & Hpep & Hothers
        & _ & _ & _ & Hs4 & Hacc).
  rewrite Hfq in Hq. injection Hq as <-.
  eexists. exists h, l1, l2. split; [exact Hpep|].
  repeat (split; [assumption || reflexivity|]). exact Hacc.
Qed.

Lemma ingest_accessions_known (st : state_) (elements : list String)
  (st' : state_) :
  accessions_known st -> ingest st (Some elements) = Ok st' ->
  accessions_known st'.
Proof.
  intros Hknown H.
  apply ingest_row_Ok_ in H
    as (n0 & q & a0 & _ & _ & _ & Hprot & Hother & _ & _ & Hnew).
  intros n pep' h a Hl Hh Ha. rewrite Hprot, insert_if_absent_keys.
  destruct (Z.eq_dec n n0) as [->|Hne].
  - destruct (zlookup (ids st) n0) as [pep|] eqn:Hlook.
    + rewrite Hnew in Hl. injection Hl as <-. cbn [hits setHits] in Hh.
      apply in_map_iff in Hh as (h0 & <- & Hh0).
      apply merge_In in Ha as [Ha|[_ ->]]; [|now left].
      right. eapply Hknown; eauto.
    + destruct Hnew as (rt & mz & sc & ch & Hnew).
      rewrite Hnew in Hl. injection Hl as <-. cbn [hits] in Hh.
      destruct Hh as [<-|[]].
      apply (addProteinAccession_In fromString toInt toDouble identifier_) in Ha
        as [->|[]].
      now left.
  - rewrite (Hother n Hne) in Hl. right. eapply Hknown; eauto.
Qed.

(** X14: every protein accession of a hit that is stored is the accession
    of a protein hit that is stored. *)
Theorem hit_accessions_among_protein_hits (exp_name : String)
  (exp : list MSSpectrum) (tsvfile : list (option (list String)))
  (out : idXML) (pep : PeptideIdentification) (h : PeptideHit_) (a : String) :
  convert exp_name exp tsvfile = Ok out ->
  In pep (peptide_ids out) -> In h (hits pep) ->
  In a (protein_accessions h) ->
  exists pid, protein_ids out = [pid] /\ In (mkProteinHit a) (protein_hits pid).
Proof.
  intros H Hpep Hh Ha.
  apply main_Ok_index in H
    as (index & st & _ & Hst & _ & (Hord & _ & Hone) & Hprot & Hpeps).
  eexists. split; [exact Hprot|]. cbn [protein_hits]. apply in_map.
  assert (Hknown : accessions_known st).
  { apply (ingest_all_ind to_double AASequence_eq_dec fromString toInt toDouble
             identifier_ accessions_known ingest_accessions_known _ _ _) in Hst;
      [exact Hst|].
    intros n p h0 a0 Hl. discriminate. }
  rewrite Hpeps in Hpep. apply in_map_iff in Hpep as (pep0 & <- & Hin).
  unfold values in Hin. apply in_map_iff in Hin as ([n p] & <- & Hin).
  cbn [snd] in *. apply (scan_In_lookup _ _ _ Hord) in Hin.
  destruct (Hone n p Hin) as (_ & h0 & Hh0 & _).
  unfold sort in Hh. cbn [hits setHits] in Hh. rewrite Hh0 in Hh.
  cbn in Hh. destruct Hh as [<-|[]].
  apply (Hknown n p h0 a Hin); [rewrite Hh0; now left | exact Ha].
Qed.

Lemma ingest_all_fails (pre post : list (option (list String)))
  (r : option (list String)) (f : failure) :
  forall st st1 : state_,
    ingest_all st pre = Ok st1 -> ingest st1 r = Fail f ->
    ingest_all st (pre ++ r :: post) = Fail f.
Proof.
  induction pre as [|p pre IH]; intros st st1 Hpre Hr.
  - injection Hpre as <-. cbn [app ingest_rows]. now rewrite Hr.
  - cbn [app ingest_rows] in *.
    destruct (ingest st p) as [st0|f0]; [|discriminate].
    cbn [bind] in *. eapply IH; eauto.
Qed.

(** X15: the first row that is not taken in ends the conversion with its
    failure, whatever rows follow it, and nothing is stored; for a row that
    cannot be split the failure is the return of [PARSE_ERROR]. *)
Theorem first_failing_row (exp_name : String) (exp : list MSSpectrum)
  (tsvfile : list (option (list String))) (index : @RTMapping float)
  (pre post : list (option (list String))) (r : option (list String))
  (st1 : state_) (f : failure) :
  generateInputfileMapping to_float exp_name exp [] = Ok index ->
  skipn 1 tsvfile = pre ++ r :: post ->
  ingest_all (mkState index [] []) pre = Ok st1 ->
  ingest st1 r = Fail f ->
  convert exp_name exp tsvfile = Fail f /\
  (r = None -> f = Exit PARSE_ERROR).
Proof.
  intros Hindex Hrows Hpre Hr. split.
  - unfold main_. rewrite Hindex. cbn [bind]. rewrite Hrows.
    now rewrite (ingest_all_fails pre post r f _ st1 Hpre Hr).
  - intros ->. cbn in Hr. congruence.
Qed.

(** X16: a row that is taken in has ten fields or more, and thirteen or
    more when it is the first row of its scan number. *)
Theorem ingested_row_width (st : state_) (elements : list String)
  (st' : state_) :
  ingest st (Some elements) = Ok st' ->
  (10 <= List.length elements)%nat /\
  forall n, scan_of elements = Ok n -> zlookup (ids st) n = None ->
            (13 <= List.length elements)%nat.
Proof.
  intros H. split.
  - apply ingest_row_Ok_ in H as (n & q & a & _ & _ & Ha & _).
    assert (nth_error elements 9 <> None) by congruence.
    apply nth_error_Some in H. lia.
  - intros n Hn Hnone.
    destruct (ingest_row_first_ _ _ _ n H Hn Hnone)
      as (q & a0 & e12 & sc & e7 & ch & title & r & m & v
          & _ & _ & H12 & _).
    assert (Hne : nth_error elements 12 <> None) by congruence.
    apply nth_error_Some in Hne. lia.
Qed.

(** X17: a row of a scan number seen before is read in three places only,
    its scan number, its sequence and its accession: two rows that agree in
    these are taken in alike, whatever their other fields are. *)
Theorem repeated_scan_row_fields (st : state_) (e1 e2 : list String) (n : Z) :
  zlookup (ids st) n <> None ->
  scan_of e1 = Ok n -> scan_of e2 = Ok n ->
  sequence_of e1 = sequence_of e2 ->
  nth_error e1 9 = nth_error e2 9 ->
  ingest st (Some e1) = ingest st (Some e2).
Proof.
  intros Hseen H1 H2 Hseq Hacc. unfold ingest_row.
  rewrite H1, H2, Hseq. cbn [bind].
  unfold element, vector_at. rewrite Hacc.
  destruct (zlookup (ids st) n); [reflexivity | contradiction].
Qed.

(** X18: the protein hits and the scan numbers that are stored are decided
    by which rows the table has, not by their order or their number of
    occurrences. *)
Theorem stored_lists_by_row_set (exp_name : String) (exp : list MSSpectrum)
  (tsvfile tsvfile' : list (option (list String))) (out out' : idXML) :
  convert exp_name exp tsvfile = Ok out ->
  convert exp_name exp tsvfile' = Ok out' ->
  (forall r, In r (skipn 1 tsvfile) <-> In r (skipn 1 tsvfile')) ->
  protein_ids out = protein_ids out' /\
  map ScanNumber (peptide_ids out) = map ScanNumber (peptide_ids out').
Proof.
  intros H H' Hrows.
  apply main_Ok_index in H
    as (index & st & _ & Hst & _ & (Hord & Hacc & Hone) & Hprot & Hpep).
  apply main_Ok_index in H'
    as (index' & st' & _ & Hst' & _ & (Hord' & Hacc' & Hone') & Hprot' & Hpep').
  split.
  - rewrite Hprot, Hprot'.
    enough (Hk : keys (prot_accessions st) = keys (prot_accessions st'))
      by now rewrite Hk.
    apply (ordered_same_members String_compare String_compare_eq
             String_compare_trans); auto.
    intros a.
    rewrite (ingest_all_accessions to_float to_double AASequence_eq_dec
               fromString toInt toDouble score_less identifier_ _ _ _ Hst a).
    rewrite (ingest_all_accessions to_float to_double AASequence_eq_dec
               fromString toInt toDouble score_less identifier_ _ _ _ Hst' a).
    cbn [prot_accessions keys map]. split.
    + intros [[]|(e & He & Hea)]. right. exists e. split; [now apply Hrows|auto].
    + intros [[]|(e & He & Hea)]. right. exists e. split; [now apply Hrows|auto].
  - rewrite Hpep, Hpep'.
    rewrite !(values_ScanNumber score_less).
    + enough (Hk : keys (ids st) = keys (ids st')) by now rewrite Hk.
      apply (ordered_same_members Z.compare Z_compare_eq Z_compare_trans); auto.
      intros k.
      rewrite (ingest_all_scans to_float to_double AASequence_eq_dec
                 fromString toInt toDouble score_less identifier_ _ _ _ Hst k).
      rewrite (ingest_all_scans to_float to_double AASequence_eq_dec
                 fromString toInt toDouble score_less identifier_ _ _ _ Hst' k).
      cbn [peptide_identifications keys map]. split.
      * intros [[]|(e & He & Hea)]. right. exists e. split; [now apply Hrows|auto].
      * intros [[]|(e & He & Hea)]. right. exists e. split; [now apply Hrows|auto].
    + intros k p Hin. apply (scan_In_lookup _ _ _ Hord') in Hin.
      now apply Hone' in Hin.
    + intros k p Hin. apply (scan_In_lookup _ _ _ Hord) in Hin.
      now apply Hone in Hin.
Qed.

(** X19: a row that is taken in leaves the index as it was built, and so do
    all rows of a table that are taken in: the subscripts of lines 525 and
    526 insert nothing. *)
Theorem rows_keep_index :
  (forall (st : state_) (elements : list String) (st' : state_),
      ingest st (Some elements) = Ok st' -> rt_mapping st' = rt_mapping st) /\
  (forall (rows : list (option (list String))) (st st' : state_),
      ingest_all st rows = Ok st' -> rt_mapping st' = rt_mapping st).
Proof. split; [exact ingest_row_index | exact ingest_all_index]. Qed.

End RowFacts.

(** *** The sample run again *)

Lemma first_row_decides_witness :
  exists out,
    sample_main_ "MS-GF+_2014" "in.mzML" sample_exp sample_table = Ok out /\
    exists mz others q e12 sc e7 ch h l1 l2,
      getPrecursors (sample_spectrum title1 "10.5" "500.1") = mz :: others /\
      row_sequence (@Some String)
        (sample_elements title1 "" "2" "K.PEPTM+15.999IDE.R" "P2" "1e-5")
      = Ok q /\
      nth_error (sample_elements title1 "" "2" "K.PEPTM+15.999IDE.R" "P2" "1e-5")
        12 = Some e12 /\
      Some e12 = Some sc /\
      nth_error (sample_elements title1 "" "2" "K.PEPTM+15.999IDE.R" "P2" "1e-5")
        7 = Some e7 /\
      parse_int e7 = Some ch /\
      peptide_ids out =
        l1 ++ mkPeptideIdentification
                (Some (getRT (sample_spectrum title1 "10.5" "500.1")))
                (Some mz) (Some 1) "SpecEValue" false "MS-GF+_2014" [h] :: l2 /\
      (forall p, In p (l1 ++ l2) -> ScanNumber p <> Some 1) /\
      score h = sc /\ rank h = 0 /\ charge h = ch /\ sequence h = q.
Proof.
  eexists. split; [vm_compute; reflexivity|].
  apply (first_row_decides (fun x : String => x) (fun x : String => x)
           (list_eq_dec ascii_dec) (@Some String) parse_int (@Some String)
           text_less "MS-GF+_2014" "in.mzML" sample_exp sample_table _ 1
           [sample_row title2 "2" "2" "R.AAAK.L" "P3" "1e-7"]
           [sample_row title1 "-1" "2" "K.PEPTM+15.999IDE.R" "P1" "1e-5"]
           (sample_elements title1 "" "2" "K.PEPTM+15.999IDE.R" "P2" "1e-5")
           title1 []
           [sample_spectrum title2 "11.5" "600.2";
            sample_spectrum title3 "12.5" "700.3"]
           (sample_spectrum title1 "10.5" "500.1")).
  - discriminate.
  - vm_compute. reflexivity.
  - reflexivity.
  - intros e [H|[]]. injection H as <-. vm_compute. discriminate.
  - vm_compute. reflexivity.
  - reflexivity.
  - reflexivity.
  - intros s [].
  - reflexivity.
Defined.

Lemma hit_accessions_exact_witness :
  exists out,
    sample_main_ "MS-GF+_2014" "in.mzML" sample_exp sample_table = Ok out /\
    exists pep h l1 l2,
      peptide_ids out = l1 ++ pep :: l2 /\
      (forall p, In p (l1 ++ l2) -> ScanNumber p <> Some 1) /\
      ScanNumber pep = Some 1 /\ hits pep = [h] /\
      sequence h = list_ascii_of_string "PEPTM[+15.999]IDE" /\
      forall a,
        In a (protein_accessions h) <->
        exists e, In (Some e) (skipn 1 sample_table) /\
                  row_scanNumber parse_int e = Ok 1 /\
                  row_sequence (@Some String) e
                  = Ok (list_ascii_of_string "PEPTM[+15.999]IDE") /\
                  nth_error e 9 = Some a.
Proof.
  eexists. split; [vm_compute; reflexivity|].
  apply (hit_accessions_exact (fun x : String => x) (fun x : String => x)
           (list_eq_dec ascii_dec) (@Some String) parse_int (@Some String)
           text_less "MS-GF+_2014" "in.mzML" sample_exp sample_table _ 1
           (list_ascii_of_string "PEPTM[+15.999]IDE")
           [sample_row title2 "2" "2" "R.AAAK.L" "P3" "1e-7"]
           [sample_row title1 "-1" "2" "K.PEPTM+15.999IDE.R" "P1" "1e-5"]
           (sample_elements title1 "" "2" "K.PEPTM+15.999IDE.R" "P2" "1e-5")).
  - vm_compute. reflexivity.
  - reflexivity.
  - intros e [H|[]]. injection H as <-. vm_compute. discriminate.
  - vm_compute. reflexivity.
  - vm_compute. reflexivity.
Defined.

Lemma hit_accessions_among_protein_hits_witness :
  exists out,
    sample_main_ "MS-GF+_2014" "in.mzML" sample_exp sample_table = Ok out /\
    exists pid,
      protein_ids out = [pid] /\
      In (mkProteinHit (list_ascii_of_string "P1")) (protein_hits pid).
Proof.
  eexists. split; [vm_compute; reflexivity|].
  apply (hit_accessions_among_protein_hits (fun x : String => x)
           (fun x : String => x) (list_eq_dec ascii_dec) (@Some String)
           parse_int (@Some String) text_less "MS-GF+_2014" "in.mzML"
           sample_exp sample_table _ sample_pep_1 sample_hit_1 "P1").
  - vm_compute. reflexivity.
  - left. reflexivity.
  - left. reflexivity.
  - right. left. reflexivity.
Defined.

Lemma first_failing_row_witness :
  sample_main_ "MS-GF+_2014" "in.mzML" sample_exp
    (sample_table ++ [None; sample_row title3 "3" "2" "K.AAAK.R" "P4" "1e-3"])
  = Fail (Exit PARSE_ERROR) /\
  (@None (list String) = None -> Exit PARSE_ERROR = Exit PARSE_ERROR).
Proof.
  eapply (first_failing_row (fun x : String => x) (fun x : String => x)
            (list_eq_dec ascii_dec) (@Some String) parse_int (@Some String)
            text_less "MS-GF+_2014" "in.mzML" sample_exp
            (sample_table ++ [None; sample_row title3 "3" "2" "K.AAAK.R" "P4" "1e-3"])
            sample_index (skipn 1 sample_table)
            [sample_row title3 "3" "2" "K.AAAK.R" "P4" "1e-3"] None).
  - vm_compute. reflexivity.
  - reflexivity.
  - vm_compute. reflexivity.
  - reflexivity.
Defined.

Lemma ingested_row_width_witness :
  (10 <= List.length
           (sample_elements title1 "" "2" "K.PEPTM+15.999IDE.R" "P2" "1e-5"))%nat /\
  forall n,
    row_scanNumber parse_int
      (sample_elements title1 "" "2" "K.PEPTM+15.999IDE.R" "P2" "1e-5") = Ok n ->
    lookup Z.compare (peptide_identifications sample_state) n = None ->
    (13 <= List.length
             (sample_elements title1 "" "2" "K.PEPTM+15.999IDE.R" "P2" "1e-5"))%nat.
Proof.
  apply (ingested_row_width (fun x : String => x) (fun x : String => x)
           (list_eq_dec ascii_dec) (@Some String) parse_int (@Some String)
           text_less "MS-GF+_2014" sample_state _ sample_state_1).
  vm_compute. reflexivity.
Defined.

Lemma repeated_scan_row_fields_witness :
  sample_ingest_row "MS-GF+_2014" sample_state_1
    (sample_row title1 "-1" "2" "K.PEPTM+15.999IDE.R" "P1" "1e-5")
  = sample_ingest_row "MS-GF+_2014" sample_state_1
      (sample_row "no title, scan=1" "" "two" "K.PEPTM+15,999IDE.R" "P1" "").
Proof.
  apply (repeated_scan_row_fields (fun x : String => x) (list_eq_dec ascii_dec)
           (@Some String) parse_int (@Some String) "MS-GF+_2014"
           sample_state_1 _ _ 1).
  - vm_compute. discriminate.
  - vm_compute. reflexivity.
  - vm_compute. reflexivity.
  - vm_compute. reflexivity.
  - reflexivity.
Defined.

Lemma stored_lists_by_row_set_witness :
  exists out out',
    sample_main_ "MS-GF+_2014" "in.mzML" sample_exp sample_table = Ok out /\
    sample_main_ "MS-GF+_2014" "in.mzML" sample_exp shuffled_table = Ok out' /\
    protein_ids out = protein_ids out' /\
    map ScanNumber (peptide_ids out) = map ScanNumber (peptide_ids out').
Proof.
  eexists. eexists. split; [vm_compute; reflexivity|].
  split; [vm_compute; reflexivity|].
  apply (stored_lists_by_row_set (fun x : String => x) (fun x : String => x)
           (list_eq_dec ascii_dec) (@Some String) parse_int (@Some String)
           text_less "MS-GF+_2014" "in.mzML" sample_exp sample_table
           shuffled_table).
  - vm_compute. reflexivity.
  - vm_compute. reflexivity.
  - intros r. simpl. tauto.
Defined.

Lemma rows_keep_index_witness :
  rt_mapping sample_state_1 = rt_mapping sample_state.
Proof.
  apply (proj1 (rows_keep_index (fun x : String => x) (list_eq_dec ascii_dec)
                  (@Some String) parse_int (@Some String) "MS-GF+_2014")
           sample_state
           (sample_elements title1 "" "2" "K.PEPTM+15.999IDE.R" "P2" "1e-5")).
  vm_compute. reflexivity.
Defined.

(** ** The name of the file that MS-GF+ writes *)

Lemma suffix_split (s sfx : String) (delim : ascii) :
  size s < max_size -> suffix s delim = Ok sfx ->
  exists pre, s = pre ++ delim :: sfx.
Proof.
  intros Hsize H. unfold suffix in H.
  destruct (find_last_of_split s [delim])
    as [[Hnone _]|(l1 & c & l2 & Hs & Hlast & Hc & _)].
  - rewrite Hnone in H. discriminate.
  - apply mem_true in Hc. destruct Hc as [<-|[]].
    rewrite Hlast in H.
    pose proof max_size_npos. pose proof (size_nonneg l1).
    pose proof (size_nonneg l2).
    assert (Hsz : size s = size l1 + 1 + size l2).
    { rewrite Hs, size_app. unfold size. simpl List.length. lia. }
    replace (size l1 =? npos) with false in H by (symmetry; apply Z.eqb_neq; lia).
    rewrite wrap_small in H by (unfold max_size in *; lia).
    assert (Hs' : s = (l1 ++ [delim]) ++ l2) by (now rewrite <- app_assoc).
    rewrite Hs' in H at 1.
    replace (size l1 + 1) with (size (l1 ++ [delim])) in H
      by (rewrite size_app; reflexivity).
    rewrite substr_suffix in H by (rewrite <- Hs'; lia).
    injection H as <-. now exists l1.
Qed.

(** X20: the file that MS-GF+ is told to write has a name that ends with
    [.mzid]: a name asked for that ends with [.mzid] is used as it is and
    nothing is renamed; a name asked for that ends otherwise is used with
    [.mzid] added and marked to be renamed; and when no name is asked for,
    the file is one in the temporary directory. *)
Theorem mzid_output_filename_ends (temp_directory name file : String)
  (rename : bool) :
  size name < max_size ->
  mzid_output_filename temp_directory name = Ok (file, rename) ->
  (exists stem, file = stem ++ ".mzid") /\
  (name = [] ->
   file = temp_directory ++ "msgfplus_output_file.mzid" /\ rename = false) /\
  (name <> [] ->
   (if rename then file = name ++ ".mzid" else file = name) /\
   ((exists stem, name = stem ++ ".mzid") -> file = name /\ rename = false) /\
   ((forall stem, name <> stem ++ ".mzid") ->
    file = name ++ ".mzid" /\ rename = true)).
Proof.
  intros Hsize H. unfold mzid_output_filename in H.
  destruct (String_eqb name []) eqn:Ename.
  - injection H as <- <-. apply String_eqb_eq in Ename.
    split; [now exists (temp_directory ++ "msgfplus_output_file")
           ; rewrite <- app_assoc|].
    split; [auto | contradiction].
  - apply bind_Ok_inv in H as (sfx & Hsfx & H).
    assert (Hne : name <> []) by (intros ->; discriminate).
    assert (Hends : (exists stem, name = stem ++ ".mzid") ->
                    sfx = list_ascii_of_string "mzid").
    { intros (stem & Hstem).
      assert (Hs : suffix name "."%char = Ok (list_ascii_of_string "mzid")).
      { apply (suffix_after_last name stem "mzid" "."%char);
          [exact Hstem | | exact Hsize].
        simpl. intros [Hd|[Hd|[Hd|[Hd|[]]]]]; discriminate Hd. }
      rewrite Hs in Hsfx. now injection Hsfx as <-. }
    destruct (String_eqb sfx "mzid") eqn:Esfx; cbn [negb] in H;
      injection H as <- <-.
    + apply String_eqb_eq in Esfx. subst sfx.
      apply suffix_split in Hsfx as (pre & Hpre); [|assumption].
      split; [exists pre; exact Hpre|]. split; [contradiction|].
      intros _. split; [reflexivity|]. split; [auto|].
      intros Hnot. exfalso. apply (Hnot pre). exact Hpre.
    + split; [now exists name|]. split; [contradiction|].
      intros _. split; [reflexivity|]. split; [|auto].
      intros Hstem. apply Hends in Hstem. subst sfx. discriminate Esfx.
Qed.

Lemma mzid_output_filename_ends_witness :
  (exists stem : String,
      list_ascii_of_string "results/run1.mzid" = stem ++ ".mzid") /\
  (list_ascii_of_string "results/run1.mzid" = [] ->
   list_ascii_of_string "results/run1.mzid"
   = list_ascii_of_string "/tmp/x/" ++ "msgfplus_output_file.mzid" /\
   false = false) /\
  (list_ascii_of_string "results/run1.mzid" <> [] ->
   list_ascii_of_string "results/run1.mzid"
   = list_ascii_of_string "results/run1.mzid" /\
   ((exists stem : String,
        list_ascii_of_string "results/run1.mzid" = stem ++ ".mzid") ->
    list_ascii_of_string "results/run1.mzid"
    = list_ascii_of_string "results/run1.mzid" /\ false = false) /\
   ((forall stem : String,
        list_ascii_of_string "results/run1.mzid" <> stem ++ ".mzid") ->
    list_ascii_of_string "results/run1.mzid"
    = list_ascii_of_string "results/run1.mzid" ++ ".mzid" /\ false = true)).
Proof.
  apply (mzid_output_filename_ends "/tmp/x/" "results/run1.mzid"
           "results/run1.mzid" false); reflexivity.
Defined.

(** ** Rows and the spectra of the experiment *)

Section RowIndexFacts.
Context {double float AASequence : Type}.
Variable to_float : double -> float.
Variable to_double : float -> double.
Variable AASequence_eq_dec : forall a b : AASequence, {a = b} + {a <> b}.
Variable fromString : String -> option AASequence.
Variable toInt : String -> option Z.
Variable toDouble : String -> option double.
Variable score_less : double -> double -> bool.
Variable identifier_ : String.

Lemma index_entry_spectrum (exp : list (@MSSpectrum double)) (id : String) :
  index_entry to_float exp id <> [] ->
  exists it, In it exp /\ getNativeID it = id /\ getPrecursors it <> [].
Proof.
  induction exp as [|s exp IH]; [intros H; now contradiction H|].
  rewrite index_entry_cons. unfold index_entry at 1. cbn [flat_map].
  destruct (String_eqb (getNativeID s) id) eqn:E.
  - destruct (getPrecursors s) as [|mz others] eqn:Eprec.
    + cbn [app]. intros H. destruct (IH H) as (it & Hin & Hid & Hp).
      exists it. split; [now right | auto].
    + intros _. exists s. apply String_eqb_eq in E.
      split; [now left|]. split; [assumption|]. rewrite Eprec. discriminate.
  - cbn [app]. intros H. destruct (IH H) as (it & Hin & Hid & Hp).
    exists it. split; [now right | auto].
Qed.

(** X21: when a table is converted, the first row of every scan number has
    a title that is not empty and is the native id of a spectrum of the
    experiment with a precursor. *)
Theorem first_row_title_indexed (exp_name : String) (exp : list MSSpectrum)
  (tsvfile : list (option (list String))) (out : idXML) (n : Z)
  (before after : list (option (list String))) (first : list String) :
  exp_name <> [] ->
  main_ to_float to_double AASequence_eq_dec fromString toInt toDouble
    score_less identifier_ exp_name exp tsvfile = Ok out ->
  skipn 1 tsvfile = before ++ Some first :: after ->
  (forall e, In (Some e) before -> row_scanNumber toInt e <> Ok n) ->
  row_scanNumber toInt first = Ok n ->
  exists title it,
    nth_error first 1 = Some title /\ title <> [] /\
    In it exp /\ getNativeID it = title /\ getPrecursors it <> [].
Proof.
  intros Hname H Hrows Hbefore Hfn.
  destruct (first_row_entry to_float to_double AASequence_eq_dec fromString
              toInt toDouble score_less identifier_
              _ _ _ _ _ _ _ _ H Hrows Hbefore Hfn)
    as (index & q & a0 & e12 & sc & e7 & ch & title & r & m & v & h & l1 & l2
        & Hindex & _ & _ & _ & _ & _ & _ & H1 & Hlook & _).
  destruct (generateInputfileMapping_entries to_float exp_name exp index
              Hname Hindex) as [_ Hentries].
  rewrite Hentries in Hlook.
  destruct (String_eqb title []) eqn:Et; [discriminate|].
  destruct (index_entry_spectrum exp title) as (it & Hin & Hid & Hp).
  { destruct (index_entry to_float exp title); [discriminate|discriminate]. }
  exists title, it. repeat split; auto.
  intros ->. now rewrite String_eqb_refl in Et.
Qed.

End RowIndexFacts.

Lemma first_row_title_indexed_witness :
  exists title it,
    nth_error (sample_elements title1 "" "2" "K.PEPTM+15.999IDE.R" "P2" "1e-5") 1
    = Some title /\ title <> [] /\
    In it sample_exp /\ getNativeID it = title /\ getPrecursors it <> [].
Proof.
  eapply (first_row_title_indexed (fun x : String => x) (fun x : String => x)
            (list_eq_dec ascii_dec) (@Some String) parse_int (@Some String)
            text_less "MS-GF+_2014" "in.mzML" sample_exp sample_table _ 1
            [sample_row title2 "2" "2" "R.AAAK.L" "P3" "1e-7"]
            [sample_row title1 "-1" "2" "K.PEPTM+15.999IDE.R" "P1" "1e-5"]
            (sample_elements title1 "" "2" "K.PEPTM+15.999IDE.R" "P2" "1e-5")).
  - discriminate.
  - vm_compute. reflexivity.
  - reflexivity.
  - intros e [H|[]]. injection H as <-. vm_compute. discriminate.
  - vm_compute. reflexivity.
Defined.

(** ** A modified residue inside a peptide *)

Lemma numeral_In (s : String) (c : ascii) :
  numeral s -> In c s -> mem c "0123456789.," = true.
Proof. unfold numeral. rewrite forallb_forall. auto. Qed.

Lemma numeral_decimal_point (num : String) :
  numeral num -> free_of uppercase (map decimal_point num).
Proof.
  intros H. apply free_of_In. intros c Hc.
  apply in_map_iff in Hc as (d & <- & Hd).
  apply (numeral_In num d H) in Hd. unfold decimal_point.
  destruct (mem d ".,"); [reflexivity|].
  apply mem_true in Hd. simpl in Hd.
  repeat (destruct Hd as [<-|Hd]; [reflexivity|]). contradiction.
Qed.

Lemma residues_decimal_point (s : String) :
  residues s -> map decimal_point s = s.
Proof.
  intros H. apply decimal_point_no_comma.
  apply (free_of_not_In "," s); [|now left].
  apply residues_free; [assumption | reflexivity].
Qed.

(** A token that begins with [-] is not found at a residue. *)
Lemma find_behind_residue (u : ascii) (s m' : String) :
  is_upper u = true ->
  find (u :: s) ("-"%char :: m') = npos \/ 0 < find (u :: s) ("-"%char :: m').
Proof.
  intros Hu. unfold find. cbn [find_offset starts_with].
  destruct (Ascii.eqb_spec "-"%char u) as [<-|_]; [discriminate Hu|].
  cbn [andb]. destruct (find_offset _ s); cbn [option_map]; [right; lia | now left].
Qed.

(** X22: a peptide with one modified residue inside, given with its flanking
    residues as [x.PRE+15,999POST.y] where [PRE] and [POST] are residues and
    [PRE] is not empty, comes out of the four passes as [PRE[+15.999]POST]:
    the mass shift in brackets, its decimal comma a point, the residues as
    they were. *)
Theorem rewrite_sequence_modified_residue (x sign : ascii)
  (pre num post y : String) :
  x <> "."%char -> free_of "." y ->
  residues pre -> pre <> [] -> residues post ->
  is_sign sign = true -> numeral num ->
  size (x :: "."%char :: (pre ++ sign :: num ++ post) ++ "."%char :: y)
  < max_size ->
  rewrite_sequence
    (x :: "."%char :: (pre ++ sign :: num ++ post) ++ "."%char :: y)
  = Ok (pre ++ "["%char :: sign :: map decimal_point num ++ "]"%char :: post).
Proof.
  intros Hx Hy Hpre Hne Hpost Hsign Hnum Hsize. unfold rewrite_sequence.
  rewrite cutSequence_inner by assumption. cbn [bind].
  set (inner := pre ++ sign :: num ++ post).
  assert (Hinner : size inner < max_size).
  { unfold size in *. simpl List.length in Hsize. fold inner in Hsize.
    rewrite length_app in Hsize. lia. }
  rewrite fixDecimalSeparator_map by assumption. cbn [bind].
  assert (Hsd : decimal_point sign = sign).
  { apply mem_true in Hsign. destruct Hsign as [<-|[<-|[]]]; reflexivity. }
  assert (Hfixed : map decimal_point inner
                   = pre ++ sign :: map decimal_point num ++ post).
  { unfold inner. rewrite map_app. cbn [map]. rewrite map_app, Hsd.
    rewrite (residues_decimal_point pre Hpre), (residues_decimal_point post Hpost).
    reflexivity. }
  rewrite Hfixed. set (fixed := pre ++ sign :: map decimal_point num ++ post).
  assert (Hfsize : size fixed < max_size).
  { unfold fixed. rewrite <- Hfixed. unfold size in *. now rewrite length_map. }
  (* a residue stands before every token *)
  assert (Huntouched : modifyNTermAASpecificSequence fixed = Ok fixed).
  { destruct pre as [|u pre']; [contradiction|].
    assert (Hu : is_upper u = true) by (apply (residues_In (u :: pre')); auto; now left).
    assert (Hfirst : find_first_of fixed uppercase 0 = 0).
    { rewrite find_first_of_0. unfold fixed. cbn [app index_where].
      fold (is_upper u). now rewrite Hu. }
    assert (Hskip : forall m' aa iter,
               modifyNTermAASpecificSequence_for (("-"%char :: m', aa) :: iter) fixed
               = modifyNTermAASpecificSequence_for iter fixed).
    { intros m' aa iter.
      destruct (find_behind_residue u (pre' ++ sign :: map decimal_point num ++ post)
                  m' Hu) as [H|H].
      - now apply mass_shift_absent.
      - destruct (Z.eq_dec (find fixed ("-"%char :: m')) npos) as [E|E].
        + now apply mass_shift_absent.
        + apply mass_shift_after_residue; auto. rewrite Hfirst. exact H. }
    unfold modifyNTermAASpecificSequence, massShiftList.
    change (list_ascii_of_string "-18.011") with ("-"%char :: list_ascii_of_string "18.011").
    change (list_ascii_of_string "-17.027") with ("-"%char :: list_ascii_of_string "17.027").
    now rewrite !Hskip. }
  rewrite Huntouched. cbn [bind].
  rewrite modifySequence_one_pass by assumption. f_equal. unfold fixed.
  rewrite bracket_plain
    by (intros c Hc; apply upper_not_sign; now apply (residues_In pre)).
  cbn [bracket]. rewrite Hsign.
  rewrite bracket_open
    by (apply free_of_In; now apply numeral_decimal_point).
  now rewrite bracket_close_residues.
Qed.

Lemma rewrite_sequence_modified_residue_witness :
  rewrite_sequence "K.PEPTM+15,999IDE.R"
  = Ok (list_ascii_of_string "PEPTM[+15.999]IDE").
Proof.
  apply (rewrite_sequence_modified_residue "K" "+" "PEPTM" "15,999" "IDE" "R");
    try reflexivity; discriminate.
Defined.
